(** * Development-mode live-update engine: dependency graph, route inference,
      update recorder, change orchestrator and browser client.

    Shallow embedding of
      src/dev/module-graph.ts, src/dev/route-inference.ts,
      src/dev/performance-monitor.ts, src/dev/dev-tools.ts and
      src/dev/hmr-browser.ts.

    JavaScript values are modelled as follows.
    - [string] is a JS string (code units as [ascii]).
    - [Map<string, V>] is [gmap string V]; no claim depends on the
      iteration order of a Map.
    - [Set<string>] is a duplicate-free [list string] in insertion order,
      which is the order JS iterates a Set in.
    - [number] is a binary64 floating-point number ([float]) for the
      readings of the clock and what is computed from them, [Q] for the
      reconnect delays of the client, which binary64 holds exactly, and
      [nat] for counters and lengths.
    - [T | undefined] is [option T]. *)

From Stdlib Require Import QArith Qminmax.
From Stdlib Require Import PrimFloat Uint63.
From stdpp Require Import gmap strings list fin_maps relations sorting.
From Stdlib Require Import Ascii.

Local Open Scope string_scope.
Local Open Scope list_scope.

(** ** JS [Set<string>] in insertion order *)

Module JsSet.

Definition has (x : string) (s : list string) : bool := bool_decide (x ∈ s).

(** [Set.prototype.add]: an element already present keeps its place. *)
Definition add (x : string) (s : list string) : list string :=
  if has x s then s else s ++ [x].

(** [Set.prototype.delete]. *)
Definition delete (x : string) (s : list string) : list string :=
  filter (λ y, y ≠ x) s.

(** [set.size === 0]. *)
Definition is_empty (s : list string) : bool :=
  match s with [] => true | _ => false end.

End JsSet.

(** JS truthiness of a string: only the empty string is falsy. *)
Definition truthy (s : string) : bool :=
  match s with EmptyString => false | _ => true end.

(** ** src/dev/module-graph.ts *)

Module ModuleGraph.

Record ModuleGraph := mkGraph {
  dependencies : gmap string (list string);
  dependents : gmap string (list string);
  moduleToFile : gmap string string;
  fileToModule : gmap string string
}.

(** The constructor of [ModuleGraphManager]. *)
Definition empty : ModuleGraph := mkGraph ∅ ∅ ∅ ∅.

(** One round of the [for (const dep of dependencies)] loop of
    [addModule]: the state is [existingDeps] and the [dependents] map. *)
Definition addModule_step (moduleId : string)
    (st : list string * gmap string (list string)) (dep : string)
    : list string * gmap string (list string) :=
  let existingDeps := JsSet.add dep st.1 in
  let ds := default [] (st.2 !! dep) in
  (existingDeps, <[dep := JsSet.add moduleId ds]> st.2).

Definition addModule (moduleId filePath : string) (deps : list string)
    (g : ModuleGraph) : ModuleGraph :=
  let m2f := <[moduleId := filePath]> (moduleToFile g) in
  let f2m := <[filePath := moduleId]> (fileToModule g) in
  let existingDeps := default [] (dependencies g !! moduleId) in
  let st := foldl (addModule_step moduleId) (existingDeps, dependents g) deps in
  mkGraph (<[moduleId := st.1]> (dependencies g)) st.2 m2f f2m.

(** Body shared by both loops of [removeModule]: look the set of [k] up,
    delete [moduleId] from it and drop the entry when the set is empty. *)
Definition strip (moduleId : string) (M : gmap string (list string))
    (k : string) : gmap string (list string) :=
  match M !! k with
  | Some s =>
      let s' := JsSet.delete moduleId s in
      if JsSet.is_empty s' then delete k M else <[k := s']> M
  | None => M
  end.

Definition removeModule (moduleId : string) (g : ModuleGraph) : ModuleGraph :=
  let f2m :=
    match moduleToFile g !! moduleId with
    | Some filePath =>
        if truthy filePath then delete filePath (fileToModule g)
        else fileToModule g
    | None => fileToModule g
    end in
  let m2f := delete moduleId (moduleToFile g) in
  (* remove the forward dependencies *)
  let '(deps1, dpts1) :=
    match dependencies g !! moduleId with
    | Some deps =>
        (delete moduleId (dependencies g),
         foldl (strip moduleId) (dependents g) deps)
    | None => (dependencies g, dependents g)
    end in
  (* remove the reverse dependencies *)
  let '(deps2, dpts2) :=
    match dpts1 !! moduleId with
    | Some dependents =>
        (foldl (strip moduleId) deps1 dependents, delete moduleId dpts1)
    | None => (deps1, dpts1)
    end in
  mkGraph deps2 dpts2 m2f f2m.

Definition getModuleId (g : ModuleGraph) (filePath : string) : option string :=
  fileToModule g !! filePath.

Definition getFilePath (g : ModuleGraph) (moduleId : string) : option string :=
  moduleToFile g !! moduleId.

(** The loop [for (const dependent of dependents) collectDependents(dependent)];
    [visit] is the recursive call. *)
Fixpoint visit_all (visit : string → list string * list string
                            → option (list string * list string))
    (ds : list string) (st : list string * list string)
    : option (list string * list string) :=
  match ds with
  | [] => Some st
  | dependent :: ds' =>
      match visit dependent st with
      | Some st' => visit_all visit ds' st'
      | None => None
      end
  end.

(** The closure [collectDependents] of [getAffectedModules].  Its state is
    the pair of sets [(visited, affected)].  The recursion of the source
    is bounded here by [fuel]; [None] means the bound was too small. *)
Fixpoint collectDependents (g : ModuleGraph) (fuel : nat) (id : string)
    (st : list string * list string) : option (list string * list string) :=
  match fuel with
  | O => None
  | S fuel' =>
      if JsSet.has id st.1 then Some st
      else
        let st1 := (JsSet.add id st.1, JsSet.add id st.2) in
        match dependents g !! id with
        | Some ds => visit_all (collectDependents g fuel') ds st1
        | None => Some st1
        end
  end.

Definition getAffectedModules_fuel (fuel : nat) (g : ModuleGraph)
    (changedFile : string) : option (list string) :=
  match getModuleId g changedFile with
  | Some moduleId =>
      if truthy moduleId then
        snd <$> collectDependents g fuel moduleId ([], [])
      else Some []
  | None => Some []
  end.

(** All ids that occur in the [dependents] map, keys and members. *)
Definition graph_ids (g : ModuleGraph) : list string :=
  concat (map (λ kv, kv.1 :: kv.2) (map_to_list (dependents g))).

(** A recursion depth that is always enough: the traversal visits the
    start id and ids of the [dependents] map, each at most once. *)
Definition fuel_bound (g : ModuleGraph) : nat :=
  S (S (length (graph_ids g))).

Definition getAffectedModules (g : ModuleGraph) (changedFile : string)
    : list string :=
  default [] (getAffectedModules_fuel (fuel_bound g) g changedFile).

Definition getDependencies (g : ModuleGraph) (moduleId : string) : list string :=
  default [] (dependencies g !! moduleId).

Definition getDependents (g : ModuleGraph) (moduleId : string) : list string :=
  default [] (dependents g !! moduleId).

Definition clear (g : ModuleGraph) : ModuleGraph := empty.

(** Calls a client of the manager can make that change the graph. *)
Inductive op :=
| AddModule (moduleId filePath : string) (deps : list string)
| RemoveModule (moduleId : string).

Definition apply_op (g : ModuleGraph) (o : op) : ModuleGraph :=
  match o with
  | AddModule m f ds => addModule m f ds g
  | RemoveModule m => removeModule m g
  end.

Definition run (ops : list op) : ModuleGraph := foldl apply_op empty ops.

(** Edges of the two adjacency maps. *)
Definition fwd (g : ModuleGraph) (a b : string) : Prop :=
  ∃ s, dependencies g !! a = Some s ∧ b ∈ s.

Definition bwd (g : ModuleGraph) (a b : string) : Prop :=
  ∃ s, dependents g !! b = Some s ∧ a ∈ s.

Definition mirrored (g : ModuleGraph) : Prop :=
  ∀ a b, fwd g a b ↔ bwd g a b.

(** [edge g x y]: [y] is a direct dependent of [x]. *)
Definition edge (g : ModuleGraph) (x y : string) : Prop :=
  ∃ ds, dependents g !! x = Some ds ∧ y ∈ ds.

Definition reach (g : ModuleGraph) : string → string → Prop := rtc (edge g).

End ModuleGraph.

(** ** JS strings and regular expressions

    The sources match file paths and routes with regular-expression
    literals.  [regex] is the syntax those literals use and [rmatch] the
    backtracking matcher of the language standard: alternatives are tried
    left to right, quantifiers are greedy, an iteration of [*] that
    consumes nothing is rejected.  No literal of the sources has a
    capture group under a quantifier, so captures are not reset between
    iterations. *)

Module JsRegex.

Definition str := list ascii.

Definition of_string : string → str := String.list_ascii_of_string.
Definition to_string : str → string := String.string_of_list_ascii.

Inductive regex :=
| Eps
| Chr (c : ascii)                 (* a literal character *)
| CharSet (f : ascii → bool)      (* a class: [.], [\w], [[^)]] *)
| Seq (r1 r2 : regex)
| Alt (r1 r2 : regex)
| Star (r : regex)
| Group (n : nat) (r : regex)     (* capture group number [n] *)
| Bos                             (* [^] *)
| Eos.                            (* [$] *)

Definition Plus (r : regex) : regex := Seq r (Star r).
Definition Opt (r : regex) : regex := Alt r Eps.

(** A literal run of characters. *)
Fixpoint lit_chars (cs : str) : regex :=
  match cs with
  | [] => Eps
  | [c] => Chr c
  | c :: cs' => Seq (Chr c) (lit_chars cs')
  end.
Definition lit (s : string) : regex := lit_chars (of_string s).

Definition in_range (lo hi c : ascii) : bool :=
  (nat_of_ascii lo <=? nat_of_ascii c)%nat && (nat_of_ascii c <=? nat_of_ascii hi)%nat.

(** Canonicalisation of the [i] flag: upper-case the letters a-z. *)
Definition canonicalize (c : ascii) : ascii :=
  if in_range "a" "z" c then ascii_of_nat (nat_of_ascii c - 32) else c.

Definition char_eqb (ignoreCase : bool) (a b : ascii) : bool :=
  if ignoreCase then Ascii.eqb (canonicalize a) (canonicalize b)
  else Ascii.eqb a b.

(** [.]: anything but a line terminator. *)
Definition dot : regex :=
  CharSet (λ c, negb (Ascii.eqb c "010" || Ascii.eqb c "013")).

(** [\w]. *)
Definition word_char (c : ascii) : bool :=
  in_range "a" "z" c || in_range "A" "Z" c || in_range "0" "9" c
  || Ascii.eqb c "_".
Definition word : regex := CharSet word_char.

(** [[^c]]. *)
Definition not_char (x : ascii) : regex := CharSet (λ c, negb (Ascii.eqb c x)).

Definition captures := list (nat * str).

Definition get_capture (caps : captures) (n : nat) : option str :=
  snd <$> List.find (λ p, Nat.eqb p.1 n) caps.

(** The iteration of a starred pattern.  [step] matches the pattern
    under the star once, [k] is what follows the star.  Greedy: one more
    round is tried first, and what follows is tried when that fails.  A
    round that consumes nothing is rejected; a round consumes at least one
    character, so [fuel], the length of the input that is left when the
    iteration starts, is enough. *)
Fixpoint star_loop {R : Type}
    (step : nat → str → captures → (nat → str → captures → option R) → option R)
    (k : nat → str → captures → option R)
    (fuel : nat) (pos : nat) (s : str) (caps : captures) : option R :=
  match fuel with
  | O => k pos s caps
  | S fuel' =>
      match step pos s caps
              (λ pos' s' caps',
                 if (pos <? pos')%nat then star_loop step k fuel' pos' s' caps'
                 else None) with
      | Some x => Some x
      | None => k pos s caps
      end
  end.

(** [rmatch r i pos s caps k]: match [r] against the input [s] that is
    left at position [pos], then go on with [k]. *)
Fixpoint rmatch {R : Type} (r : regex) (ignoreCase : bool) (pos : nat) (s : str)
    (caps : captures) (k : nat → str → captures → option R) : option R :=
  match r with
  | Eps => k pos s caps
  | Chr c =>
      match s with
      | x :: s' => if char_eqb ignoreCase c x then k (S pos) s' caps else None
      | [] => None
      end
  | CharSet f =>
      match s with
      | x :: s' => if f x then k (S pos) s' caps else None
      | [] => None
      end
  | Seq r1 r2 =>
      rmatch r1 ignoreCase pos s caps
        (λ pos' s' caps', rmatch r2 ignoreCase pos' s' caps' k)
  | Alt r1 r2 =>
      match rmatch r1 ignoreCase pos s caps k with
      | Some x => Some x
      | None => rmatch r2 ignoreCase pos s caps k
      end
  | Star r1 => star_loop (rmatch r1 ignoreCase) k (length s) pos s caps
  | Group n r1 =>
      rmatch r1 ignoreCase pos s caps
        (λ pos' s' caps', k pos' s' ((n, take (pos' - pos) s) :: caps'))
  | Bos => if (pos =? 0)%nat then k pos s caps else None
  | Eos => match s with [] => k pos s caps | _ => None end
  end.

(** A match: where it starts, where it ends, what the groups captured. *)
Record match_result := mkMatch {
  m_start : nat;
  m_end : nat;
  m_caps : captures
}.

Definition match_at (r : regex) (ignoreCase : bool) (input : str) (start : nat)
    : option match_result :=
  rmatch r ignoreCase start (drop start input) []
    (λ e _ caps, Some (mkMatch start e caps)).

(** The scan of [RegExpBuiltinExec]: the first start position at or after
    [from] at which the pattern matches. *)
Fixpoint exec_from (r : regex) (ignoreCase : bool) (input : str)
    (fuel from : nat) : option match_result :=
  match match_at r ignoreCase input from with
  | Some m => Some m
  | None =>
      match fuel with
      | O => None
      | S fuel' => exec_from r ignoreCase input fuel' (S from)
      end
  end.

(** [s.match(/r/)], [/r/.exec(s)] without the [g] flag. *)
Definition exec (r : regex) (ignoreCase : bool) (input : str) : option match_result :=
  exec_from r ignoreCase input (length input) 0.

(** [/r/.test(s)]. *)
Definition test (r : regex) (ignoreCase : bool) (input : string) : bool :=
  bool_decide (is_Some (exec r ignoreCase (of_string input))).

Definition is_digit (c : ascii) : bool := in_range "0" "9" c.
Definition digit_val (c : ascii) : nat := nat_of_ascii c - 48.

(** [GetSubstitution]: expansion of [$$], [$&], [$`], [$'], [$n] and
    [$nn] in a replacement string; [ngroups] is the number of capture
    groups of the pattern. *)
Definition capture_text (caps : captures) (n : nat) : str :=
  default [] (get_capture caps n).

Fixpoint get_substitution (input : str) (ngroups : nat) (m : match_result)
    (tpl : str) : str :=
  match tpl with
  | [] => []
  | c :: t =>
      if Ascii.eqb c "$" then
        match t with
        | [] => [c]
        | d :: t' =>
            if Ascii.eqb d "$" then d :: get_substitution input ngroups m t'
            else if Ascii.eqb d "&" then
              take (m_end m - m_start m) (drop (m_start m) input)
                ++ get_substitution input ngroups m t'
            else if Ascii.eqb d "`" then
              take (m_start m) input ++ get_substitution input ngroups m t'
            else if Ascii.eqb d "'" then
              drop (m_end m) input ++ get_substitution input ngroups m t'
            else if is_digit d then
              let one := digit_val d in
              match t' with
              | d2 :: t'' =>
                  let two := (10 * one + digit_val d2)%nat in
                  if is_digit d2 && (1 <=? two)%nat && (two <=? ngroups)%nat then
                    capture_text (m_caps m) two
                      ++ get_substitution input ngroups m t''
                  else if (1 <=? one)%nat && (one <=? ngroups)%nat then
                    capture_text (m_caps m) one
                      ++ get_substitution input ngroups m t'
                  else c :: d :: get_substitution input ngroups m t'
              | [] =>
                  if (1 <=? one)%nat && (one <=? ngroups)%nat then
                    capture_text (m_caps m) one
                  else [c; d]
              end
            else c :: get_substitution input ngroups m t
        end
      else c :: get_substitution input ngroups m t
  end.

(** [s.replace(/r/, tpl)] without the [g] flag: the first match only. *)
Definition replace_first (r : regex) (ignoreCase : bool) (ngroups : nat)
    (tpl : string) (input : string) : string :=
  let s := of_string input in
  match exec r ignoreCase s with
  | Some m =>
      to_string (take (m_start m) s
                 ++ get_substitution s ngroups m (of_string tpl)
                 ++ drop (m_end m) s)
  | None => input
  end.

(** [s.replace(/r/g, tpl)]: every match, scanning left to right; after
    an empty match the scan moves on by one character. *)
Fixpoint replace_loop (r : regex) (ignoreCase : bool) (ngroups : nat)
    (tpl : str) (s : str) (fuel : nat) (lastIndex copied : nat) : str :=
  match fuel with
  | O => drop copied s
  | S fuel' =>
      if (length s <? lastIndex)%nat then drop copied s
      else
        match exec_from r ignoreCase s (length s - lastIndex) lastIndex with
        | Some m =>
            let next :=
              if (m_end m =? m_start m)%nat then S (m_end m) else m_end m in
            take (m_start m - copied) (drop copied s)
              ++ get_substitution s ngroups m tpl
              ++ replace_loop r ignoreCase ngroups tpl s fuel' next (m_end m)
        | None => drop copied s
        end
  end.

Definition replace_all (r : regex) (ignoreCase : bool) (ngroups : nat)
    (tpl : string) (input : string) : string :=
  let s := of_string input in
  to_string (replace_loop r ignoreCase ngroups (of_string tpl) s
               (S (length s)) 0 0).

(** [s.startsWith(p)], [s.endsWith(p)], [s.includes(p)]. *)
Fixpoint prefix_b (p s : str) : bool :=
  match p, s with
  | [], _ => true
  | a :: p', b :: s' => Ascii.eqb a b && prefix_b p' s'
  | _ :: _, [] => false
  end.

Definition startsWith (s p : string) : bool :=
  prefix_b (of_string p) (of_string s).

Definition endsWith (s p : string) : bool :=
  prefix_b (rev (of_string p)) (rev (of_string s)).

(** [s.includes(p)]. *)
Fixpoint includes_chars (p s : str) : bool :=
  prefix_b p s
  || match s with
     | [] => false
     | _ :: s' => includes_chars p s'
     end.

Definition includes (s p : string) : bool :=
  includes_chars (of_string p) (of_string s).

(** [s.lastIndexOf(p)]: the greatest position at which [p] occurs;
    [None] is the result -1.  The scan goes down from position [i]. *)
Fixpoint last_index_from (p s : str) (i : nat) : option nat :=
  if prefix_b p (drop i s) then Some i
  else match i with
       | O => None
       | S i' => last_index_from p s i'
       end.

Definition lastIndexOf (s p : string) : option nat :=
  last_index_from (of_string p) (of_string s) (length (of_string s)).

(** [s.slice(0, i)] and [s.slice(i)] for a position [i] in the string. *)
Definition slice_to (i : nat) (s : string) : string := to_string (take i (of_string s)).
Definition slice_from (i : nat) (s : string) : string := to_string (drop i (of_string s)).

(** [s.split(sep)[0]] for a one-character separator. *)
Fixpoint before_char (sep : ascii) (s : str) : str :=
  match s with
  | [] => []
  | c :: s' => if Ascii.eqb c sep then [] else c :: before_char sep s'
  end.

(** [s.split(sep)] for a one-character separator. *)
Fixpoint split_char (sep : ascii) (s : str) : list str :=
  match s with
  | [] => [[]]
  | c :: s' =>
      if Ascii.eqb c sep then [] :: split_char sep s'
      else
        match split_char sep s' with
        | seg :: segs => (c :: seg) :: segs
        | [] => [[c]]
        end
  end.

End JsRegex.

(** ** src/dev/route-inference.ts *)

Module RouteInference.
Import JsRegex.

(** The script extension [tsx?|jsx?] as capture group [n]. *)
Definition script_ext (n : nat) : regex :=
  Group n (Alt (Seq (lit "ts") (Opt (Chr "x"))) (Seq (lit "js") (Opt (Chr "x")))).

(** [dir], then any run of characters as group 1, a dot, the script
    extension as group 2 and the end of the input. *)
Definition under (dir : regex) : regex :=
  Seq dir (Seq (Group 1 (Star dot)) (Seq (Chr ".") (Seq (script_ext 2) Eos))).

(** ["app/"], any run as group 1, ["/"], [name], a dot, the script
    extension as group 2 and the end of the input. *)
Definition app_file (name : string) : regex :=
  Seq (lit "app/")
    (Seq (Group 1 (Star dot))
       (Seq (Chr "/") (Seq (lit name) (Seq (Chr ".") (Seq (script_ext 2) Eos))))).

Record pattern := mkPattern {
  filePattern : regex;
  ignoreCase : bool;
  routeTemplate : string
}.

Record RouteMapping := mkMapping {
  patterns : list pattern;
  basePath : string
}.

Definition DEFAULT_ROUTE_PATTERNS : list pattern :=
  [ mkPattern (under (lit "pages/")) true "/$1";
    mkPattern (under (lit "routes/")) true "/$1";
    mkPattern (app_file "page") true "/$1";
    mkPattern (app_file "layout") true "/$1";
    mkPattern
      (under (Seq (Alt (Seq (lit "component") (Opt (Chr "s")))
                     (Alt (Seq (lit "page") (Opt (Chr "s")))
                          (Seq (lit "route") (Opt (Chr "s")))))
                (Chr "/")))
      true "/$1" ].

(** [new RouteInferrer()] with no mapping given. *)
Definition default_mapping : RouteMapping := mkMapping DEFAULT_ROUTE_PATTERNS "".

(** [s.replace(p, "")] with a string pattern: the first occurrence. *)
Fixpoint remove_first_occurrence (p s : str) : str :=
  if prefix_b p s then drop (length p) s
  else match s with
       | [] => []
       | c :: s' => c :: remove_first_occurrence p s'
       end.

Definition normalizePath (mapping : RouteMapping) (filePath : string) : string :=
  let normalized :=
    if truthy (basePath mapping) then
      to_string (remove_first_occurrence (of_string (basePath mapping))
                                         (of_string filePath))
    else filePath in
  let normalized := replace_all (Chr "\") false 0 "/" normalized in
  replace_first (Seq Bos (Chr "/")) false 0 "" normalized.

(** The five rewrites of [processDynamicRoute], in source order. *)
Definition erase_groups : string → string :=
  replace_all (Seq (Chr "(") (Seq (Plus (not_char ")")) (Seq (Chr ")") (Chr "/"))))
              false 0 "".

Definition rewrite_optional_catch_all : string → string :=
  replace_all (Seq (lit "[[...") (Seq (Group 1 (Plus word)) (lit "]]"))) false 1 "*".

Definition rewrite_optional_param : string → string :=
  replace_all (Seq (lit "[[") (Seq (Group 1 (Plus word)) (lit "]]"))) false 1 ":$1?".

Definition rewrite_catch_all : string → string :=
  replace_all (Seq (lit "[...") (Seq (Group 1 (Plus word)) (Chr "]"))) false 1 "*".

Definition rewrite_param : string → string :=
  replace_all (Seq (Chr "[") (Seq (Group 1 (Plus word)) (Chr "]"))) false 1 ":$1".

Definition processDynamicRoute (route : string) : string :=
  let route := erase_groups route in
  let route := rewrite_optional_catch_all route in
  let route := rewrite_optional_param route in
  let route := rewrite_catch_all route in
  let route := rewrite_param route in
  route.

Definition normalizeRoute (route : string) : string :=
  let route := replace_first (Seq (lit "/index") Eos) true 0 "/" route in
  let route := if startsWith route "/" then route else "/" +:+ route in
  let route :=
    if negb (String.eqb route "/") && endsWith route "/"
    then to_string (removelast (of_string route))
    else route in
  replace_all (Plus (Chr "/")) false 0 "/" route.

(** The [for] loop of [inferRoute] over the patterns. *)
Fixpoint inferRoute_loop (ps : list pattern) (normalizedPath : string)
    : option string :=
  match ps with
  | [] => None
  | p :: ps' =>
      match exec (filePattern p) (ignoreCase p) (of_string normalizedPath) with
      | Some m =>
          let pathPart := to_string (capture_text (m_caps m) 1) in
          let route := replace_all (lit "$1") false 0 pathPart (routeTemplate p) in
          let route := processDynamicRoute route in
          let route := normalizeRoute route in
          Some route
      | None => inferRoute_loop ps' normalizedPath
      end
  end.

Definition inferRoute (mapping : RouteMapping) (filePath : string) : option string :=
  inferRoute_loop (patterns mapping) (normalizePath mapping filePath).

Definition isLayoutFile (mapping : RouteMapping) (filePath : string) : bool :=
  let normalizedPath := normalizePath mapping filePath in
  test (Seq (lit "layout.") (Seq (script_ext 1) Eos)) true normalizedPath
  || test (Seq (lit "_layout.") (Seq (script_ext 1) Eos)) true normalizedPath
  || test (Seq (lit "app/")
             (Seq (Star dot) (Seq (lit "/layout.") (Seq (script_ext 1) Eos))))
          true normalizedPath.

Definition isPageFile (mapping : RouteMapping) (filePath : string) : bool :=
  let normalizedPath := normalizePath mapping filePath in
  test (Seq (lit "page.") (Seq (script_ext 1) Eos)) true normalizedPath
  || (test (Seq (Alt (Seq (lit "page") (Opt (Chr "s")))
                     (Seq (lit "route") (Opt (Chr "s"))))
              (Seq (Chr "/")
                 (Seq (Star dot) (Seq (Chr ".") (Seq (script_ext 1) Eos)))))
           true normalizedPath
      && negb (isLayoutFile mapping filePath)).

Definition isComponentFile (mapping : RouteMapping) (filePath : string) : bool :=
  let normalizedPath := normalizePath mapping filePath in
  test (Seq (lit "component")
          (Seq (Opt (Chr "s"))
             (Seq (Chr "/")
                (Seq (Star dot) (Seq (Chr ".") (Seq (script_ext 1) Eos))))))
       true normalizedPath
  && negb (isLayoutFile mapping filePath)
  && negb (isPageFile mapping filePath).

End RouteInference.

(** ** src/dev/performance-monitor.ts

    [performance.now()] is an input of the two operations that read the
    clock. *)

Module PerformanceMonitor.

Record PerformanceMetrics := mkMetrics {
  startTime : float;
  endTime : option float;
  duration : option float;
  moduleCount : nat;
  filePaths : list string;
  updateType : string;
  success : bool;
  error : option string
}.

Record PerformanceStats := mkStats {
  totalUpdates : nat;
  successfulUpdates : nat;
  failedUpdates : nat;
  averageDuration : float;
  maxDuration : float;
  minDuration : float;
  totalDuration : float
}.

Record HMRPerformanceMonitor := mkMonitor {
  metrics : list PerformanceMetrics;
  currentUpdate : option PerformanceMetrics
}.

Definition maxMetrics : nat := 100.

(** [createPerformanceMonitor()]. *)
Definition create : HMRPerformanceMonitor := mkMonitor [] None.

Definition startUpdate (now : float) (paths : list string) (type : string)
    (mon : HMRPerformanceMonitor) : HMRPerformanceMonitor :=
  mkMonitor (metrics mon)
    (Some (mkMetrics now None None (length paths) paths type false None)).

(** [if (error) this.currentUpdate.error = error]. *)
Definition set_error (err : option string) (old : option string) : option string :=
  match err with
  | Some e => if truthy e then Some e else old
  | None => old
  end.

(** [Array.prototype.shift]. *)
Definition shift {A} (l : list A) : list A := drop 1 l.

Definition endUpdate (now : float) (ok : bool) (err : option string)
    (mon : HMRPerformanceMonitor) : HMRPerformanceMonitor :=
  match currentUpdate mon with
  | None => mon
  | Some cur =>
      let closed :=
        mkMetrics (startTime cur) (Some now) (Some (now - startTime cur)%float)
          (moduleCount cur) (filePaths cur) (updateType cur) ok
          (set_error err (error cur)) in
      let pushed := metrics mon ++ [closed] in
      let kept :=
        if (maxMetrics <? length pushed)%nat then shift pushed else pushed in
      mkMonitor kept None
  end.

(** Truthiness of [m.duration]: set, and a number other than 0, -0 and
    NaN. *)
Definition duration_truthy (d : option float) : bool :=
  match d with
  | Some q => negb (PrimFloat.is_zero q || PrimFloat.is_nan q)
  | None => false
  end.

Definition counts_as_successful (m : PerformanceMetrics) : bool :=
  success m && duration_truthy (duration m).

(** [durations.reduce((a, b) => a + b, 0)]: from the left. *)
Definition sum (ds : list float) : float := foldl PrimFloat.add 0%float ds.

(** One round of the loop of [Math.max]: NaN wins, [+0] is above [-0]. *)
Definition max_step (highest number : float) : float :=
  if PrimFloat.is_nan highest then highest
  else if PrimFloat.is_nan number then number
  else
    match PrimFloat.classify number, PrimFloat.classify highest with
    | FloatClass.PZero, FloatClass.NZero => number
    | _, _ => if (highest <? number)%float then number else highest
    end.

(** One round of the loop of [Math.min]: NaN wins, [-0] is below [+0]. *)
Definition min_step (lowest number : float) : float :=
  if PrimFloat.is_nan lowest then lowest
  else if PrimFloat.is_nan number then number
  else
    match PrimFloat.classify number, PrimFloat.classify lowest with
    | FloatClass.NZero, FloatClass.PZero => number
    | _, _ => if (number <? lowest)%float then number else lowest
    end.

(** [Math.max(...ds)] and [Math.min(...ds)]. *)
Definition maximum (ds : list float) : float := foldl max_step neg_infinity ds.
Definition minimum (ds : list float) : float := foldl min_step infinity ds.

(** [durations.length] as a number; the length of an array is below
    2^32. *)
Definition number_of_nat (n : nat) : float :=
  PrimFloat.of_uint63 (Uint63.of_Z (Z.of_nat n)).

Definition getStats (mon : HMRPerformanceMonitor) : PerformanceStats :=
  let successfulMetrics := List.filter counts_as_successful (metrics mon) in
  let durations := map (λ m, default 0%float (duration m)) successfulMetrics in
  let nonempty := (0 <? length durations)%nat in
  mkStats
    (length (metrics mon))
    (length successfulMetrics)
    (length (metrics mon) - length successfulMetrics)
    (if nonempty then (sum durations / number_of_nat (length durations))%float
     else 0%float)
    (if nonempty then maximum durations else 0%float)
    (if nonempty then minimum durations else 0%float)
    (sum durations).

(** [getRecentMetrics(count)]: [slice(-count).reverse()] for a count that
    is a natural number.  [slice(-0)] is [slice(0)], the whole array. *)
Definition getRecentMetrics (count : nat) (mon : HMRPerformanceMonitor)
    : list PerformanceMetrics :=
  let start :=
    match count with
    | O => 0%nat
    | S _ => (length (metrics mon) - count)%nat
    end in
  reverse (drop start (metrics mon)).

Definition clear (mon : HMRPerformanceMonitor) : HMRPerformanceMonitor := create.

(** One [startUpdate]/[endUpdate] cycle and the parameters it is run with. *)
Record cycle := mkCycle {
  c_start : float;
  c_end : float;
  c_paths : list string;
  c_type : string;
  c_success : bool;
  c_error : option string
}.

Definition run_cycle (mon : HMRPerformanceMonitor) (c : cycle)
    : HMRPerformanceMonitor :=
  endUpdate (c_end c) (c_success c) (c_error c)
    (startUpdate (c_start c) (c_paths c) (c_type c) mon).

(** The sample that a cycle leaves in the buffer. *)
Definition sample_of (c : cycle) : PerformanceMetrics :=
  mkMetrics (c_start c) (Some (c_end c)) (Some (c_end c - c_start c)%float)
    (length (c_paths c)) (c_paths c) (c_type c) (c_success c)
    (set_error (c_error c) None).

Definition run_cycles (cs : list cycle) : HMRPerformanceMonitor :=
  foldl run_cycle create cs.

(** The calls that change a recorder, in any order. *)
Inductive call :=
| StartUpdate (now : float) (paths : list string) (type : string)
| EndUpdate (now : float) (ok : bool) (err : option string)
| Clear.

Definition apply_call (mon : HMRPerformanceMonitor) (c : call)
    : HMRPerformanceMonitor :=
  match c with
  | StartUpdate now paths type => startUpdate now paths type mon
  | EndUpdate now ok err => endUpdate now ok err mon
  | Clear => clear mon
  end.

Definition run_calls (cs : list call) : HMRPerformanceMonitor :=
  foldl apply_call create cs.

Definition is_start (c : call) : bool :=
  match c with StartUpdate _ _ _ => true | _ => false end.

End PerformanceMonitor.

(** ** src/dev/dev-tools.ts: the change orchestrator *)

Module DevTools.
Import JsRegex.

Record file := mkFile { f_path : string; f_contents : option string }.

(** What [rebuild] resolves with. *)
Record BuildResult := mkBuildResult {
  outputFiles : option (list file);
  chunkUrl : option string;
  routePath : option string
}.

(** What [rebuild] rejects with: an [Error] with its message, or any
    other value with its [String(...)] conversion. *)
Inductive rejection :=
| ErrorObject (message : string)
| OtherValue (as_string : string).

(** [error instanceof Error ? error.message : String(error)]. *)
Definition error_text (e : rejection) : string :=
  match e with ErrorObject m => m | OtherValue s => s end.

(** The object handed to [broadcast]; a property that is [undefined] is
    [None]. *)
Record UpdateMessage := mkMessage {
  type : string;
  path : option string;
  files : option (list file);
  route : option string;
  moduleId : option string;
  affectedModules : option (list string);
  um_chunkUrl : option string;
  um_routePath : option string;
  componentPath : option string;
  layoutPath : option string;
  message : option string
}.

Record DevTools := mkDevTools {
  builder : bool;                        (* is [config.builder] set *)
  moduleGraph : ModuleGraph.ModuleGraph;
  performanceMonitor : PerformanceMonitor.HMRPerformanceMonitor;
  rebuildTimers : gset string;           (* paths with a pending timer *)
  broadcasts : list UpdateMessage        (* messages sent so far, oldest first *)
}.

Definition routeInferrer : RouteInference.RouteMapping :=
  RouteInference.default_mapping.

(** [wsManager.broadcast(message)]. *)
Definition broadcast (msg : UpdateMessage) (dt : DevTools) : DevTools :=
  mkDevTools (builder dt) (moduleGraph dt) (performanceMonitor dt)
    (rebuildTimers dt) (broadcasts dt ++ [msg]).

Definition with_monitor (mon : PerformanceMonitor.HMRPerformanceMonitor)
    (dt : DevTools) : DevTools :=
  mkDevTools (builder dt) (moduleGraph dt) mon (rebuildTimers dt) (broadcasts dt).

Definition delete_timer (p : string) (dt : DevTools) : DevTools :=
  mkDevTools (builder dt) (moduleGraph dt) (performanceMonitor dt)
    (rebuildTimers dt ∖ {[p]}) (broadcasts dt).

(** A pattern of [isConfigFile]: [name], a dot, one of [exts], the end. *)
Definition config_pattern (name : string) (exts : regex) : regex :=
  Seq (lit name) (Seq (Chr ".") (Seq (Group 1 exts) Eos)).

Definition ts_or_js : regex := Alt (lit "ts") (lit "js").

Definition isConfigFile (filePath : string) : bool :=
  existsb (λ r, test r true filePath)
    [ Seq (lit "deno.json") Eos;
      Seq (lit "package.json") Eos;
      Seq (lit "tsconfig.json") Eos;
      config_pattern "vite.config" ts_or_js;
      config_pattern "webpack.config" ts_or_js;
      config_pattern "rollup.config" ts_or_js;
      config_pattern "esbuild.config" ts_or_js;
      config_pattern "tailwind.config" ts_or_js;
      config_pattern ".config" (Alt (lit "ts") (Alt (lit "js") (lit "json"))) ].

Definition determineUpdateType (filePath : string) : string :=
  if isConfigFile filePath then "config-update"
  else if endsWith filePath ".css" then "css-update"
  else if RouteInference.isLayoutFile routeInferrer filePath then "layout-update"
  else if RouteInference.isPageFile routeInferrer filePath then "component-update"
  else if RouteInference.isComponentFile routeInferrer filePath then "component-update"
  else if test (Seq (Chr ".")
                  (Seq (Group 1 (Alt (lit "ts")
                                  (Alt (lit "js")
                                     (Alt (lit "mjs") (Alt (lit "tsx") (lit "jsx"))))))
                       Eos))
               false filePath
       then "module-update"
  else "update".

(** [route || "/"]. *)
Definition inferRouteFromPath (filePath : string) : string :=
  match RouteInference.inferRoute routeInferrer filePath with
  | Some route => if truthy route then route else "/"
  | None => "/"
  end.

Definition set_type (v : string) (m : UpdateMessage) : UpdateMessage :=
  mkMessage v (path m) (files m) (route m) (moduleId m) (affectedModules m)
    (um_chunkUrl m) (um_routePath m) (componentPath m) (layoutPath m) (message m).

Definition set_componentPath (v : string) (m : UpdateMessage) : UpdateMessage :=
  mkMessage (type m) (path m) (files m) (route m) (moduleId m) (affectedModules m)
    (um_chunkUrl m) (um_routePath m) (Some v) (layoutPath m) (message m).

Definition set_layoutPath (v : string) (m : UpdateMessage) : UpdateMessage :=
  mkMessage (type m) (path m) (files m) (route m) (moduleId m) (affectedModules m)
    (um_chunkUrl m) (um_routePath m) (componentPath m) (Some v) (message m).

Definition set_moduleId (v : string) (m : UpdateMessage) : UpdateMessage :=
  mkMessage (type m) (path m) (files m) (route m) (Some v) (affectedModules m)
    (um_chunkUrl m) (um_routePath m) (componentPath m) (layoutPath m) (message m).

(** The message that the [then] callback of [runRebuildForPath] builds. *)
Definition buildUpdateMessage (dt : DevTools) (p updateType : string)
    (result : BuildResult) : UpdateMessage :=
  let inferred := inferRouteFromPath p in
  let affected := ModuleGraph.getAffectedModules (moduleGraph dt) p in
  let mid := ModuleGraph.getModuleId (moduleGraph dt) p in
  let updateMessage :=
    mkMessage updateType (Some p) (outputFiles result) (Some inferred) mid
      (Some affected) (chunkUrl result) (routePath result) None None None in
  if String.eqb updateType "config-update" then set_type "reload" updateMessage
  else if String.eqb updateType "component-update" then set_componentPath p updateMessage
  else if String.eqb updateType "layout-update" then set_layoutPath p updateMessage
  else if String.eqb updateType "module-update" then set_moduleId p updateMessage
  else updateMessage.

Definition errorMessage (text : string) : UpdateMessage :=
  mkMessage "error" None None None None None None None None None (Some text).

(** [runRebuildForPath] up to the call of [rebuild]; [true] in the
    result means that a rebuild is now pending. *)
Definition runRebuildForPath_begin (now : float) (p updateType : string)
    (dt : DevTools) : DevTools * bool :=
  let dt := delete_timer p dt in
  if negb (builder dt) then
    let inferred := inferRouteFromPath p in
    (broadcast
       (mkMessage (if String.eqb updateType "css-update" then "css-update" else "reload")
          (Some p) None (Some inferred) None None None None None None None) dt,
     false)
  else
    (with_monitor
       (PerformanceMonitor.startUpdate now [p] updateType (performanceMonitor dt)) dt,
     true).

(** The body of the [then] callback: [rebuild] resolved with [result]. *)
Definition rebuild_resolved (now : float) (p updateType : string)
    (result : BuildResult) (dt : DevTools) : DevTools :=
  let dt := broadcast (buildUpdateMessage dt p updateType result) dt in
  with_monitor (PerformanceMonitor.endUpdate now true None (performanceMonitor dt)) dt.

(** The body of the [catch] callback: the promise before it rejected
    with [e]. *)
Definition rebuild_rejected (now : float) (e : rejection) (dt : DevTools) : DevTools :=
  let dt := broadcast (errorMessage (error_text e)) dt in
  with_monitor
    (PerformanceMonitor.endUpdate now false (Some (error_text e))
       (performanceMonitor dt)) dt.

(** How a callback ends: it returns, or it throws. *)
Inductive completion :=
| Returns
| Throws (e : rejection).

(** A promise that has settled; the chain has no use for the value of a
    fulfilled one. *)
Inductive settled :=
| Fulfilled
| Rejected (e : rejection).

Definition settle (c : completion) : settled :=
  match c with
  | Returns => Fulfilled
  | Throws e => Rejected e
  end.

(** [promise.then(onFulfilled)] once [promise] has settled with [p].  On
    a value the callback runs, and the new promise is fulfilled when the
    callback returns and rejected with what it throws.  A rejection goes
    on to the new promise and the callback does not run. *)
Definition then_ {A : Type} (onFulfilled : A → DevTools → DevTools * completion)
    (p : rejection + A) (dt : DevTools) : DevTools * settled :=
  match p with
  | inr value =>
      let '(dt', c) := onFulfilled value dt in (dt', settle c)
  | inl e => (dt, Rejected e)
  end.

(** [promise.catch(onRejected)] once [promise] has settled with [p]. *)
Definition catch_ (onRejected : rejection → DevTools → DevTools * completion)
    (p : settled) (dt : DevTools) : DevTools * settled :=
  match p with
  | Fulfilled => (dt, Fulfilled)
  | Rejected e =>
      let '(dt', c) := onRejected e dt in (dt', settle c)
  end.

(** The two callbacks of [runRebuildForPath].  Both run to their end:
    [broadcast] catches what [send] throws, and nothing else in their
    bodies throws. *)
Definition onFulfilled (now : float) (p updateType : string)
    (result : BuildResult) (dt : DevTools) : DevTools * completion :=
  (rebuild_resolved now p updateType result dt, Returns).

Definition onRejected (now : float) (e : rejection) (dt : DevTools)
    : DevTools * completion :=
  (rebuild_rejected now e dt, Returns).

(** The chain [rebuild(...).then(...).catch(...)] once [rebuild] has
    settled with [outcome]. *)
Definition rebuild_settled (now : float) (p updateType : string)
    (outcome : rejection + BuildResult) (dt : DevTools) : DevTools * settled :=
  let '(dt1, afterThen) := then_ (onFulfilled now p updateType) outcome dt in
  catch_ (onRejected now) afterThen dt1.

(** A whole cycle for one path: [runRebuildForPath] is called at [t0] and
    the rebuild settles at [t1] with [outcome].  There is no chain when no
    builder is configured. *)
Definition runRebuildForPath (t0 t1 : float) (p updateType : string)
    (outcome : rejection + BuildResult) (dt : DevTools)
    : DevTools * option settled :=
  let '(dt1, pending) := runRebuildForPath_begin t0 p updateType dt in
  if pending then
    let '(dt2, chain) := rebuild_settled t1 p updateType outcome dt1 in
    (dt2, Some chain)
  else (dt1, None).

(** The timer callback of the watch loop for a change of [p]; the update
    type was computed from the path when the event came in. *)
Definition onDebounced (t0 t1 : float) (p : string)
    (outcome : rejection + BuildResult) (dt : DevTools)
    : DevTools * option settled :=
  runRebuildForPath t0 t1 p (determineUpdateType p) outcome (delete_timer p dt).

End DevTools.

(** ** src/dev/hmr-browser.ts: the browser client *)

Module HmrBrowser.
Import JsRegex.

Record file := mkFile { f_path : string; f_contents : option string }.

(** A parsed message.  [type] is whatever string the server sent. *)
Record HMRMessage := mkMsg {
  type : string;
  path : option string;
  files : option (list file);
  message : option string;
  moduleId : option string;
  componentPath : option string;
  layoutPath : option string;
  route : option string
}.

(** Truthiness of an optional string property. *)
Definition present (o : option string) : bool :=
  match o with Some s => truthy s | None => false end.

(** The entries of the table [priority]. *)
Definition own_priority (t : string) : option nat :=
  if String.eqb t "reload" then Some 0
  else if String.eqb t "error" then Some 1
  else if String.eqb t "css-update" then Some 2
  else if String.eqb t "component-update" then Some 3
  else if String.eqb t "layout-update" then Some 4
  else if String.eqb t "module-update" then Some 5
  else if String.eqb t "update" then Some 6
  else None.

(** The names of the properties that the table, an object literal,
    inherits from [Object.prototype] in a browser.  Their values are
    functions and, for [__proto__], an object. *)
Definition inherited (t : string) : bool :=
  existsb (String.eqb t)
    [ "constructor"; "hasOwnProperty"; "isPrototypeOf"; "propertyIsEnumerable";
      "toLocaleString"; "toString"; "valueOf";
      "__defineGetter__"; "__defineSetter__"; "__lookupGetter__";
      "__lookupSetter__"; "__proto__" ].

(** [priority[type] ?? 999]: the entry of the table, 999 for a name that
    the table has no property for, and for an inherited name a value that
    is no number, [None]. *)
Definition priority (t : string) : option nat :=
  match own_priority t with
  | Some n => Some n
  | None => if inherited t then None else Some 999
  end.

(** The comparator [(a, b) => aPriority - bPriority]; [None] is NaN,
    which is what a function or an object gives in a subtraction. *)
Definition comparator (a b : HMRMessage) : option Z :=
  match priority (type a), priority (type b) with
  | Some aPriority, Some bPriority => Some (Z.of_nat aPriority - Z.of_nat bPriority)%Z
  | _, _ => None
  end.

(** What the sort makes of the comparator (SortCompare): NaN is read as
    +0.  [sorts_before a b]: the result for [a] and [b] is not above 0. *)
Definition sorts_before (a b : HMRMessage) : bool :=
  match comparator a b with
  | Some v => (v <=? 0)%Z
  | None => true
  end.

(** The stable sort by [sorts_before]. *)
Fixpoint insert_by_priority (m : HMRMessage) (l : list HMRMessage)
    : list HMRMessage :=
  match l with
  | [] => [m]
  | x :: l' =>
      if sorts_before m x then m :: x :: l'
      else x :: insert_by_priority m l'
  end.

Definition stable_sort (l : list HMRMessage) : list HMRMessage :=
  foldr insert_by_priority [] l.

(** Is the comparator, with NaN read as +0, a consistent comparator for
    the messages of [l]?  It is when every priority is a number.  A
    message whose priority is no number compares equal to every message,
    so with such a message in [l] the comparator is consistent only when
    the priorities that are numbers are all the same. *)
Definition consistent (l : list HMRMessage) : bool :=
  forallb (λ m, bool_decide (is_Some (priority (type m)))) l
  || match omap (λ m, priority (type m)) l with
     | [] => true
     | n :: ns => forallb (Nat.eqb n) ns
     end.

(** [messages.sort((a, b) => priority(a) - priority(b))].  The sort of
    the language standard is stable, and with a consistent comparator it
    has one result.  With any other comparator the order is up to the
    engine: [engineSort] is what the engine of the page makes of the
    array then. *)
Definition sort_by_priority (engineSort : list HMRMessage → list HMRMessage)
    (l : list HMRMessage) : list HMRMessage :=
  if consistent l then stable_sort l else engineSort l.

(** The three accumulators of the [for (const msg of messages)] loop. *)
Definition collect_paths (ms : list HMRMessage) : list string :=
  foldl (λ acc m, match path m with
                  | Some p => if truthy p then JsSet.add p acc else acc
                  | None => acc
                  end) [] ms.

Definition collect_files (ms : list HMRMessage) : list file :=
  foldl (λ acc m, match files m with
                  | Some fs => acc ++ fs
                  | None => acc
                  end) [] ms.

Definition collect_routes (ms : list HMRMessage) : list string :=
  foldl (λ acc m, match route m with
                  | Some r => if truthy r then JsSet.add r acc else acc
                  | None => acc
                  end) [] ms.

(** [Array.from(set)[0] || fallback]. *)
Definition first_or (s : list string) (fallback : option string) : option string :=
  match s with
  | x :: _ => Some x
  | [] => fallback
  end.

(** [mergeUpdates]; [None] is the exception thrown for an empty list.
    [sort] works in place, so the loop that follows it runs over the
    sorted array. *)
Definition mergeUpdates (engineSort : list HMRMessage → list HMRMessage)
    (messages : list HMRMessage) : option HMRMessage :=
  match messages with
  | [] => None
  | [m] => Some m
  | _ =>
      let sortedMessages := sort_by_priority engineSort messages in
      match sortedMessages with
      | [] => None
      | primaryMessage :: _ =>
          let allPaths := collect_paths sortedMessages in
          let allFiles := collect_files sortedMessages in
          let allRoutes := collect_routes sortedMessages in
          Some (mkMsg (type primaryMessage)
                  (first_or allPaths (path primaryMessage))
                  (if (0 <? length allFiles)%nat then Some allFiles
                   else files primaryMessage)
                  (message primaryMessage)
                  (moduleId primaryMessage)
                  (componentPath primaryMessage)
                  (layoutPath primaryMessage)
                  (first_or allRoutes (route primaryMessage)))
      end
  end.

(** What the page offers to the client. *)
Record env := mkEnv {
  renderDataUrl : option string;  (* [__RENDER_DATA__.loadContext.url], if any *)
  locationPathname : string;
  moduleHot : bool;               (* [module.hot] is there *)
  viteHmr : bool                  (* the Vite preamble is installed *)
}.

(** [s.split("?")[0].split("#")[0]]. *)
Definition strip_query_and_hash (s : string) : string :=
  to_string (before_char "#" (before_char "?" (of_string s))).

Definition normalizeRoute (route : string) : string :=
  if negb (truthy route) then "/"
  else
    let path := strip_query_and_hash route in
    let normalized := if startsWith path "/" then path else "/" +:+ path in
    if String.eqb normalized "/" then "/"
    else replace_first (Seq (Chr "/") Eos) false 0 "" normalized.

(** [s.split("/").filter(Boolean)]. *)
Definition segments (s : string) : list string :=
  List.filter truthy (map to_string (split_char "/" (of_string s))).

(** The [for] loop of [isCurrentRoute] over segments of equal number. *)
Fixpoint compare_segments (routeSegments currentSegments : list string) : bool :=
  match routeSegments, currentSegments with
  | routeSegment :: rs, currentSegment :: cs =>
      if startsWith routeSegment ":" || String.eqb routeSegment "*"
      then compare_segments rs cs
      else if negb (String.eqb routeSegment currentSegment) then false
      else compare_segments rs cs
  | _, _ => true
  end.

(** The second half of [isCurrentRoute]: comparison with the location path. *)
Definition matchesLocation (currentPath route : string) : bool :=
  let normalizedCurrentPath := normalizeRoute currentPath in
  let normalizedRoute := normalizeRoute route in
  if String.eqb normalizedCurrentPath normalizedRoute then true
  else
    let currentSegments := segments normalizedCurrentPath in
    let routeSegments := segments normalizedRoute in
    if negb (length currentSegments =? length routeSegments)%nat then false
    else compare_segments routeSegments currentSegments.

Definition isCurrentRoute (e : env) (route : string) : bool :=
  match renderDataUrl e with
  | Some url =>
      if truthy url then
        let currentPath := strip_query_and_hash url in
        String.eqb (normalizeRoute currentPath) (normalizeRoute route)
      else matchesLocation (locationPathname e) route
  | None => matchesLocation (locationPathname e) route
  end.

(** What the client does with an update. *)
Inductive outcome :=
| Dropped                 (* route mismatch: the update is skipped *)
| HotAccepted             (* [module.hot.accept] *)
| LeftToVite
| ModulesLoaded (fs : list file)
| ComponentRerendered     (* [reloadComponentOrLayout] *)
| PageReloaded            (* [location.reload()] *)
| StylesheetRefreshed (p : string)
| NothingDone             (* a css-update without a path *)
| UnknownType.

Definition handleUpdate (e : env) (m : HMRMessage) : outcome :=
  if present (route m) && negb (isCurrentRoute e (default "" (route m))) then Dropped
  else if moduleHot e then HotAccepted
  else if viteHmr e then LeftToVite
  else
    match files m with
    | Some (f :: fs) => ModulesLoaded (f :: fs)
    | _ =>
        if present (componentPath m) || present (layoutPath m)
        then ComponentRerendered
        else PageReloaded
    end.

Definition handleCSSUpdate (m : HMRMessage) : outcome :=
  match path m with
  | Some p => if truthy p then StylesheetRefreshed p else NothingDone
  | None => NothingDone
  end.

(** [doSeamlessUpdate]: a reload of the whole page. *)
Definition doSeamlessUpdate : outcome := PageReloaded.

Definition handleMergedUpdate (e : env) (m : HMRMessage) : outcome :=
  if String.eqb (type m) "update" then handleUpdate e m
  else if String.eqb (type m) "css-update" then handleCSSUpdate m
  else if String.eqb (type m) "component-update" then doSeamlessUpdate
  else if String.eqb (type m) "layout-update" then doSeamlessUpdate
  else if String.eqb (type m) "module-update" then doSeamlessUpdate
  else UnknownType.

(** The part of the client state that the connection and the queue use.
    [reconnectTimer] is the delay of the pending reconnect timer. *)
Record HMRClient := mkClient {
  reconnectAttempts : nat;
  reconnectDelay : Q;
  reconnectTimer : option Q;
  updateQueue : list HMRMessage
}.

Definition maxReconnectAttempts : nat := 10.
Definition maxReconnectDelay : Q := 30000.
Definition reconnectDelayMultiplier : Q := 3 # 2.

(** [new HMRClient(wsUrl)]. *)
Definition create : HMRClient := mkClient 0 1000 None [].

(** [ws.onopen]. *)
Definition onopen (c : HMRClient) : HMRClient :=
  mkClient 0 1000 (reconnectTimer c) (updateQueue c).

(** [Math.pow(m, k)] for a counter [k]. *)
Definition pow (m : Q) (k : nat) : Q := Qpower m (Z.of_nat k).

Definition scheduleReconnect (c : HMRClient) : HMRClient :=
  (* clearTimeout of a pending timer *)
  if (reconnectAttempts c <? maxReconnectAttempts)%nat then
    let attempts := S (reconnectAttempts c) in
    let delay :=
      Qmin (reconnectDelay c * pow reconnectDelayMultiplier (attempts - 1))
           maxReconnectDelay in
    mkClient attempts (reconnectDelay c) (Some delay) (updateQueue c)
  else
    mkClient 0 1000 None (updateQueue c).

(** [ws.onclose], and the [catch] of [connect]. *)
Definition onclose (c : HMRClient) : HMRClient := scheduleReconnect c.

(** The reconnect timer fires and [connect] runs. *)
Definition timer_fired (c : HMRClient) : HMRClient :=
  mkClient (reconnectAttempts c) (reconnectDelay c) None (updateQueue c).

(** [n] connection attempts in a row that fail. *)
Definition fail_times (n : nat) (c : HMRClient) : HMRClient :=
  Nat.iter n (λ c, onclose (timer_fired c)) c.

Definition addToQueue (m : HMRMessage) (c : HMRClient) : HMRClient :=
  mkClient (reconnectAttempts c) (reconnectDelay c) (reconnectTimer c)
    (updateQueue c ++ [m]).

(** [handleMessage]: [reload] and [error] are handled at once, the rest
    is queued. *)
Definition handleMessage (m : HMRMessage) (c : HMRClient) : HMRClient * option outcome :=
  if String.eqb (type m) "reload" then (c, Some PageReloaded)
  else if String.eqb (type m) "error" then (c, Some NothingDone)
  else (addToQueue m c, None).

(** [processQueue]: the batching timer fired. *)
Definition processQueue (engineSort : list HMRMessage → list HMRMessage)
    (e : env) (c : HMRClient) : HMRClient * option outcome :=
  match updateQueue c with
  | [] => (c, None)
  | q =>
      let merged := mergeUpdates engineSort q in
      (mkClient (reconnectAttempts c) (reconnectDelay c) (reconnectTimer c) [],
       handleMergedUpdate e <$> merged)
  end.

(** The route test in the words of the specification: segment by
    segment, a [:param] or [*] segment of the route matches anything, any
    other segment must be equal, and both sides have as many segments. *)
Definition segment_ok (routeSegment currentSegment : string) : Prop :=
  startsWith routeSegment ":" = true ∨ routeSegment = "*"
  ∨ routeSegment = currentSegment.

Definition segmentwise_match (currentPath route : string) : Prop :=
  Forall2 segment_ok (segments (normalizeRoute route))
                     (segments (normalizeRoute currentPath)).

End HmrBrowser.

(** ** src/dev/dev-tools.ts: the watch loop and its debounce timers *)

Module WatchLoop.
Import JsRegex.

(** A file-system event of the watcher. *)
Record FsEvent := mkEvent {
  kind : string;
  paths : option (list string)
}.

(** [event.paths?.[0] || ""]. *)
Definition first_path (e : FsEvent) : string :=
  match paths e with
  | Some (p :: _) => if truthy p then p else ""
  | _ => ""
  end.

(** The replacement of every back-slash by a slash. *)
Definition slashes (s : string) : string := replace_all (Chr "\") false 0 "/" s.

(** [isIgnored]; [ignore] is [watchConfig.ignore]. *)
Definition isIgnored (ignore : option (list string)) (filePath : string) : bool :=
  match ignore with
  | None => false
  | Some [] => false
  | Some patterns =>
      let normalized := slashes filePath in
      existsb (λ pattern, includes normalized (slashes pattern)) patterns
  end.

(** The timers of the loop.  [rebuildTimers] is the map of the class,
    from a path to the handle of its timer; [pending] is the timer table
    of the runtime, from the handle of a timer that is set, not cleared
    and not fired yet to the path and update type that its callback has
    closed over; [next_id] is the handle that setTimeout returns next;
    [rebuilds] lists the calls of runRebuildForPath so far. *)
Record watcher := mkWatcher {
  rebuildTimers : gmap string nat;
  pending : gmap nat (string * string);
  next_id : nat;
  rebuilds : list (string * string)
}.

Definition init : watcher := mkWatcher ∅ ∅ 0 [].

(** The body of the [for await] loop for one event. *)
Definition on_event (ignore : option (list string)) (e : FsEvent) (w : watcher)
    : watcher :=
  if String.eqb (kind e) "modify" || String.eqb (kind e) "create" then
    let path := first_path e in
    if isIgnored ignore path then w
    else
      let updateType := DevTools.determineUpdateType path in
      let cleared :=
        match rebuildTimers w !! path with
        | Some existing => delete existing (pending w)
        | None => pending w
        end in
      let timer := next_id w in
      mkWatcher (<[path := timer]> (rebuildTimers w))
        (<[timer := (path, updateType)]> cleared)
        (S timer) (rebuilds w)
  else w.

(** The runtime runs the callback of timer [id], if that timer is still
    pending: the entry of the path is deleted and runRebuildForPath, which
    deletes it once more, is called. *)
Definition timer_fires (id : nat) (w : watcher) : watcher :=
  match pending w !! id with
  | Some (path, updateType) =>
      mkWatcher (delete path (delete path (rebuildTimers w)))
        (delete id (pending w)) (next_id w)
        (rebuilds w ++ [(path, updateType)])
  | None => w
  end.

(** The timer part of [stop]: every registered timer is cleared, then the
    map is. *)
Definition stop (w : watcher) : watcher :=
  mkWatcher ∅
    (foldr delete (pending w) (map snd (map_to_list (rebuildTimers w))))
    (next_id w) (rebuilds w).

Inductive step :=
| FileEvent (e : FsEvent)
| TimerFires (id : nat)
| Stop.

Definition apply_step (ignore : option (list string)) (w : watcher) (s : step)
    : watcher :=
  match s with
  | FileEvent e => on_event ignore e w
  | TimerFires id => timer_fires id w
  | Stop => stop w
  end.

Definition run (ignore : option (list string)) (steps : list step) : watcher :=
  foldl (apply_step ignore) init steps.

(** The events that the loop sets a timer for. *)
Definition accepted (ignore : option (list string)) (s : step) : bool :=
  match s with
  | FileEvent e =>
      (String.eqb (kind e) "modify" || String.eqb (kind e) "create")
      && negb (isIgnored ignore (first_path e))
  | _ => false
  end.

End WatchLoop.

(** ** src/dev/hmr-client.ts: the injection of the client script *)

Module HmrClientScript.
Import JsRegex.

Definition newline : string := String "010" EmptyString.

Definition injectHMRClient (html script : string) : string :=
  match lastIndexOf html "</body>" with
  | Some bodyCloseIndex =>
      let scriptTag := "<script>" +:+ script +:+ "</script>" in
      slice_to bodyCloseIndex html +:+ scriptTag +:+ newline
        +:+ slice_from bodyCloseIndex html
  | None =>
      match lastIndexOf html "</html>" with
      | Some htmlCloseIndex =>
          let scriptTag := "<script>" +:+ script +:+ "</script>" in
          slice_to htmlCloseIndex html +:+ scriptTag +:+ newline
            +:+ slice_from htmlCloseIndex html
      | None => html +:+ ("<script>" +:+ script +:+ "</script>")
      end
  end.

End HmrClientScript.

(** * Notions that the statements use *)

Local Open Scope nat_scope.

Section GraphNotions.
Import ModuleGraph.

(** What one round of the removal loops leaves under the key it visits. *)
Definition stripped (m : string) (o : option (list string)) : option (list string) :=
  match o with
  | Some s =>
      if JsSet.is_empty (JsSet.delete m s) then None
      else Some (JsSet.delete m s)
  | None => None
  end.

(** The set that the second loop of [removeModule] walks: the dependents
    of [m] as the first loop left them. *)
Definition dependents_after_first_loop (g : ModuleGraph) (m : string)
    : option (list string) :=
  if decide (m ∈ default [] (dependencies g !! m))
  then stripped m (dependents g !! m)
  else dependents g !! m.

Local Abbreviation state := (list string * list string)%type.

(** What one call of [collectDependents] on [id] promises about the
    state [st'] it returns from [st]. *)
Record visit_post (g : ModuleGraph) (id : string) (st st' : state) : Prop := {
  vp_mono : ∀ x, x ∈ st.1 → x ∈ st'.1;
  vp_start : id ∈ st'.1;
  vp_sound : ∀ x, x ∈ st'.1 → x ∈ st.1 ∨ reach g id x;
  vp_closed : ∀ x, x ∈ st'.1 → x ∉ st.1 → ∀ y, edge g x y → y ∈ st'.1;
  vp_nodup : NoDup st.1 → NoDup st'.1;
  vp_same : st.2 = st.1 → st'.2 = st'.1
}.

(** The same for the loop over the dependents [ds]. *)
Record loop_post (g : ModuleGraph) (ds : list string) (st st' : state) : Prop := {
  lp_mono : ∀ x, x ∈ st.1 → x ∈ st'.1;
  lp_all : ∀ d, d ∈ ds → d ∈ st'.1;
  lp_sound : ∀ x, x ∈ st'.1 → x ∈ st.1 ∨ ∃ d, d ∈ ds ∧ reach g d x;
  lp_closed : ∀ x, x ∈ st'.1 → x ∉ st.1 → ∀ y, edge g x y → y ∈ st'.1;
  lp_nodup : NoDup st.1 → NoDup st'.1;
  lp_same : st.2 = st.1 → st'.2 = st'.1
}.

(** The traversal returns when the fuel exceeds the number of ids of a
    closed set [U] that are not visited yet. *)
Definition unvisited (U : gset string) (st : state) : nat :=
  size (U ∖ list_to_set st.1).

End GraphNotions.

Section DevToolsNotions.
Import DevTools.

(** The state of a server with a builder and one registered module. *)
Definition dev_server : DevTools :=
  mkDevTools true
    (ModuleGraph.run [ModuleGraph.AddModule "helper" "src/utils/helper.ts" []])
    PerformanceMonitor.create ∅ [].

End DevToolsNotions.

Section HmrBrowserNotions.
Import HmrBrowser.

(** A message whose type is no name that the priority table inherits:
    its priority is a number. *)
Definition numbered (m : HMRMessage) : Prop := inherited (type m) = false.

(** The priority of a numbered message. *)
Definition rank (m : HMRMessage) : nat := default 999 (priority (type m)).

(** The priorities of [a] and [b] are numbers, and that of [a] is not
    the greater one. *)
Definition by_priority (a b : HMRMessage) : Prop :=
  ∃ x y, priority (type a) = Some x ∧ priority (type b) = Some y ∧ x ≤ y.

(** A message of a type that the priority table inherits a property
    for. *)
Definition constructor_message : HMRMessage :=
  mkMsg "constructor" (Some "src/x.ts") None None None None None None.

(** The files of a batch, message after message. *)
Definition all_files (ms : list HMRMessage) : list file :=
  concat (map (λ m, default [] (files m)) ms).

(** The first property [f] of a batch that is a non-empty string. *)
Fixpoint first_present (f : HMRMessage → option string) (ms : list HMRMessage)
    : option string :=
  match ms with
  | [] => None
  | m :: ms' => if present (f m) then f m else first_present f ms'
  end.

(** Two messages that arrive in one batching window. *)
Definition css_message : HMRMessage :=
  mkMsg "css-update" (Some "src/app.css") None None None None None (Some "/").
Definition module_message : HMRMessage :=
  mkMsg "module-update" (Some "src/util.ts")
    (Some [mkFile "dist/util.js" None]) None (Some "src/util.ts") None None
    (Some "/about").

(** Every string that a message carries. *)
Definition carried_strings (m : HMRMessage) : list string :=
  type m
  :: omap id [path m; message m; moduleId m; componentPath m; layoutPath m; route m]
  ++ concat (map (λ f, f_path f :: omap id [f_contents f]) (default [] (files m))).

(** A page at /user/123 with no render context and no hot-module API. *)
Definition user_page : env := mkEnv None "/user/123" false false.

Definition update_for (r : string) : HMRMessage :=
  mkMsg "update" (Some "pages/x.tsx") None None None None None (Some r).

(** [scheduled c q]: a reconnect timer is pending in [c] and its delay is
    [q] milliseconds. *)
Definition scheduled (c : HMRClient) (q : Q) : Prop :=
  match reconnectTimer c with
  | Some d => (d == q)%Q
  | None => False
  end.

End HmrBrowserNotions.

Section FurtherNotions.

(** No dependents set is empty in a state that the operations lead to. *)
Definition no_empty_dependents (g : ModuleGraph.ModuleGraph) : Prop :=
  ∀ k, ModuleGraph.dependents g !! k ≠ Some [].

(** The number of samples that are started and not closed: 0 or 1. *)
Definition in_flight (mon : PerformanceMonitor.HMRPerformanceMonitor) : nat :=
  match PerformanceMonitor.currentUpdate mon with Some _ => 1 | None => 0 end.

(** The types of the messages that the watch loop broadcasts. *)
Definition wire_types : list string :=
  ["reload"; "css-update"; "layout-update"; "component-update"; "module-update";
   "update"; "error"].

(** The message that the settling of a rebuild broadcasts. *)
Definition reply (dt : DevTools.DevTools) (p updateType : string)
    (o : DevTools.rejection + DevTools.BuildResult) : DevTools.UpdateMessage :=
  match o with
  | inr result => DevTools.buildUpdateMessage dt p updateType result
  | inl e => DevTools.errorMessage (DevTools.error_text e)
  end.

(** The arguments that the settling of a rebuild passes to endUpdate. *)
Definition succeeded (o : DevTools.rejection + DevTools.BuildResult) : bool :=
  match o with inr _ => true | inl _ => false end.

Definition failure_text (o : DevTools.rejection + DevTools.BuildResult)
    : option string :=
  match o with inr _ => None | inl e => Some (DevTools.error_text e) end.

(** The map of the class and the timer table of the runtime agree, and
    no handle that is still to be given out is in use. *)
Record timers_agree (w : WatchLoop.watcher) : Prop := {
  registered_pending :
    ∀ p id, WatchLoop.rebuildTimers w !! p = Some id →
            ∃ u, WatchLoop.pending w !! id = Some (p, u);
  pending_registered :
    ∀ id p u, WatchLoop.pending w !! id = Some (p, u) →
              WatchLoop.rebuildTimers w !! p = Some id;
  handles_fresh :
    ∀ id, is_Some (WatchLoop.pending w !! id) → id < WatchLoop.next_id w
}.

(** A path with the back-slashes turned into slashes, character by
    character. *)
Definition to_slashes (s : string) : string :=
  JsRegex.to_string
    (map (λ c : ascii, if Ascii.eqb c "\" then "/"%char else c) (JsRegex.of_string s)).

(** The messages that the client puts into its queue. *)
Definition queued (m : HmrBrowser.HMRMessage) : bool :=
  negb (String.eqb (HmrBrowser.type m) "reload")
  && negb (String.eqb (HmrBrowser.type m) "error").

(** The client receives the messages [ms], one after the other. *)
Definition receive (ms : list HmrBrowser.HMRMessage) (c : HmrBrowser.HMRClient)
    : HmrBrowser.HMRClient :=
  foldl (λ c m, (HmrBrowser.handleMessage m c).1) c ms.

(** The types that handleMergedUpdate has a case for. *)
Definition update_types : list string :=
  ["css-update"; "component-update"; "layout-update"; "module-update"; "update"].

(** The heartbeat of the server as the client reads it: a type and none
    of the properties that the client looks at. *)
Definition ping : HmrBrowser.HMRMessage :=
  HmrBrowser.mkMsg "ping" None None None None None None None.

(** The merge of a batch without the shortcut for a batch of one. *)
Definition merge_sorted
    (engineSort : list HmrBrowser.HMRMessage → list HmrBrowser.HMRMessage)
    (msgs : list HmrBrowser.HMRMessage) : option HmrBrowser.HMRMessage :=
  match HmrBrowser.sort_by_priority engineSort msgs with
  | [] => None
  | primary :: _ =>
      let sorted := HmrBrowser.sort_by_priority engineSort msgs in
      Some (HmrBrowser.mkMsg (HmrBrowser.type primary)
              (HmrBrowser.first_or (HmrBrowser.collect_paths sorted)
                 (HmrBrowser.path primary))
              (if (0 <? length (HmrBrowser.collect_files sorted))%nat
               then Some (HmrBrowser.collect_files sorted)
               else HmrBrowser.files primary)
              (HmrBrowser.message primary)
              (HmrBrowser.moduleId primary)
              (HmrBrowser.componentPath primary)
              (HmrBrowser.layoutPath primary)
              (HmrBrowser.first_or (HmrBrowser.collect_routes sorted)
                 (HmrBrowser.route primary)))
  end.

(** The durations that the statistics are made of: in the order of the
    buffer, the durations of the samples that succeeded and whose
    duration is a number other than 0, -0 and NaN. *)
Definition counted_durations (mon : PerformanceMonitor.HMRPerformanceMonitor)
    : list float :=
  omap (λ m, if PerformanceMonitor.success m then
               match PerformanceMonitor.duration m with
               | Some d =>
                   if PrimFloat.is_zero d || PrimFloat.is_nan d then None else Some d
               | None => None
               end
             else None)
       (PerformanceMonitor.metrics mon).

(** The recorder whose buffer is [ms], with no sample in flight. *)
Definition recorder_with (ms : list PerformanceMonitor.PerformanceMetrics)
    : PerformanceMonitor.HMRPerformanceMonitor :=
  PerformanceMonitor.mkMonitor ms None.

End FurtherNotions.

(** * Properties *)

Lemma truthy_true (s : string) : truthy s = true ↔ s ≠ "".
Proof. destruct s; simpl; split; congruence. Qed.

Lemma truthy_false (s : string) : truthy s = false ↔ s = "".
Proof. destruct s; simpl; split; congruence. Qed.

(** ** Sets in insertion order *)

Section JsSetFacts.
Implicit Types (x y : string) (s : list string).

Lemma has_true x s : JsSet.has x s = true ↔ x ∈ s.
Proof. unfold JsSet.has. apply bool_decide_eq_true. Qed.

Lemma elem_of_add x y s : y ∈ JsSet.add x s ↔ y = x ∨ y ∈ s.
Proof.
  unfold JsSet.add, JsSet.has. case_bool_decide as Hx.
  - split; [auto | intros [-> | ?]; auto].
  - rewrite elem_of_app, list_elem_of_singleton. tauto.
Qed.

Lemma NoDup_add x s : NoDup s → NoDup (JsSet.add x s).
Proof.
  intros Hs. unfold JsSet.add, JsSet.has. case_bool_decide as Hx; [done |].
  apply NoDup_app. split_and!; [done | | apply NoDup_singleton].
  intros y Hy ->%list_elem_of_singleton. done.
Qed.

Lemma elem_of_delete x y s : y ∈ JsSet.delete x s ↔ y ∈ s ∧ y ≠ x.
Proof. unfold JsSet.delete. rewrite list_elem_of_filter. tauto. Qed.

Lemma delete_idemp x s : JsSet.delete x (JsSet.delete x s) = JsSet.delete x s.
Proof.
  unfold JsSet.delete. induction s as [| y s IH]; [done |].
  rewrite filter_cons. case_decide; [| done].
  rewrite filter_cons_True by done. by f_equal.
Qed.

Lemma is_empty_true s : JsSet.is_empty s = true ↔ s = [].
Proof. destruct s; simpl; split; congruence. Qed.

Lemma foldl_add_elem_of (acc l : list string) x :
  x ∈ foldl (λ a d, JsSet.add d a) acc l ↔ x ∈ acc ∨ x ∈ l.
Proof.
  revert acc. induction l as [| d l IH]; intros acc; simpl.
  - rewrite elem_of_nil. tauto.
  - rewrite IH, elem_of_add, elem_of_cons. tauto.
Qed.

End JsSetFacts.

(** ** The dependency graph *)

Section ModuleGraphFacts.
Import ModuleGraph.
Implicit Types (g : ModuleGraph) (M D : gmap string (list string)).
Implicit Types (m k j a b : string) (ks ds : list string).

Lemma stripped_idemp m o : stripped m (stripped m o) = stripped m o.
Proof.
  destruct o as [s |]; simpl; [| done].
  destruct (JsSet.is_empty (JsSet.delete m s)) eqn:E; simpl; [done |].
  by rewrite delete_idemp, E.
Qed.

Lemma stripped_Some m o s :
  stripped m o = Some s →
  s ≠ [] ∧ (m ∉ s) ∧ (∃ s0, o = Some s0 ∧ s = JsSet.delete m s0).
Proof.
  destruct o as [s0 |]; simpl; [| done].
  destruct (JsSet.is_empty (JsSet.delete m s0)) eqn:E; [done |].
  intros [= <-]. split_and!.
  - intros H%is_empty_true. congruence.
  - rewrite elem_of_delete. tauto.
  - eauto.
Qed.

Lemma elem_of_stripped m o x :
  (∃ s, stripped m o = Some s ∧ x ∈ s) ↔ (∃ s, o = Some s ∧ x ∈ s) ∧ x ≠ m.
Proof.
  split.
  - intros (s & Hs & Hx). apply stripped_Some in Hs as (_ & _ & s0 & -> & ->).
    apply elem_of_delete in Hx as [? ?]. eauto.
  - intros [(s & -> & Hx) Hne]. simpl.
    assert (x ∈ JsSet.delete m s) as Hd by (apply elem_of_delete; done).
    destruct (JsSet.is_empty (JsSet.delete m s)) eqn:E.
    + apply is_empty_true in E. rewrite E in Hd. by apply elem_of_nil in Hd.
    + eauto.
Qed.

Lemma strip_lookup m M k j :
  strip m M k !! j = if decide (j = k) then stripped m (M !! k) else M !! j.
Proof.
  unfold strip, stripped. destruct (M !! k) as [s |] eqn:Hk.
  - destruct (JsSet.is_empty (JsSet.delete m s)); case_decide; subst;
      simplify_map_eq; done.
  - case_decide; subst; done.
Qed.

Lemma foldl_strip_lookup m ks M j :
  foldl (strip m) M ks !! j
  = if decide (j ∈ ks) then stripped m (M !! j) else M !! j.
Proof.
  revert M. induction ks as [| k ks IH]; intros M; simpl.
  - done.
  - rewrite IH, strip_lookup. destruct (decide (j = k)) as [-> |].
    + destruct (decide (k ∈ k :: ks)) as [_ | []]; [| left].
      case_decide; [apply stripped_idemp | done].
    + destruct (decide (j ∈ ks)), (decide (j ∈ k :: ks)) as [Hin | Hnin];
        try done.
      * exfalso. apply Hnin. by right.
      * apply elem_of_cons in Hin as [? | ?]; done.
Qed.

Lemma foldl_addModule_step_fst m ds (e : list string) D :
  (foldl (addModule_step m) (e, D) ds).1 = foldl (λ acc d, JsSet.add d acc) e ds.
Proof. revert e D. induction ds as [| d ds IH]; intros e D; simpl; [done | apply IH]. Qed.

Lemma foldl_addModule_step_lookup m ds (e : list string) D j :
  ∃ s, (foldl (addModule_step m) (e, D) ds).2 !! j
       = (if decide (j ∈ ds) then Some s else D !! j)
       ∧ (j ∈ ds → ∀ x, x ∈ s ↔ x = m ∨ x ∈ default [] (D !! j)).
Proof.
  revert e D. induction ds as [| d ds IH]; intros e D; simpl.
  - exists []. split; [done | by intros ?%elem_of_nil].
  - destruct (IH (JsSet.add d e) (<[d:=JsSet.add m (default [] (D !! d))]> D))
      as (s & Hs & Hmem).
    change (addModule_step m (e, D) d)
      with (JsSet.add d e, <[d:=JsSet.add m (default [] (D !! d))]> D).
    rewrite Hs. destruct (decide (j ∈ ds)) as [Hin | Hnin].
    + exists s. rewrite decide_True by (by right). split; [done |].
      intros _ x. rewrite (Hmem Hin x). destruct (decide (j = d)) as [-> |].
      * rewrite lookup_insert_eq. simpl. rewrite elem_of_add. tauto.
      * by rewrite lookup_insert_ne.
    + destruct (decide (j = d)) as [-> |].
      * exists (JsSet.add m (default [] (D !! d))).
        rewrite decide_True by left. rewrite lookup_insert_eq.
        split; [done |]. intros _ x. apply elem_of_add.
      * exists []. rewrite decide_False by (rewrite elem_of_cons; tauto).
        rewrite lookup_insert_ne by done. split; [done |].
        rewrite elem_of_cons. tauto.
Qed.

Lemma elem_of_default_nil (o : option (list string)) x :
  x ∈ default [] o ↔ ∃ s, o = Some s ∧ x ∈ s.
Proof.
  destruct o as [s |]; simpl.
  - split; [eauto | by intros (? & [= <-] & ?)].
  - split; [by intros ?%elem_of_nil | by intros (? & ? & ?)].
Qed.

(** *** Edges after [addModule] *)

Lemma fwd_addModule g m f ds a b :
  fwd (addModule m f ds g) a b ↔ fwd g a b ∨ (a = m ∧ b ∈ ds).
Proof.
  unfold fwd, addModule; simpl. destruct (decide (a = m)) as [-> | Hne].
  - rewrite lookup_insert_eq, foldl_addModule_step_fst. split.
    + intros (s & [= <-] & Hb). apply foldl_add_elem_of in Hb as [Hb | Hb].
      * left. by apply elem_of_default_nil.
      * by right.
    + intros H. eexists; split; [done |]. apply foldl_add_elem_of.
      destruct H as [H | [_ H]]; [left; by apply elem_of_default_nil | by right].
  - rewrite lookup_insert_ne by done. naive_solver.
Qed.

Lemma bwd_addModule g m f ds a b :
  bwd (addModule m f ds g) a b ↔ bwd g a b ∨ (a = m ∧ b ∈ ds).
Proof.
  unfold bwd, addModule; simpl.
  destruct (foldl_addModule_step_lookup m ds
              (default [] (dependencies g !! m)) (dependents g) b)
    as (s & -> & Hmem).
  destruct (decide (b ∈ ds)) as [Hin | Hnin].
  - split.
    + intros (? & [= <-] & Ha). apply (Hmem Hin) in Ha as [-> | Ha]; [by right |].
      left. by apply elem_of_default_nil.
    + intros H. eexists; split; [done |]. apply (Hmem Hin).
      destruct H as [H | [-> _]]; [right; by apply elem_of_default_nil | by left].
  - naive_solver.
Qed.

Lemma mirrored_addModule g m f ds : mirrored g → mirrored (addModule m f ds g).
Proof. intros Hg a b. rewrite fwd_addModule, bwd_addModule, (Hg a b). done. Qed.

(** *** The adjacency maps after [removeModule] *)

Lemma removeModule_dependents_lookup g m j :
  dependents (removeModule m g) !! j
  = if decide (j = m) then None
    else if decide (j ∈ default [] (dependencies g !! m))
         then stripped m (dependents g !! j)
         else dependents g !! j.
Proof.
  assert (∀ R : gmap string (list string),
            (match R !! m with
             | Some _ => delete m R
             | None => R
             end) !! j = if decide (j = m) then None else R !! j) as Hdel.
  { intros R. destruct (R !! m) eqn:E; case_decide; subst; simplify_map_eq; done. }
  unfold removeModule.
  destruct (dependencies g !! m) as [deps |] eqn:Hd; simpl.
  - specialize (Hdel (foldl (strip m) (dependents g) deps)).
    destruct (foldl (strip m) (dependents g) deps !! m); simpl;
      rewrite Hdel; case_decide; try done; apply foldl_strip_lookup.
  - specialize (Hdel (dependents g)).
    destruct (dependents g !! m); simpl; rewrite Hdel; case_decide; done.
Qed.

Lemma removeModule_dependencies_lookup g m j :
  dependencies (removeModule m g) !! j
  = if decide (j = m) then None
    else if decide (j ∈ default [] (dependents_after_first_loop g m))
         then stripped m (dependencies g !! j)
         else dependencies g !! j.
Proof.
  assert (∀ (D : gmap string (list string)) (o : option (list string)),
            D !! m = None →
            (match o with
             | Some ks => foldl (strip m) D ks
             | None => D
             end) !! j
            = if decide (j = m) then None
              else if decide (j ∈ default [] o) then stripped m (D !! j)
                   else D !! j) as Hloop.
  { intros D o HD. destruct o as [ks |]; simpl.
    - rewrite foldl_strip_lookup.
      destruct (decide (j = m)) as [-> |]; [| done].
      rewrite HD. by case_decide.
    - destruct (decide (j = m)) as [-> |]; done. }
  unfold removeModule, dependents_after_first_loop.
  destruct (dependencies g !! m) as [deps |] eqn:Hd; simpl.
  - rewrite <- (foldl_strip_lookup m deps (dependents g) m).
    specialize (Hloop (delete m (dependencies g))
                  (foldl (strip m) (dependents g) deps !! m)
                  (lookup_delete_eq _ _)).
    destruct (foldl (strip m) (dependents g) deps !! m); simpl in *;
      rewrite Hloop; destruct (decide (j = m)); try done;
      by rewrite lookup_delete_ne by congruence.
  - specialize (Hloop (dependencies g) (dependents g !! m) Hd).
    destruct (dependents g !! m); simpl in *; rewrite Hloop; repeat case_decide; done.
Qed.

Lemma fwd_removeModule g m a b :
  mirrored g →
  fwd (removeModule m g) a b ↔ fwd g a b ∧ a ≠ m ∧ b ≠ m.
Proof.
  intros Hg. unfold fwd at 1. rewrite removeModule_dependencies_lookup.
  destruct (decide (a = m)) as [-> | Ha]; [naive_solver |].
  case_decide as Hin.
  - rewrite elem_of_stripped. unfold fwd. tauto.
  - fold (fwd g a b). split; [| tauto]. intros Hf. split_and!; [done.. |].
    intros ->. apply Hin. apply Hg in Hf. unfold dependents_after_first_loop.
    case_decide.
    + apply elem_of_default_nil, elem_of_stripped. done.
    + by apply elem_of_default_nil.
Qed.

Lemma bwd_removeModule g m a b :
  mirrored g →
  bwd (removeModule m g) a b ↔ bwd g a b ∧ a ≠ m ∧ b ≠ m.
Proof.
  intros Hg. unfold bwd at 1. rewrite removeModule_dependents_lookup.
  destruct (decide (b = m)) as [-> | Hb]; [naive_solver |].
  case_decide as Hin.
  - rewrite elem_of_stripped. unfold bwd. tauto.
  - fold (bwd g a b). split; [| tauto]. intros Hf. split_and!; [done | | done].
    intros ->. apply Hin. apply Hg in Hf. by apply elem_of_default_nil.
Qed.

Lemma mirrored_removeModule g m : mirrored g → mirrored (removeModule m g).
Proof.
  intros Hg a b. rewrite fwd_removeModule, bwd_removeModule, (Hg a b) by done.
  done.
Qed.

Lemma mirrored_empty : mirrored empty.
Proof. intros a b. unfold fwd, bwd; simpl. split; intros (? & ? & _); done. Qed.

Lemma mirrored_foldl ops g : mirrored g → mirrored (foldl apply_op g ops).
Proof.
  revert g. induction ops as [| o ops IH]; intros g Hg; simpl; [done |].
  apply IH. destruct o; simpl; auto using mirrored_addModule, mirrored_removeModule.
Qed.

(** *** The traversal of [getAffectedModules] *)

Local Abbreviation state := (list string * list string)%type.

Lemma visit_all_post g visit :
  (∀ id st st', visit id st = Some st' → visit_post g id st st') →
  ∀ ds st st', visit_all visit ds st = Some st' → loop_post g ds st st'.
Proof.
  intros Hvisit. induction ds as [| d ds IH]; intros st st' Hrun; simpl in Hrun.
  - injection Hrun as <-. split; try done.
    + by intros ? ?%elem_of_nil.
    + auto.
  - destruct (visit d st) as [st1 |] eqn:Hd; [| done].
    apply Hvisit in Hd as [H1 H2 H3 H4 H5 H6].
    apply IH in Hrun as [L1 L2 L3 L4 L5 L6]. split.
    + auto.
    + intros x [-> | Hx]%elem_of_cons; auto.
    + intros x Hx. destruct (L3 x Hx) as [Hx1 | (d' & Hd' & Hr)].
      * destruct (H3 x Hx1) as [? | Hr]; [by left |].
        right. exists d. split; [left | done].
      * right. exists d'. split; [by right | done].
    + intros x Hx Hnew y Hxy. destruct (decide (x ∈ st1.1)) as [Hx1 | Hx1].
      * apply L1. by apply (H4 x Hx1 Hnew).
      * by apply (L4 x Hx Hx1).
    + auto.
    + auto.
Qed.

Lemma collectDependents_post g fuel :
  ∀ id st st', collectDependents g fuel id st = Some st' → visit_post g id st st'.
Proof.
  induction fuel as [| fuel IH]; intros id st st' Hrun; simpl in Hrun; [done |].
  destruct (JsSet.has id st.1) eqn:Hhas.
  - injection Hrun as <-. apply has_true in Hhas. split; try done. auto.
  - assert (id ∉ st.1) as Hfresh.
    { intros H%has_true. congruence. }
    set (st1 := (JsSet.add id st.1, JsSet.add id st.2)) in *.
    assert (∀ x, x ∈ st1.1 ↔ x = id ∨ x ∈ st.1) as Hst1.
    { intros x. apply elem_of_add. }
    destruct (dependents g !! id) as [ds |] eqn:Hds.
    + apply (visit_all_post g _ IH) in Hrun as [L1 L2 L3 L4 L5 L6]. split.
      * intros x Hx. apply L1, Hst1. by right.
      * apply L1, Hst1. by left.
      * intros x Hx. destruct (L3 x Hx) as [[-> | ?]%Hst1 | (d & Hd & Hr)].
        -- right. apply rtc_refl.
        -- by left.
        -- right. eapply rtc_l; [| done]. by exists ds.
      * intros x Hx Hnew y Hxy. destruct (decide (x = id)) as [-> | Hne].
        -- destruct Hxy as (ds' & Hds' & Hy). apply L2. congruence.
        -- apply (L4 x Hx); [| done]. rewrite Hst1. tauto.
      * intros Hnd. apply L5. by apply NoDup_add.
      * intros Heq. apply L6. simpl. by rewrite Heq.
    + injection Hrun as <-. split.
      * intros x Hx. apply Hst1. by right.
      * apply Hst1. by left.
      * intros x [-> | ?]%Hst1; [right; apply rtc_refl | by left].
      * intros x [-> | ?]%Hst1 Hnew y (ds' & Hds' & _); [congruence | done].
      * intros Hnd. by apply NoDup_add.
      * intros Heq. simpl. by rewrite Heq.
Qed.

(** More fuel does not change a result. *)
Lemma visit_all_mono (v1 v2 : string → state → option state) :
  (∀ id st st', v1 id st = Some st' → v2 id st = Some st') →
  ∀ ds st st', visit_all v1 ds st = Some st' → visit_all v2 ds st = Some st'.
Proof.
  intros Hv. induction ds as [| d ds IH]; intros st st' Hrun; simpl in *; [done |].
  destruct (v1 d st) as [st1 |] eqn:Hd; [| done].
  rewrite (Hv _ _ _ Hd). auto.
Qed.

Lemma collectDependents_fuel_mono g (fuel fuel' : nat) id st st' :
  fuel ≤ fuel' →
  collectDependents g fuel id st = Some st' →
  collectDependents g fuel' id st = Some st'.
Proof.
  revert fuel' id st st'. induction fuel as [| fuel IH];
    intros fuel' id st st' Hle Hrun; simpl in Hrun; [done |].
  destruct fuel' as [| fuel']; [lia |]. simpl.
  destruct (JsSet.has id st.1); [done |].
  destruct (dependents g !! id); [| done].
  eapply visit_all_mono; [| done]. intros ???. apply IH. lia.
Qed.

Lemma unvisited_mono U (st st' : state) :
  (∀ x, x ∈ st.1 → x ∈ st'.1) → unvisited U st' ≤ unvisited U st.
Proof.
  intros Hsub. apply subseteq_size. intros x.
  rewrite !elem_of_difference, !elem_of_list_to_set. naive_solver.
Qed.

Lemma unvisited_add U (st : state) id :
  id ∈ U → id ∉ st.1 →
  unvisited U (JsSet.add id st.1, JsSet.add id st.2) < unvisited U st.
Proof.
  intros HU Hfresh. apply subset_size. split.
  - intros x. rewrite !elem_of_difference, !elem_of_list_to_set. simpl.
    rewrite elem_of_add. naive_solver.
  - intros Hsub. specialize (Hsub id).
    rewrite !elem_of_difference, !elem_of_list_to_set in Hsub. simpl in Hsub.
    rewrite elem_of_add in Hsub. naive_solver.
Qed.

Lemma visit_all_returns g (U : gset string) (fuel : nat) :
  (∀ id st, id ∈ U → unvisited U st < fuel →
     is_Some (collectDependents g fuel id st)) →
  ∀ ds st, (∀ d, d ∈ ds → d ∈ U) → unvisited U st < fuel →
    is_Some (visit_all (collectDependents g fuel) ds st).
Proof.
  intros Hcall. induction ds as [| d ds IHds]; intros st HdsU Hlt; simpl;
    [by eexists |].
  destruct (Hcall d st) as [st2 Hst2]; [apply HdsU; left | done |].
  rewrite Hst2. apply IHds.
  - intros d' Hd'. apply HdsU. by right.
  - apply collectDependents_post in Hst2 as [Hmono _ _ _ _ _].
    pose proof (unvisited_mono U st st2 Hmono). lia.
Qed.

Lemma collectDependents_returns g (U : gset string) :
  (∀ x y, x ∈ U → edge g x y → y ∈ U) →
  ∀ (fuel : nat) id st, id ∈ U → unvisited U st < fuel →
    is_Some (collectDependents g fuel id st).
Proof.
  intros Hclosed. induction fuel as [| fuel IH]; intros id st HU Hlt; [lia |].
  simpl. destruct (JsSet.has id st.1) eqn:Hhas; [by eexists |].
  assert (id ∉ st.1) as Hfresh.
  { intros H%has_true. congruence. }
  pose proof (unvisited_add U st id HU Hfresh) as Hdec.
  destruct (dependents g !! id) as [ds |] eqn:Hds; [| by eexists].
  apply (visit_all_returns g U fuel IH); [| lia].
  intros d Hd. apply (Hclosed id); [done |]. by exists ds.
Qed.

Lemma size_list_to_set_le (l : list string) :
  size (list_to_set (C := gset string) l) ≤ length l.
Proof.
  induction l as [| x l IH].
  - change (size (∅ : gset string) ≤ 0). by rewrite size_empty.
  - change (size ({[x]} ∪ list_to_set (C := gset string) l) ≤ S (length l)).
    rewrite size_union_alt, size_singleton.
    assert (list_to_set l ∖ {[x]} ⊆ list_to_set (C := gset string) l) as H
      by set_solver.
    apply subseteq_size in H. lia.
Qed.

Lemma elem_of_graph_ids g x y : edge g x y → y ∈ graph_ids g.
Proof.
  intros (ds & Hds & Hy). unfold graph_ids.
  apply list_elem_of_In, in_concat. exists (x :: ds). split.
  - apply in_map_iff. exists (x, ds). split; [done |].
    by apply list_elem_of_In, elem_of_map_to_list.
  - apply list_elem_of_In. by right.
Qed.

Lemma collectDependents_top g (fuel : nat) m :
  fuel_bound g ≤ fuel →
  ∃ l, collectDependents g fuel m ([], []) = Some (l, l)
       ∧ NoDup l ∧ ∀ x, x ∈ l ↔ reach g m x.
Proof.
  intros Hfuel.
  set (U := ({[m]} ∪ list_to_set (graph_ids g) : gset string)).
  destruct (collectDependents_returns g U) with (fuel := fuel) (id := m)
    (st := ([], []) : state) as [[l l'] Hrun].
  - intros x y _ Hxy. apply elem_of_union_r, elem_of_list_to_set.
    by eapply elem_of_graph_ids.
  - set_solver.
  - unfold unvisited, fuel_bound in *. simpl.
    pose proof (size_list_to_set_le (graph_ids g)).
    assert (U ∖ ∅ ⊆ U) as H1 by set_solver.
    apply subseteq_size in H1.
    assert (size U ≤ 1 + size (list_to_set (C := gset string) (graph_ids g))).
    { unfold U. rewrite size_union_alt, size_singleton.
      assert (list_to_set (graph_ids g) ∖ {[m]}
              ⊆ list_to_set (C := gset string) (graph_ids g)) as H2
        by set_solver.
      apply subseteq_size in H2. lia. }
    lia.
  - apply collectDependents_post in Hrun as Hpost.
    destruct Hpost as [_ Hstart Hsound Hclosed Hnd Hsame]. simpl in *.
    rewrite (Hsame eq_refl) in Hrun. exists l. split_and!; [done | | ].
    + apply Hnd, NoDup_nil_2.
    + intros x. split.
      * intros Hx. destruct (Hsound x Hx) as [?%elem_of_nil | ?]; done.
      * revert x. apply (rtc_ind_r (λ x, x ∈ l)); [done |].
        intros a b _ Hab Ha. apply (Hclosed a Ha); [apply not_elem_of_nil | done].
Qed.

End ModuleGraphFacts.

(** *** Claims about the dependency graph *)

Section ModuleGraphClaims.
Import ModuleGraph.

(** C1, as amended.  For every graph state [g] (so for every state that
    calls of addModule and removeModule lead to, with or without cycles)
    and every file path [f], getAffectedModules returns: the traversal
    needs no more than [fuel_bound g] nested calls.  The result has no
    id twice.  Its ids are those that can be reached over dependents
    edges from the id registered for [f], that id included, when this id
    is a non-empty string; when [f] has no id, or the empty string as id,
    the result is the empty list. *)
Theorem C1_getAffectedModules_reachable (g : ModuleGraph) (f : string) :
  ∃ l : list string,
    (∀ fuel : nat, fuel_bound g ≤ fuel → getAffectedModules_fuel fuel g f = Some l)
    ∧ getAffectedModules g f = l
    ∧ NoDup l
    ∧ (∀ x, x ∈ l ↔ ∃ m, getModuleId g f = Some m ∧ m ≠ "" ∧ reach g m x).
Proof.
  unfold getAffectedModules, getAffectedModules_fuel.
  destruct (getModuleId g f) as [m |] eqn:Hm.
  - destruct (truthy m) eqn:Ht.
    + apply truthy_true in Ht.
      destruct (collectDependents_top g (fuel_bound g) m (le_n _))
        as (l & Hrun & Hnd & Hl).
      exists l. split_and!.
      * intros fuel Hfuel.
        by rewrite (collectDependents_fuel_mono g _ fuel _ _ _ Hfuel Hrun).
      * by rewrite Hrun.
      * done.
      * intros x. rewrite Hl. split.
        -- intros Hr. by exists m.
        -- by intros (? & [= <-] & _ & ?).
    + apply truthy_false in Ht as ->.
      exists []. split_and!; try done; [apply NoDup_nil_2 |].
      intros x. split; [by intros ?%elem_of_nil | by intros (? & [= <-] & ? & _)].
  - exists []. split_and!; try done; [apply NoDup_nil_2 |].
    intros x. split; [by intros ?%elem_of_nil | by intros (? & ? & _)].
Qed.

(** C1 as stated fails for a module that is registered under the empty
    string: [if (!moduleId)] takes that id for a missing one, and the
    result is empty although the id reaches itself. *)
Lemma C1_counterexample_empty_module_id :
  let g := run [AddModule "" "a.ts" []] in
  getModuleId g "a.ts" = Some ""
  ∧ getAffectedModules g "a.ts" = []
  ∧ ¬ (∀ x, x ∈ getAffectedModules g "a.ts" ↔ reach g "" x).
Proof.
  split_and!; [by vm_compute.. |].
  intros H.
  assert ("" ∈ getAffectedModules (run [AddModule "" "a.ts" []]) "a.ts") as Hin.
  { apply H, rtc_refl. }
  vm_compute in Hin. by apply elem_of_nil in Hin.
Qed.

(** C2.  After every sequence of addModule and removeModule calls the
    edges are mirrored: the forward set of [a] contains [b] if and only if
    the dependents set of [b] contains [a], where a key that is not in a
    map has no members. *)
Theorem C2_edges_mirrored (ops : list op) (a b : string) :
  (∃ s, dependencies (run ops) !! a = Some s ∧ b ∈ s)
  ↔ (∃ s, dependents (run ops) !! b = Some s ∧ a ∈ s).
Proof. apply (mirrored_foldl ops empty mirrored_empty a b). Qed.

(** C3, as amended.  In every state [g] that calls of addModule and
    removeModule lead to, removeModule(m) leaves [m] neither as a key nor
    as a member of a set in the two adjacency maps, removes the entry of
    [m] from the id-to-path map, removes the entry of the path of [m] from
    the path-to-id map when that path is a non-empty string, and leaves no
    empty set that it did not find empty. *)
Theorem C3_removeModule_no_residue (ops : list op) (m : string) :
  let g := run ops in
  let g' := removeModule m g in
  dependencies g' !! m = None
  ∧ dependents g' !! m = None
  ∧ (∀ k s, dependencies g' !! k = Some s → m ∉ s)
  ∧ (∀ k s, dependents g' !! k = Some s → m ∉ s)
  ∧ moduleToFile g' !! m = None
  ∧ (∀ p, moduleToFile g !! m = Some p → p ≠ "" → fileToModule g' !! p = None)
  ∧ (∀ k, dependencies g' !! k = Some [] → dependencies g !! k = Some [])
  ∧ (∀ k, dependents g' !! k = Some [] → dependents g !! k = Some []).
Proof.
  intros g g'.
  assert (mirrored g) as Hg by apply (mirrored_foldl ops empty mirrored_empty).
  split_and!.
  - unfold g'. rewrite removeModule_dependencies_lookup. by rewrite decide_True.
  - unfold g'. rewrite removeModule_dependents_lookup. by rewrite decide_True.
  - intros k s Hk Hin. assert (fwd g' k m) as Hf by (by exists s).
    apply fwd_removeModule in Hf; [tauto | done].
  - intros k s Hk Hin. assert (bwd g' m k) as Hb by (by exists s).
    apply bwd_removeModule in Hb; [tauto | done].
  - unfold g', removeModule. simpl.
    destruct (dependencies g !! m); simpl;
      repeat match goal with |- context [match ?o with Some _ => _ | None => _ end] =>
               destruct o; simpl end;
      apply lookup_delete_eq.
  - intros p Hp Hne.
    assert (fileToModule g' = delete p (fileToModule g)) as ->.
    { unfold g', removeModule. rewrite Hp. destruct p; [done |]. simpl.
      destruct (dependencies g !! m); simpl;
        repeat match goal with |- context [match ?o with Some _ => _ | None => _ end] =>
                 destruct o; simpl end; done. }
    apply lookup_delete_eq.
  - intros k. unfold g'. rewrite removeModule_dependencies_lookup.
    repeat case_decide; try done. by intros (? & _)%stripped_Some.
  - intros k. unfold g'. rewrite removeModule_dependents_lookup.
    repeat case_decide; try done. by intros (? & _)%stripped_Some.
Qed.

(** The theorem at a graph of three modules. *)
Lemma C3_witness :
  let g := run [AddModule "a" "a.ts" ["b"]; AddModule "b" "b.ts" ["a"; "c"];
                AddModule "c" "c.ts" []] in
  getFilePath g "b" = Some "b.ts"
  ∧ getModuleId (removeModule "b" g) "b.ts" = None
  ∧ getDependents (removeModule "b" g) "b" = [].
Proof.
  pose proof (C3_removeModule_no_residue
    [AddModule "a" "a.ts" ["b"]; AddModule "b" "b.ts" ["a"; "c"];
     AddModule "c" "c.ts" []] "b") as H.
  cbv zeta in H. destruct H as (_ & Hd & _ & _ & _ & Hp & _).
  split_and!.
  - by vm_compute.
  - apply (Hp "b.ts"); [by vm_compute | done].
  - unfold getDependents. by rewrite Hd.
Defined.

(** C3 as stated fails for a module that is registered under the empty
    path: [if (filePath)] takes that path for a missing one, and the
    path-to-id map keeps the entry of the removed module. *)
Lemma C3_counterexample_empty_path :
  let g := run [AddModule "m" "" []] in
  getFilePath g "m" = Some ""
  ∧ getModuleId g "" = Some "m"
  ∧ getModuleId (removeModule "m" g) "" = Some "m".
Proof. split_and!; by vm_compute. Qed.

(** addModule does not take the entry of an earlier path of a module out
    of the path-to-id map, and removeModule looks at the current path
    only: the earlier path still leads to the removed module. *)
Remark removeModule_keeps_earlier_path :
  let g := run [AddModule "m" "a.ts" []; AddModule "m" "b.ts" []] in
  getFilePath g "m" = Some "b.ts"
  ∧ getModuleId (removeModule "m" g) "b.ts" = None
  ∧ getModuleId (removeModule "m" g) "a.ts" = Some "m".
Proof. split_and!; by vm_compute. Qed.

End ModuleGraphClaims.

(** ** Route inference *)

Section RouteInferenceClaims.
Import RouteInference.

(** An inferred route is never the empty string: normalizeRoute puts a
    slash in front, and the slash survives the steps that follow. *)

Lemma star_loop_is_Some {R : Type}
    (step : nat → JsRegex.str → JsRegex.captures
            → (nat → JsRegex.str → JsRegex.captures → option R) → option R)
    (k : nat → JsRegex.str → JsRegex.captures → option R) :
  (∀ pos s caps, is_Some (k pos s caps)) →
  ∀ fuel pos s caps, is_Some (JsRegex.star_loop step k fuel pos s caps).
Proof.
  intros Hk. induction fuel as [| fuel IH]; intros pos s caps; simpl; [done |].
  destruct (step pos s caps _); [by eexists | done].
Qed.

Lemma exec_from_hit (r : JsRegex.regex) (i : bool) (s : JsRegex.str)
    (fuel from : nat) (m : JsRegex.match_result) :
  JsRegex.match_at r i s from = Some m → JsRegex.exec_from r i s fuel from = Some m.
Proof. intros H. destruct fuel; simpl; by rewrite H. Qed.

Lemma replace_loop_hit (r : JsRegex.regex) (i : bool) (n : nat)
    (tpl s : JsRegex.str) (fuel : nat) (m : JsRegex.match_result) :
  JsRegex.match_at r i s 0 = Some m →
  ∃ rest,
    JsRegex.replace_loop r i n tpl s (S fuel) 0 0
    = take (JsRegex.m_start m) s ++ JsRegex.get_substitution s n m tpl ++ rest.
Proof.
  intros H. simpl. rewrite (exec_from_hit _ _ _ _ _ _ H).
  rewrite Nat.sub_0_r. eexists. reflexivity.
Qed.

Lemma collapse_slashes_nonempty (l : JsRegex.str) :
  JsRegex.replace_all (JsRegex.Plus (JsRegex.Chr "/")) false 0 "/"
    (JsRegex.to_string ("/"%char :: l)) ≠ "".
Proof.
  unfold JsRegex.replace_all, JsRegex.of_string, JsRegex.to_string.
  rewrite String.list_ascii_of_string_of_list_ascii.
  assert (is_Some (JsRegex.match_at (JsRegex.Plus (JsRegex.Chr "/")) false
                     ("/"%char :: l) 0)) as [m Hm].
  { unfold JsRegex.match_at. simpl. by apply star_loop_is_Some. }
  destruct (replace_loop_hit _ false 0 (String.list_ascii_of_string "/") _
              (length ("/"%char :: l)) m Hm) as [rest ->].
  simpl. by destruct (take (JsRegex.m_start m) ("/"%char :: l)).
Qed.

Lemma starts_with_slash (s : string) :
  JsRegex.startsWith s "/" = true → ∃ l, s = JsRegex.to_string ("/"%char :: l).
Proof.
  unfold JsRegex.startsWith, JsRegex.of_string, JsRegex.to_string.
  destruct s as [| c s]; [done |]. cbn -[Ascii.eqb].
  destruct (Ascii.eqb "/" c) eqn:E; [| done]. apply Ascii.eqb_eq in E as <-.
  intros _. exists (String.list_ascii_of_string s).
  by rewrite String.string_of_list_ascii_of_string.
Qed.

Lemma normalizeRoute_nonempty (route : string) : normalizeRoute route ≠ "".
Proof.
  unfold normalizeRoute.
  set (r1 := JsRegex.replace_first _ _ _ _ route).
  assert (∃ l, (if JsRegex.startsWith r1 "/" then r1 else "/" +:+ r1)
               = JsRegex.to_string ("/"%char :: l)) as [l ->].
  { destruct (JsRegex.startsWith r1 "/") eqn:E; [by apply starts_with_slash |].
    exists (JsRegex.of_string r1). unfold JsRegex.to_string, JsRegex.of_string. simpl.
    by rewrite String.string_of_list_ascii_of_string. }
  destruct (negb _ && _) eqn:E; [| apply collapse_slashes_nonempty].
  unfold JsRegex.of_string, JsRegex.to_string at 2.
  rewrite String.list_ascii_of_string_of_list_ascii.
  destruct l as [| c l].
  - apply andb_true_iff in E as [E _]. by vm_compute in E.
  - apply (collapse_slashes_nonempty (removelast (c :: l))).
Qed.

Lemma inferRoute_nonempty (mapping : RouteMapping) (filePath route : string) :
  inferRoute mapping filePath = Some route → route ≠ "".
Proof.
  unfold inferRoute. generalize (normalizePath mapping filePath) as np.
  induction (patterns mapping) as [| p ps IH]; intros np; simpl; [done |].
  destruct (JsRegex.exec _ _ _); [| apply IH].
  intros [= <-]. apply normalizeRoute_nonempty.
Qed.

(** C8.  The default inferrer maps the four paths of the specification to
    ["/"], ["/user/:id"], ["/docs/*"] and ["/login"].  processDynamicRoute
    erases the route groups first and then applies the four rewrites in
    the order optional catch-all, optional parameter, catch-all,
    parameter; each rewrite does what its name says, and the order is
    what makes the doubly bracketed forms come out right. *)
Theorem C8_inferRoute_equations :
  inferRoute default_mapping "pages/index.tsx" = Some "/"
  ∧ inferRoute default_mapping "pages/user/[id].tsx" = Some "/user/:id"
  ∧ inferRoute default_mapping "pages/docs/[...slug].tsx" = Some "/docs/*"
  ∧ inferRoute default_mapping "pages/(auth)/login.tsx" = Some "/login"
  ∧ (∀ route,
       processDynamicRoute route
       = rewrite_param
           (rewrite_catch_all
              (rewrite_optional_param
                 (rewrite_optional_catch_all (erase_groups route)))))
  ∧ erase_groups "/(auth)/login" = "/login"
  ∧ rewrite_optional_catch_all "/admin/[[...slug]]" = "/admin/*"
  ∧ rewrite_optional_param "/post/[[id]]" = "/post/:id?"
  ∧ rewrite_catch_all "/docs/[...slug]" = "/docs/*"
  ∧ rewrite_param "/user/[id]" = "/user/:id"
  ∧ processDynamicRoute "/admin/[[...slug]]" = "/admin/*"
  ∧ processDynamicRoute "/post/[[id]]" = "/post/:id?"
  ∧ rewrite_catch_all "/admin/[[...slug]]" = "/admin/[*]"
  ∧ rewrite_param "/post/[[id]]" = "/post/[:id]".
Proof.
  do 4 (split; [vm_compute; reflexivity |]).
  split; [intros route; reflexivity |].
  repeat split; vm_compute; reflexivity.
Qed.

End RouteInferenceClaims.

(** ** The update recorder *)

Section PerformanceMonitorClaims.
Import PerformanceMonitor.

Lemma run_cycle_metrics (mon : HMRPerformanceMonitor) (c : cycle) :
  metrics (run_cycle mon c)
  = let pushed := metrics mon ++ [sample_of c] in
    if maxMetrics <? length pushed then drop 1 pushed else pushed.
Proof. reflexivity. Qed.

Lemma run_cycles_snoc (cs : list cycle) (c : cycle) :
  run_cycles (cs ++ [c]) = run_cycle (run_cycles cs) c.
Proof. unfold run_cycles. by rewrite foldl_app. Qed.

(** The buffer after any number of cycles: the samples of the last 100. *)
Lemma run_cycles_metrics (cs : list cycle) :
  metrics (run_cycles cs) = drop (length cs - maxMetrics) (map sample_of cs).
Proof.
  induction cs as [| c cs IH] using rev_ind; [done |].
  rewrite run_cycles_snoc, run_cycle_metrics, IH. cbv zeta.
  rewrite map_app, !length_app, length_drop, length_map. simpl.
  unfold maxMetrics. destruct (decide (100 ≤ length cs)) as [Hge | Hlt].
  - rewrite (proj2 (Nat.ltb_lt _ _)) by lia.
    rewrite drop_app_le by (rewrite length_drop, length_map; lia).
    rewrite drop_drop, drop_app_le by (rewrite length_map; lia).
    do 2 f_equal. lia.
  - rewrite (proj2 (Nat.ltb_ge _ _)) by lia.
    replace (length cs - 100) with 0 by lia.
    replace (length cs + 1 - 100) with 0 by lia. done.
Qed.

Lemma filter_length_le {A} (f : A → bool) (l : list A) :
  length (List.filter f l) ≤ length l.
Proof. induction l as [| x l IH]; simpl; [done |]. destruct (f x); simpl; lia. Qed.

Lemma durations_counted (ms : list PerformanceMetrics) :
  map (λ m, default 0%float (duration m)) (List.filter counts_as_successful ms)
  = counted_durations (recorder_with ms).
Proof.
  unfold counted_durations. simpl.
  induction ms as [| m ms IH]; [done |]. simpl.
  unfold counts_as_successful at 1, duration_truthy.
  destruct (success m); simpl; [| exact IH].
  destruct (duration m) as [d |] eqn:Hd; simpl; [| exact IH].
  destruct (PrimFloat.is_zero d || PrimFloat.is_nan d); simpl; [exact IH |].
  rewrite Hd. simpl. f_equal. exact IH.
Qed.

Lemma counted_durations_metrics (mon : HMRPerformanceMonitor) :
  counted_durations mon = counted_durations (recorder_with (metrics mon)).
Proof. done. Qed.

Lemma filter_app_not_counted (ms1 ms2 : list PerformanceMetrics)
    (m : PerformanceMetrics) :
  counts_as_successful m = false →
  List.filter counts_as_successful (ms1 ++ m :: ms2)
  = List.filter counts_as_successful (ms1 ++ ms2).
Proof. intros Hm. rewrite !List.filter_app. simpl. by rewrite Hm. Qed.

(** C9.  After any sequence of startUpdate/endUpdate cycles the buffer is
    the list of the samples of the last 100 cycles, oldest first, so it
    never holds more than 100 samples and after 150 cycles it holds the
    samples of cycles 51 to 150.  getStats makes its duration figures
    from the counted durations: the durations, in the order of the
    buffer, of the samples whose success field is true and whose duration
    is not zero.  The total is their sum from the left, the average is
    the total divided by their number, and the greatest and the least are
    Math.max and Math.min of them; all four are 0 when there are none.
    successfulUpdates is their number, failedUpdates the number of the
    other samples.  A sample that failed, or whose duration is zero,
    adds one to totalUpdates and to failedUpdates and changes nothing
    else, wherever it stands in the buffer. *)
Theorem C9_recorder_buffer_and_stats :
  (∀ cs : list cycle,
     metrics (run_cycles cs) = drop (length cs - 100) (map sample_of cs)
     ∧ length (metrics (run_cycles cs)) ≤ 100)
  ∧ (∀ cs : list cycle,
       length cs = 150 →
       length (metrics (run_cycles cs)) = 100
       ∧ metrics (run_cycles cs) = map sample_of (drop 50 cs))
  ∧ (∀ mon : HMRPerformanceMonitor,
       let ds := counted_durations mon in
       totalUpdates (getStats mon) = length (metrics mon)
       ∧ successfulUpdates (getStats mon) = length ds
       ∧ failedUpdates (getStats mon) = length (metrics mon) - length ds
       ∧ length ds ≤ length (metrics mon)
       ∧ totalDuration (getStats mon) = foldl PrimFloat.add 0%float ds
       ∧ averageDuration (getStats mon)
         = match ds with
           | [] => 0%float
           | _ => (foldl PrimFloat.add 0 ds / number_of_nat (length ds))%float
           end
       ∧ maxDuration (getStats mon)
         = match ds with [] => 0%float | _ => foldl max_step neg_infinity ds end
       ∧ minDuration (getStats mon)
         = match ds with [] => 0%float | _ => foldl min_step infinity ds end)
  ∧ (∀ (mon : HMRPerformanceMonitor) (d : float),
       d ∈ counted_durations mon →
       ∃ m, m ∈ metrics mon ∧ success m = true ∧ duration m = Some d
            ∧ PrimFloat.is_zero d = false ∧ PrimFloat.is_nan d = false)
  ∧ (∀ (ms1 ms2 : list PerformanceMetrics) (m : PerformanceMetrics),
       success m = false ∨ duration_truthy (duration m) = false →
       let without := getStats (recorder_with (ms1 ++ ms2)) in
       let with_m := getStats (recorder_with (ms1 ++ m :: ms2)) in
       totalUpdates with_m = S (totalUpdates without)
       ∧ failedUpdates with_m = S (failedUpdates without)
       ∧ successfulUpdates with_m = successfulUpdates without
       ∧ averageDuration with_m = averageDuration without
       ∧ minDuration with_m = minDuration without
       ∧ maxDuration with_m = maxDuration without
       ∧ totalDuration with_m = totalDuration without).
Proof.
  split_and!.
  - intros cs. rewrite run_cycles_metrics. split; [done |].
    rewrite length_drop, length_map. unfold maxMetrics. lia.
  - intros cs Hlen. rewrite run_cycles_metrics, Hlen. unfold maxMetrics. simpl.
    split.
    + rewrite length_drop, length_map. lia.
    + rewrite <- !fmap_drop. done.
  - intros mon ds. unfold ds. rewrite counted_durations_metrics.
    unfold getStats. cbn [totalUpdates successfulUpdates failedUpdates
      totalDuration averageDuration maxDuration minDuration].
    rewrite <- durations_counted, length_map.
    pose proof (filter_length_le counts_as_successful (metrics mon)).
    split_and!; try done.
    + destruct (List.filter counts_as_successful (metrics mon)); done.
    + destruct (List.filter counts_as_successful (metrics mon)); done.
    + destruct (List.filter counts_as_successful (metrics mon)); done.
  - intros mon d. unfold counted_durations. rewrite list_elem_of_omap.
    intros (m & Hin & Hd). exists m.
    destruct (success m); [| done]. destruct (duration m) as [d' |]; [| done].
    destruct (PrimFloat.is_zero d') eqn:Hz, (PrimFloat.is_nan d') eqn:Hn;
      simpl in Hd; try done.
    injection Hd as <-. by split_and!.
  - intros ms1 ms2 m Hm without with_m. subst without with_m.
    assert (counts_as_successful m = false) as Hc.
    { unfold counts_as_successful. destruct Hm as [-> | ->]; [done |].
      apply andb_false_r. }
    unfold getStats, recorder_with.
    cbn [metrics totalUpdates successfulUpdates failedUpdates
      totalDuration averageDuration maxDuration minDuration].
    rewrite (filter_app_not_counted _ _ _ Hc).
    pose proof (filter_length_le counts_as_successful (ms1 ++ ms2)) as Hle.
    rewrite !length_app in *. simpl length. split_and!; try done; lia.
Qed.

(** The theorem at 150 cycles, half of which fail, and at a recorder
    with a successful sample whose duration is zero. *)
Lemma C9_witness :
  let cs := map (λ i : nat, mkCycle (number_of_nat i) (number_of_nat i + 5)%float
                              ["a.ts"] "update" (Nat.even i) None) (seq 0 150) in
  let instant := sample_of (mkCycle 7 7 ["b.ts"] "update" true None) in
  length (metrics (run_cycles cs)) = 100
  ∧ totalUpdates (getStats (run_cycles cs)) = 100
  ∧ successfulUpdates (getStats (run_cycles cs)) = 50
  ∧ averageDuration (getStats (run_cycles cs)) = 5%float
  ∧ success instant = true
  ∧ failedUpdates (getStats (recorder_with (metrics (run_cycles cs) ++ [instant])))
    = 51.
Proof.
  cbv zeta.
  set (cs := map (λ i : nat, mkCycle (number_of_nat i) (number_of_nat i + 5)%float
                               ["a.ts"] "update" (Nat.even i) None) (seq 0 150)).
  destruct (proj1 (proj2 (proj2 C9_recorder_buffer_and_stats)) (run_cycles cs))
    as (Ht & Hs & _ & _ & _ & Ha & _).
  split_and!.
  - apply (proj1 (proj2 C9_recorder_buffer_and_stats)). by vm_compute.
  - rewrite Ht. apply (proj1 (proj2 C9_recorder_buffer_and_stats)). by vm_compute.
  - rewrite Hs. by vm_compute.
  - rewrite Ha. by vm_compute.
  - done.
  - destruct (proj2 (proj2 (proj2 (proj2 C9_recorder_buffer_and_stats)))
                (metrics (run_cycles cs)) []
                (sample_of (mkCycle 7 7 ["b.ts"] "update" true None)))
      as (_ & -> & _); [right; by vm_compute |].
    rewrite app_nil_r. by vm_compute.
Defined.

End PerformanceMonitorClaims.

(** ** The change orchestrator *)

Section DevToolsClaims.
Import DevTools.



(** C4, as amended.  With a builder configured, a cycle whose rebuild
    resolves broadcasts exactly one message.  Its route is the route that
    inferRoute gives for the path when a rule matches and ["/"] when none
    does; affectedModules is getAffectedModules of the path;
    moduleId is getModuleId of the path, except for the module-update
    classification, where it is the path itself; the type is the
    classification of the path with config-update turned into reload;
    componentPath and layoutPath are the path for the component-update
    and layout-update classifications and unset otherwise. *)
Theorem C4_update_message (t0 t1 : float) (p : string) (result : BuildResult)
    (dt : DevTools) :
  builder dt = true →
  let updateType := determineUpdateType p in
  let dt' := (onDebounced t0 t1 p (inr result) dt).1 in
  ∃ msg : UpdateMessage,
    broadcasts dt' = broadcasts dt ++ [msg]
    ∧ route msg
      = Some (default "/" (RouteInference.inferRoute RouteInference.default_mapping p))
    ∧ affectedModules msg
      = Some (ModuleGraph.getAffectedModules (moduleGraph dt) p)
    ∧ moduleId msg
      = (if String.eqb updateType "module-update" then Some p
         else ModuleGraph.getModuleId (moduleGraph dt) p)
    ∧ type msg
      = (if String.eqb updateType "config-update" then "reload" else updateType)
    ∧ componentPath msg
      = (if String.eqb updateType "component-update" then Some p else None)
    ∧ layoutPath msg
      = (if String.eqb updateType "layout-update" then Some p else None)
    ∧ path msg = Some p
    ∧ files msg = outputFiles result
    ∧ message msg = None.
Proof.
  intros Hb updateType dt'. subst dt'.
  unfold onDebounced, runRebuildForPath, runRebuildForPath_begin.
  fold updateType. simpl. rewrite Hb. simpl.
  eexists. split; [reflexivity |].
  assert (inferRouteFromPath p
          = default "/" (RouteInference.inferRoute RouteInference.default_mapping p))
    as Hroute.
  { unfold inferRouteFromPath, routeInferrer.
    destruct (RouteInference.inferRoute _ p) as [r |] eqn:Hr; [| done].
    apply inferRoute_nonempty, truthy_true in Hr. by rewrite Hr. }
  unfold buildUpdateMessage. rewrite Hroute. simpl.
  clearbody updateType.
  destruct (String.eqb updateType "config-update") eqn:E1.
  { apply String.eqb_eq in E1 as ->. simpl. by split_and!. }
  destruct (String.eqb updateType "component-update") eqn:E2.
  { apply String.eqb_eq in E2 as ->. simpl. by split_and!. }
  destruct (String.eqb updateType "layout-update") eqn:E3.
  { apply String.eqb_eq in E3 as ->. simpl. by split_and!. }
  destruct (String.eqb updateType "module-update") eqn:E4.
  { apply String.eqb_eq in E4 as ->. simpl. by split_and!. }
  simpl. by split_and!.
Qed.

Lemma C4_witness :
  builder dev_server = true
  ∧ ∃ msg : UpdateMessage,
      broadcasts (onDebounced 0%float 8%float "pages/user/[id].tsx"
                    (inr (mkBuildResult None None None)) dev_server).1 = [msg]
      ∧ type msg = "component-update"
      ∧ route msg = Some "/user/:id"
      ∧ componentPath msg = Some "pages/user/[id].tsx".
Proof.
  split; [reflexivity |].
  destruct (C4_update_message 0%float 8%float "pages/user/[id].tsx"
              (mkBuildResult None None None) dev_server eq_refl)
    as (msg & Hb & Hr & _ & _ & Ht & Hc & _).
  exists msg. split_and!.
  - exact Hb.
  - rewrite Ht. vm_compute. reflexivity.
  - rewrite Hr. vm_compute. reflexivity.
  - rewrite Hc. vm_compute. reflexivity.
Defined.

(** C4 as stated fails for a script outside the route directories: no
    rule of inferRoute matches, and the message carries the route ["/"];
    the classification is module-update, and the message carries the path
    as moduleId, not the id that the graph has for the path. *)
Lemma C4_counterexample_module_update :
  let p := "src/utils/helper.ts" in
  determineUpdateType p = "module-update"
  ∧ RouteInference.inferRoute RouteInference.default_mapping p = None
  ∧ ModuleGraph.getModuleId (moduleGraph dev_server) p = Some "helper"
  ∧ ∃ msg : UpdateMessage,
      broadcasts (onDebounced 0%float 8%float p (inr (mkBuildResult None None None))
                    dev_server).1 = [msg]
      ∧ route msg = Some "/"
      ∧ moduleId msg = Some p.
Proof.
  cbv zeta. split_and!; [vm_compute; reflexivity.. |].
  eexists. split_and!; vm_compute; reflexivity.
Qed.




End DevToolsClaims.

(** ** The browser client *)

Section HmrBrowserClaims.
Import HmrBrowser.

(** *** Merging a batch *)

Lemma insert_by_priority_perm (m : HMRMessage) (l : list HMRMessage) :
  insert_by_priority m l ≡ₚ m :: l.
Proof.
  induction l as [| x l IH]; simpl; [done |].
  destruct (sorts_before m x); [done |].
  rewrite IH. apply Permutation_swap.
Qed.

Lemma stable_sort_perm (l : list HMRMessage) : stable_sort l ≡ₚ l.
Proof.
  induction l as [| x l IH]; simpl; [done |].
  by rewrite insert_by_priority_perm, IH.
Qed.

Lemma numbered_priority (m : HMRMessage) :
  numbered m ↔ priority (type m) = Some (rank m).
Proof.
  unfold numbered, rank, priority.
  destruct (own_priority (type m)) as [n |] eqn:Ho.
  - split; [done |]. intros _.
    unfold own_priority in Ho.
    repeat match type of Ho with
           | (if String.eqb ?t ?x then _ else _) = _ =>
               let E := fresh "E" in
               destruct (String.eqb t x) eqn:E;
               [apply String.eqb_eq in E as ->; reflexivity |]
           end.
    done.
  - destruct (inherited (type m)); by split.
Qed.

Lemma sorts_before_rank (a b : HMRMessage) :
  numbered a → numbered b → sorts_before a b = (rank a <=? rank b).
Proof.
  intros Ha%numbered_priority Hb%numbered_priority.
  unfold sorts_before, comparator. rewrite Ha, Hb.
  destruct (rank a <=? rank b) eqn:E.
  - apply Nat.leb_le in E. apply Z.leb_le. lia.
  - apply Nat.leb_gt in E. apply Z.leb_gt. lia.
Qed.

Lemma by_priority_rank (a b : HMRMessage) :
  numbered a → numbered b → (by_priority a b ↔ rank a ≤ rank b).
Proof.
  intros Ha%numbered_priority Hb%numbered_priority. unfold by_priority. split.
  - intros (x & y & Hx & Hy & Hle). congruence.
  - intros Hle. by exists (rank a), (rank b).
Qed.

Lemma insert_by_priority_sorted (m : HMRMessage) (l : list HMRMessage) :
  numbered m → Forall numbered l →
  StronglySorted by_priority l → StronglySorted by_priority (insert_by_priority m l).
Proof.
  intros Hm Hall. induction 1 as [| x l Hl IH Hx]; simpl.
  - repeat constructor.
  - apply Forall_cons in Hall as [Hnx Hall].
    rewrite sorts_before_rank by done.
    destruct (rank m <=? rank x) eqn:E.
    + apply Nat.leb_le in E. constructor; [by constructor |].
      constructor; [by apply by_priority_rank |].
      rewrite Forall_forall in Hx, Hall. apply Forall_forall. intros y Hy.
      apply by_priority_rank; [done | by apply Hall |].
      specialize (Hx y Hy). apply by_priority_rank in Hx; [lia | done | by apply Hall].
    + apply Nat.leb_gt in E. constructor; [by apply IH |].
      rewrite insert_by_priority_perm. constructor; [| done].
      apply by_priority_rank; [done | done | lia].
Qed.

Lemma stable_sort_sorted (l : list HMRMessage) :
  Forall numbered l → StronglySorted by_priority (stable_sort l).
Proof.
  induction 1 as [| x l Hx Hl IH]; simpl; [constructor |].
  apply insert_by_priority_sorted; [done | by rewrite stable_sort_perm | done].
Qed.

(** With every priority a number the comparator is consistent, and the
    engine has no say. *)
Lemma consistent_numbered (l : list HMRMessage) :
  Forall numbered l → consistent l = true.
Proof.
  intros Hall. unfold consistent. apply orb_true_iff. left.
  apply forallb_forall. intros m Hm%list_elem_of_In.
  rewrite Forall_forall in Hall. specialize (Hall m Hm).
  apply numbered_priority in Hall. rewrite Hall. by apply bool_decide_eq_true.
Qed.

Lemma sort_by_priority_numbered
    (engineSort : list HMRMessage → list HMRMessage) (l : list HMRMessage) :
  Forall numbered l → sort_by_priority engineSort l = stable_sort l.
Proof. intros Hall. unfold sort_by_priority. by rewrite consistent_numbered. Qed.

(** The first message of the sorted batch is a message of the batch with
    the least priority number. *)
Lemma stable_sort_head (l : list HMRMessage) (x : HMRMessage)
    (l' : list HMRMessage) :
  Forall numbered l →
  stable_sort l = x :: l' →
  x ∈ l ∧ ∀ y, y ∈ l → by_priority x y.
Proof.
  intros Hall Hs. pose proof (stable_sort_perm l) as Hp.
  pose proof (stable_sort_sorted l Hall) as Hsorted. rewrite Hs in Hp, Hsorted.
  assert (x ∈ l) as Hx by (rewrite <- Hp; left).
  split; [done |].
  intros y Hy. rewrite <- Hp in Hy. apply elem_of_cons in Hy as [-> | Hy].
  - rewrite Forall_forall in Hall. by apply by_priority_rank; [apply Hall.. |].
  - apply StronglySorted_inv in Hsorted as [_ Hall'].
    by apply (proj1 (Forall_forall _ _) Hall').
Qed.

Lemma stable_sort_nonempty (msgs : list HMRMessage) :
  msgs ≠ [] → stable_sort msgs ≠ [].
Proof.
  intros Hne Hs. pose proof (stable_sort_perm msgs) as Hp. rewrite Hs in Hp.
  by apply Permutation_nil_l in Hp.
Qed.

Lemma collect_files_foldl (acc : list file) (ms : list HMRMessage) :
  foldl (λ acc m, match files m with
                  | Some fs => acc ++ fs
                  | None => acc
                  end) acc ms = acc ++ all_files ms.
Proof.
  revert acc. induction ms as [| m ms IH]; intros acc; unfold all_files; simpl.
  - by rewrite app_nil_r.
  - rewrite IH. unfold all_files.
    destruct (files m); simpl; [by rewrite app_assoc | done].
Qed.

Lemma collect_files_spec (ms : list HMRMessage) : collect_files ms = all_files ms.
Proof. apply (collect_files_foldl [] ms). Qed.

Lemma head_add (x : string) (acc : list string) :
  head (JsSet.add x acc) = match acc with [] => Some x | y :: _ => Some y end.
Proof.
  unfold JsSet.add. destruct (JsSet.has x acc) eqn:E.
  - destruct acc; [| done]. apply has_true in E. by apply elem_of_nil in E.
  - by destruct acc.
Qed.

Lemma collect_head (f : HMRMessage → option string) (acc : list string)
    (ms : list HMRMessage) :
  head (foldl (λ acc m, match f m with
                        | Some p => if truthy p then JsSet.add p acc else acc
                        | None => acc
                        end) acc ms)
  = match acc with
    | y :: _ => Some y
    | [] => first_present f ms
    end.
Proof.
  revert acc. induction ms as [| m ms IH]; intros acc; simpl.
  - by destruct acc.
  - rewrite IH. unfold present. destruct (f m) as [p |]; [| done].
    destruct (truthy p); [| done].
    pose proof (head_add p acc) as H. destruct (JsSet.add p acc), acc; naive_solver.
Qed.

Lemma first_or_head (s : list string) (fallback : option string) :
  first_or s fallback = match head s with Some x => Some x | None => fallback end.
Proof. by destruct s. Qed.

Lemma elem_of_all_files (ms : list HMRMessage) (f : file) :
  f ∈ all_files ms ↔ ∃ m fs, m ∈ ms ∧ files m = Some fs ∧ f ∈ fs.
Proof.
  unfold all_files. induction ms as [| m ms IH]; simpl.
  - split; [by intros ?%elem_of_nil | by intros (? & ? & ?%elem_of_nil & _)].
  - rewrite elem_of_app, IH. split.
    + intros [Hf | (m' & fs & ? & ? & ?)].
      * destruct (files m) as [fs |] eqn:E; [| by apply elem_of_nil in Hf].
        exists m, fs. split_and!; [left | done..].
      * exists m', fs. split_and!; [by right | done..].
    + intros (m' & fs & [-> | ?]%elem_of_cons & Hfs & ?).
      * left. by rewrite Hfs.
      * right. by exists m', fs.
Qed.

(** C5, as amended.  Take a non-empty batch in which no message has a
    type that the priority table inherits a property for.  mergeUpdates
    returns a message built from the primary message, the first message
    of the batch in priority order (arrival order among equal priorities,
    999 for a type that the table has no entry for), which has the least
    priority number of the batch; the engine has no say in the order.
    The merged message has the type and the other scalar properties of
    the primary message; its files are the files of all messages, in
    priority order, when there are any; its path and its route are the
    first non-empty path and route in priority order.  No other path or
    route is attached.  A css-update and a module-update merge into a
    css-update, in either order of arrival.  When the batching timer
    fires on a non-empty queue, the queue is emptied and the merge of its
    messages is what is handled. *)
Theorem C5_merge_by_priority :
  (∀ (engineSort : list HMRMessage → list HMRMessage) (msgs : list HMRMessage),
     msgs ≠ [] →
     Forall numbered msgs →
     ∃ merged primary rest,
       mergeUpdates engineSort msgs = Some merged
       ∧ sort_by_priority engineSort msgs = primary :: rest
       ∧ sort_by_priority engineSort msgs = stable_sort msgs
       ∧ StronglySorted by_priority (primary :: rest)
       ∧ primary :: rest ≡ₚ msgs
       ∧ primary ∈ msgs
       ∧ (∀ m, m ∈ msgs → by_priority primary m)
       ∧ type merged = type primary
       ∧ files merged
         = (if 0 <? length (all_files (primary :: rest))
            then Some (all_files (primary :: rest))
            else files primary)
       ∧ (∀ f, f ∈ all_files (primary :: rest)
               ↔ ∃ m fs, m ∈ msgs ∧ files m = Some fs ∧ f ∈ fs)
       ∧ path merged
         = match first_present path (primary :: rest) with
           | Some p => Some p
           | None => path primary
           end
       ∧ route merged
         = match first_present route (primary :: rest) with
           | Some r => Some r
           | None => route primary
           end
       ∧ message merged = message primary
       ∧ moduleId merged = moduleId primary
       ∧ componentPath merged = componentPath primary
       ∧ layoutPath merged = layoutPath primary)
  ∧ (∀ (engineSort : list HMRMessage → list HMRMessage) (a b : HMRMessage),
       type a = "css-update" → type b = "module-update" →
       sort_by_priority engineSort [a; b] = [a; b]
       ∧ sort_by_priority engineSort [b; a] = [a; b]
       ∧ (∃ merged, mergeUpdates engineSort [a; b] = Some merged
                    ∧ type merged = "css-update")
       ∧ mergeUpdates engineSort [b; a] = mergeUpdates engineSort [a; b])
  ∧ (∀ (engineSort : list HMRMessage → list HMRMessage) (e : env) (c : HMRClient),
       updateQueue c ≠ [] →
       (processQueue engineSort e c).2
       = handleMergedUpdate e <$> mergeUpdates engineSort (updateQueue c)
       ∧ updateQueue (processQueue engineSort e c).1 = []).
Proof.
  split_and!.
  - intros engineSort msgs Hne Hnum.
    pose proof (sort_by_priority_numbered engineSort msgs Hnum) as Hsort.
    destruct msgs as [| m1 [| m2 msgs]]; [done | |].
    + (* one message: it is returned as it is *)
      apply Forall_cons in Hnum as [Hn1 _].
      exists m1, m1, []. simpl. unfold all_files. simpl. rewrite app_nil_r.
      split_and!; try done.
      * repeat constructor.
      * left.
      * intros m ->%list_elem_of_singleton. by apply by_priority_rank.
      * destruct (files m1) as [[| f fs] |]; done.
      * intros f. rewrite <- (elem_of_all_files [m1] f). unfold all_files. simpl.
        by rewrite app_nil_r.
      * unfold present. destruct (path m1) as [q |]; [by destruct (truthy q) | done].
      * unfold present. destruct (route m1) as [q |]; [by destruct (truthy q) | done].
    + set (msgs' := m1 :: m2 :: msgs) in *.
      destruct (stable_sort msgs') as [| primary rest] eqn:Hs.
      { by apply stable_sort_nonempty in Hs. }
      destruct (stable_sort_head _ _ _ Hnum Hs) as [Hin Hmin].
      pose proof (stable_sort_sorted msgs' Hnum) as Hsorted.
      pose proof (stable_sort_perm msgs') as Hperm.
      rewrite Hs in Hsorted, Hperm.
      eexists _, primary, rest. unfold mergeUpdates. fold msgs'. rewrite Hsort.
      split_and!; try done; simpl.
      * by rewrite collect_files_spec.
      * intros f. rewrite elem_of_all_files. setoid_rewrite Hperm. done.
      * rewrite first_or_head. unfold collect_paths. by rewrite (collect_head path).
      * rewrite first_or_head. unfold collect_routes. by rewrite (collect_head route).
  - intros engineSort a b Ha Hb.
    assert (numbered a) as Hna by (unfold numbered; by rewrite Ha).
    assert (numbered b) as Hnb by (unfold numbered; by rewrite Hb).
    assert (rank a = 2) as Hra by (unfold rank; by rewrite Ha).
    assert (rank b = 5) as Hrb by (unfold rank; by rewrite Hb).
    assert (sort_by_priority engineSort [a; b] = [a; b]) as Hab.
    { rewrite sort_by_priority_numbered by (by repeat constructor).
      simpl. by rewrite sorts_before_rank, Hra, Hrb. }
    assert (sort_by_priority engineSort [b; a] = [a; b]) as Hba.
    { rewrite sort_by_priority_numbered by (by repeat constructor).
      simpl. by rewrite sorts_before_rank, Hra, Hrb. }
    split_and!; [done | done | |].
    + unfold mergeUpdates. rewrite Hab. eexists. split; [done |]. simpl. done.
    + unfold mergeUpdates. by rewrite Hab, Hba.
  - intros engineSort e c Hq. unfold processQueue. by destruct (updateQueue c).
Qed.

Lemma C5_witness :
  [module_message; css_message] ≠ []
  ∧ Forall numbered [module_message; css_message]
  ∧ ∀ engineSort : list HMRMessage → list HMRMessage,
      ∃ merged,
        mergeUpdates engineSort [module_message; css_message] = Some merged
        ∧ type merged = "css-update".
Proof.
  assert (Forall numbered [module_message; css_message]) as Hnum.
  { repeat constructor. }
  split; [done |]. split; [exact Hnum |]. intros engineSort.
  destruct (proj1 C5_merge_by_priority engineSort [module_message; css_message])
    as (merged & primary & rest & Hm & Hs & _ & _ & _ & _ & _ & Ht & _);
    [done | exact Hnum |].
  exists merged. split; [exact Hm |].
  rewrite Ht. vm_compute in Hs. by injection Hs as <- _.
Defined.

(** C5 as stated fails on the batch of a module-update that is followed
    by a css-update.  The merged message carries the path and the route of
    the css-update only: the path and the route of the module-update,
    which came first, are nowhere in it.  It fails as well on a batch
    with a message whose type names a property that the priority table
    inherits, such as constructor: the comparator gives NaN, the sort
    keeps the order of arrival, and the merged message has the type of
    that message and not the type with the lowest priority number. *)
Lemma C5_counterexample_paths_not_united :
  (∃ merged,
     (∀ engineSort, mergeUpdates engineSort [module_message; css_message] = Some merged)
     ∧ path module_message = Some "src/util.ts"
     ∧ route module_message = Some "/about"
     ∧ path merged = Some "src/app.css"
     ∧ route merged = Some "/"
     ∧ "src/util.ts" ∉ carried_strings merged
     ∧ "/about" ∉ carried_strings merged)
  ∧ (∃ merged,
       (∀ engineSort,
          mergeUpdates engineSort [constructor_message; css_message] = Some merged)
       ∧ priority (type constructor_message) = None
       ∧ priority (type css_message) = Some 2
       ∧ type merged = "constructor").
Proof.
  split.
  - eexists. split; [intros engineSort; vm_compute; reflexivity |].
    split_and!; try reflexivity;
      vm_compute; intros H; repeat (apply elem_of_cons in H as [H | H]; [discriminate |]);
      by apply elem_of_nil in H.
  - eexists. split; [intros engineSort; vm_compute; reflexivity |].
    split_and!; reflexivity.
Qed.

Lemma compare_segments_Forall2 (rs cs : list string) :
  length rs = length cs →
  compare_segments rs cs = true ↔ Forall2 segment_ok rs cs.
Proof.
  revert cs. induction rs as [| r rs IH]; intros [| c cs] Hlen; simpl in *;
    try discriminate.
  - split; [constructor | done].
  - injection Hlen as Hlen. specialize (IH cs Hlen).
    rewrite Forall2_cons. unfold segment_ok at 1.
    destruct (JsRegex.startsWith r ":") eqn:E1; simpl.
    { rewrite IH. tauto. }
    destruct (String.eqb r "*") eqn:E2; simpl.
    { apply String.eqb_eq in E2. rewrite IH. tauto. }
    apply String.eqb_neq in E2.
    destruct (String.eqb r c) eqn:E3; simpl.
    + apply String.eqb_eq in E3. rewrite IH. tauto.
    + apply String.eqb_neq in E3. split; [done |]. intros [[? | [? | ?]] _]; done.
Qed.

Lemma segment_ok_refl (l : list string) : Forall2 segment_ok l l.
Proof. induction l; constructor; [right; by right | done]. Qed.

(** The comparison with the location path is the segment-wise match of
    the specification; the test for equal strings that comes first is a
    case of it. *)
Lemma matchesLocation_spec (currentPath route : string) :
  matchesLocation currentPath route = true ↔ segmentwise_match currentPath route.
Proof.
  unfold matchesLocation, segmentwise_match.
  destruct (String.eqb (normalizeRoute currentPath) (normalizeRoute route)) eqn:E.
  - apply String.eqb_eq in E. rewrite E. split; [intros _; apply segment_ok_refl | done].
  - destruct (length (segments (normalizeRoute currentPath))
              =? length (segments (normalizeRoute route))) eqn:El; simpl.
    + apply Nat.eqb_eq in El. by apply compare_segments_Forall2.
    + apply Nat.eqb_neq in El. split; [done |].
      intros H%Forall2_length. congruence.
Qed.

Lemma handleUpdate_Dropped (e : env) (m : HMRMessage) :
  handleUpdate e m = Dropped
  ↔ present (route m) = true ∧ isCurrentRoute e (default "" (route m)) = false.
Proof.
  unfold handleUpdate.
  destruct (present (route m)); simpl.
  - destruct (isCurrentRoute e (default "" (route m))); simpl; [| tauto].
    destruct (moduleHot e), (viteHmr e), (files m) as [[| ? ?] |],
      (present (componentPath m) || present (layoutPath m)); naive_solver.
  - destruct (moduleHot e), (viteHmr e), (files m) as [[| ? ?] |],
      (present (componentPath m) || present (layoutPath m)); naive_solver.
Qed.

(** C6, as amended.  An update of type [update] that carries a non-empty
    route is dropped exactly when the route does not match the current
    route; where no render-context URL is injected the current route is
    the location path and the match is the segment-wise match of the
    specification.  An update of type [update] without a route is never
    dropped.  Messages of type component-update, layout-update and
    module-update are not compared with any route: the page is reloaded.
    With the location path /user/123 and no render-context URL, an update
    with route /user/:id is applied and one with route /post/1 is
    dropped. *)
Theorem C6_route_gating :
  (∀ (e : env) (m : HMRMessage) (r : string),
     type m = "update" → route m = Some r → r ≠ "" →
     present (renderDataUrl e) = false →
     handleMergedUpdate e m = Dropped ↔ ¬ segmentwise_match (locationPathname e) r)
  ∧ (∀ (e : env) (m : HMRMessage) (r : string),
       type m = "update" → route m = Some r → r ≠ "" →
       handleMergedUpdate e m = Dropped ↔ isCurrentRoute e r = false)
  ∧ (∀ (e : env) (m : HMRMessage),
       type m = "update" → present (route m) = false →
       handleMergedUpdate e m ≠ Dropped)
  ∧ (∀ (e : env) (m : HMRMessage),
       type m = "component-update" ∨ type m = "layout-update"
       ∨ type m = "module-update" →
       handleMergedUpdate e m = PageReloaded)
  ∧ (∀ (e : env) (m : HMRMessage),
       type m = "update" → present (renderDataUrl e) = false →
       locationPathname e = "/user/123" →
       (route m = Some "/user/:id" → handleMergedUpdate e m ≠ Dropped)
       ∧ (route m = Some "/post/1" → handleMergedUpdate e m = Dropped)).
Proof.
  assert (∀ e r, present (renderDataUrl e) = false →
                 isCurrentRoute e r = matchesLocation (locationPathname e) r) as Hloc.
  { intros e r He. unfold isCurrentRoute, present in *.
    destruct (renderDataUrl e) as [url |]; [by rewrite He | done]. }
  assert (∀ e m r, type m = "update" → route m = Some r → r ≠ "" →
            handleMergedUpdate e m = Dropped ↔ isCurrentRoute e r = false) as Hgate.
  { intros e m r Ht Hr Hne. unfold handleMergedUpdate. rewrite Ht. simpl.
    rewrite handleUpdate_Dropped, Hr. simpl.
    apply truthy_true in Hne. rewrite Hne. tauto. }
  split_and!.
  - intros e m r Ht Hr Hne He. rewrite (Hgate e m r Ht Hr Hne), (Hloc e r He).
    rewrite <- matchesLocation_spec. by destruct (matchesLocation _ _).
  - exact Hgate.
  - intros e m Ht Hr. unfold handleMergedUpdate. rewrite Ht. simpl.
    rewrite handleUpdate_Dropped, Hr. by intros [? _].
  - intros e m [Ht | [Ht | Ht]]; unfold handleMergedUpdate; by rewrite Ht.
  - intros e m Ht He Hl. split; intros Hr.
    + rewrite (Hgate e m _ Ht Hr) by done. rewrite (Hloc e _ He), Hl. by vm_compute.
    + rewrite (Hgate e m _ Ht Hr) by done. rewrite (Hloc e _ He), Hl. by vm_compute.
Qed.

Lemma C6_witness :
  handleMergedUpdate user_page (update_for "/user/:id") = PageReloaded
  ∧ handleMergedUpdate user_page (update_for "/post/1") = Dropped
  ∧ ¬ segmentwise_match "/user/123" "/post/1".
Proof.
  split; [by vm_compute |].
  pose proof (proj1 C6_route_gating user_page (update_for "/post/1") "/post/1"
                eq_refl eq_refl ltac:(discriminate) eq_refl) as H.
  assert (handleMergedUpdate user_page (update_for "/post/1") = Dropped) as Hd
    by (by vm_compute).
  split; [exact Hd | exact (proj1 H Hd)].
Defined.

(** C6 as stated fails for a component-update: the page shows /user/123,
    the message is for the route /post/1, which does not match, and the
    page is reloaded all the same.  It also fails where a render-context
    URL is injected: that URL is compared for equality only, and an
    update for /user/:id is dropped on the page /user/123. *)
Lemma C6_counterexample_component_update :
  ¬ segmentwise_match "/user/123" "/post/1"
  ∧ handleMergedUpdate user_page
      (mkMsg "component-update" (Some "pages/post/[id].tsx") None None None
         (Some "pages/post/[id].tsx") None (Some "/post/1"))
    = PageReloaded
  ∧ segmentwise_match "/user/123" "/user/:id"
  ∧ handleMergedUpdate (mkEnv (Some "/user/123") "/user/123" false false)
      (update_for "/user/:id")
    = Dropped.
Proof.
  split_and!.
  - rewrite <- matchesLocation_spec. by vm_compute.
  - by vm_compute.
  - apply matchesLocation_spec. by vm_compute.
  - by vm_compute.
Qed.

(** *** Reconnecting *)

(** C7.  After a successful connect the n-th attempt to reconnect in a
    row, for n from 1 to 10, is scheduled with a delay of
    min(1000 * 1.5^(n-1), 30000) milliseconds, which is 1000, 1500, 2250
    and 3375 for the first four; when ten attempts have failed the next
    close schedules nothing; a successful connect sets the attempt
    counter to 0 and the delay to 1000. *)
Theorem C7_reconnect_backoff :
  (∀ (c : HMRClient) (n : nat),
     1 ≤ n ≤ 10 →
     scheduled (fail_times n (onopen c))
       (Qmin (1000 * (3 # 2) ^ (Z.of_nat n - 1)) 30000)
     ∧ reconnectAttempts (fail_times n (onopen c)) = n)
  ∧ (∀ c : HMRClient,
       scheduled (fail_times 1 (onopen c)) 1000
       ∧ scheduled (fail_times 2 (onopen c)) 1500
       ∧ scheduled (fail_times 3 (onopen c)) 2250
       ∧ scheduled (fail_times 4 (onopen c)) 3375)
  ∧ (∀ c : HMRClient, reconnectTimer (fail_times 11 (onopen c)) = None)
  ∧ (∀ c : HMRClient,
       reconnectAttempts c = 10 → reconnectTimer (scheduleReconnect c) = None)
  ∧ (∀ c : HMRClient,
       reconnectAttempts (onopen c) = 0 ∧ reconnectDelay (onopen c) = 1000%Q).
Proof.
  split_and!.
  - intros c n [Hlo Hhi].
    do 11 (destruct n as [| n]; [try lia; split; vm_compute; reflexivity |]).
    lia.
  - intros c. split_and!; vm_compute; reflexivity.
  - intros c. vm_compute. reflexivity.
  - intros c Hc. unfold scheduleReconnect. rewrite Hc. reflexivity.
  - intros c. split; reflexivity.
Qed.

Lemma C7_witness :
  1 ≤ 10 ≤ 10
  ∧ scheduled (fail_times 10 (onopen create))
      (Qmin (1000 * (3 # 2) ^ (Z.of_nat 10 - 1)) 30000).
Proof.
  assert (1 ≤ 10 ≤ 10) as H by lia.
  split; [exact H | exact (proj1 (proj1 C7_reconnect_backoff create 10 H))].
Defined.

End HmrBrowserClaims.

(** * Further properties of the code *)

(** ** The dependency graph: idempotence, round trip, order of the result *)

Section ModuleGraphMore.
Import ModuleGraph.
Implicit Types (g : ModuleGraph) (m f d j : string) (ds : list string).

Lemma add_present (x : string) (s : list string) : x ∈ s → JsSet.add x s = s.
Proof. intros H. unfold JsSet.add. by rewrite (proj2 (has_true x s) H). Qed.

Lemma add_absent (x : string) (s : list string) : x ∉ s → JsSet.add x s = s ++ [x].
Proof.
  intros H. unfold JsSet.add. destruct (JsSet.has x s) eqn:E; [| done].
  by apply has_true in E.
Qed.

Lemma delete_absent (x : string) (s : list string) : x ∉ s → JsSet.delete x s = s.
Proof.
  unfold JsSet.delete. induction s as [| y s IH]; intros H; [done |].
  apply not_elem_of_cons in H as [Hne Hs].
  rewrite filter_cons_True by done. by rewrite IH.
Qed.

Lemma delete_add_absent (x : string) (s : list string) :
  x ∉ s → JsSet.delete x (JsSet.add x s) = s.
Proof.
  intros H. rewrite (add_absent x s H). unfold JsSet.delete.
  rewrite filter_app. fold (JsSet.delete x s). rewrite (delete_absent x s H).
  rewrite filter_cons_False by (intros Hne; by apply Hne).
  by rewrite filter_nil, app_nil_r.
Qed.

(** The value that the loop of [addModule] leaves under a key. *)
Lemma foldl_addModule_step_lookup_exact m ds (e : list string)
    (R : gmap string (list string)) j :
  (foldl (addModule_step m) (e, R) ds).2 !! j
  = if decide (j ∈ ds) then Some (JsSet.add m (default [] (R !! j))) else R !! j.
Proof.
  revert e R. induction ds as [| d ds IH]; intros e R; [done |].
  change (foldl (addModule_step m) (e, R) (d :: ds))
    with (foldl (addModule_step m)
            (JsSet.add d e, <[d:=JsSet.add m (default [] (R !! d))]> R) ds).
  rewrite IH. destruct (decide (j = d)) as [-> | Hne].
  - rewrite lookup_insert_eq. simpl.
    destruct (decide (d ∈ d :: ds)) as [_ | []]; [| left].
    case_decide; [| done]. f_equal. apply add_present, elem_of_add. by left.
  - rewrite lookup_insert_ne by done.
    destruct (decide (j ∈ ds)), (decide (j ∈ d :: ds)) as [Hin | Hnin]; try done.
    + exfalso. apply Hnin. by right.
    + apply elem_of_cons in Hin as [? | ?]; done.
Qed.

Lemma foldl_addModule_step_fixed m ds (e : list string)
    (R : gmap string (list string)) :
  (∀ d, d ∈ ds → d ∈ e ∧ ∃ s, R !! d = Some s ∧ m ∈ s) →
  foldl (addModule_step m) (e, R) ds = (e, R).
Proof.
  induction ds as [| d ds IH]; intros H; [done |].
  destruct (H d) as (He & s & Hs & Hm); [left |].
  change (foldl (addModule_step m) (e, R) (d :: ds))
    with (foldl (addModule_step m)
            (JsSet.add d e, <[d:=JsSet.add m (default [] (R !! d))]> R) ds).
  rewrite (add_present d e He), Hs. simpl. rewrite (add_present m s Hm).
  rewrite (insert_id R d s Hs). apply IH. intros d' Hd'. apply H. by right.
Qed.

(** X1.  addModule is idempotent: a second call with the same arguments
    leaves the graph as the first call made it, whatever the graph was. *)
Theorem addModule_idempotent g m f ds :
  addModule m f ds (addModule m f ds g) = addModule m f ds g.
Proof.
  unfold addModule at 1.
  set (g1 := addModule m f ds g).
  assert (dependencies g1 !! m
          = Some (foldl (λ acc d, JsSet.add d acc)
                    (default [] (dependencies g !! m)) ds)) as Hdeps.
  { unfold g1, addModule. simpl.
    by rewrite lookup_insert_eq, foldl_addModule_step_fst. }
  rewrite Hdeps. simpl.
  rewrite foldl_addModule_step_fixed.
  - unfold g1, addModule at 1. simpl. rewrite !insert_insert_eq.
    by rewrite foldl_addModule_step_fst.
  - intros d Hd. split.
    + apply foldl_add_elem_of. by right.
    + unfold g1, addModule. simpl. rewrite foldl_addModule_step_lookup_exact.
      rewrite decide_True by done. eexists. split; [done |].
      apply elem_of_add. by left.
Qed.

(** A module that no map knows is removed without any change. *)
Lemma removeModule_absent g m :
  moduleToFile g !! m = None → dependencies g !! m = None →
  dependents g !! m = None →
  removeModule m g = g.
Proof.
  intros Hf Hd Hr. unfold removeModule. rewrite Hf, Hd. simpl. rewrite Hr.
  rewrite (delete_id _ _ Hf). by destruct g.
Qed.

Lemma removeModule_moduleToFile g m :
  moduleToFile (removeModule m g) = delete m (moduleToFile g).
Proof.
  unfold removeModule. destruct (dependencies g !! m); simpl;
    repeat match goal with |- context [match ?o with Some _ => _ | None => _ end] =>
             destruct o; simpl end; done.
Qed.

Lemma removeModule_fileToModule g m :
  fileToModule (removeModule m g)
  = match moduleToFile g !! m with
    | Some p => if truthy p then delete p (fileToModule g) else fileToModule g
    | None => fileToModule g
    end.
Proof.
  unfold removeModule. destruct (dependencies g !! m); simpl;
    match goal with |- context [match ?o !! m with Some _ => _ | None => _ end] =>
      destruct (o !! m); simpl end; done.
Qed.

(** X2.  removeModule is idempotent, and on a module that is in none of
    the maps it changes nothing. *)
Theorem removeModule_idempotent g m :
  removeModule m (removeModule m g) = removeModule m g
  ∧ (moduleToFile g !! m = None → dependencies g !! m = None →
     dependents g !! m = None → removeModule m g = g).
Proof.
  split; [| apply removeModule_absent].
  apply removeModule_absent.
  - rewrite removeModule_moduleToFile. apply lookup_delete_eq.
  - rewrite removeModule_dependencies_lookup. by rewrite decide_True.
  - rewrite removeModule_dependents_lookup. by rewrite decide_True.
Qed.

Lemma removeModule_idempotent_witness :
  let g := run [AddModule "a" "a.ts" ["b"]] in
  removeModule "c" g = g.
Proof.
  apply (proj2 (removeModule_idempotent (run [AddModule "a" "a.ts" ["b"]]) "c"));
    by vm_compute.
Defined.

Lemma no_empty_dependents_foldl ops g :
  no_empty_dependents g → no_empty_dependents (foldl apply_op g ops).
Proof.
  revert g. induction ops as [| o ops IH]; intros g Hg; [done |].
  apply IH. destruct o as [m f ds | m]; intros k; simpl.
  - unfold addModule. simpl. rewrite foldl_addModule_step_lookup_exact.
    case_decide; [| apply Hg]. intros [= Heq].
    assert (m ∈ JsSet.add m (default [] (dependents g !! k))) as Hin
      by (apply elem_of_add; by left).
    rewrite Heq in Hin. by apply elem_of_nil in Hin.
  - rewrite removeModule_dependents_lookup.
    repeat case_decide; [done | | apply Hg]. by intros (? & _)%stripped_Some.
Qed.

Lemma no_elements_nil (s : list string) : (∀ x, x ∉ s) → s = [].
Proof. destruct s as [| y s]; [done |]. intros H. exfalso. apply (H y). left. Qed.

(** X3.  Round trip.  In a state that the operations lead to, let [m] be a
    module that none of the maps knows and [f] a non-empty path that is
    not registered.  Then addModule followed by removeModule gives the
    state back. *)
Theorem addModule_removeModule_round_trip (ops : list op) m f ds :
  let g := run ops in
  moduleToFile g !! m = None → dependencies g !! m = None →
  dependents g !! m = None → fileToModule g !! f = None → f ≠ "" →
  removeModule m (addModule m f ds g) = g.
Proof.
  intros g Hf Hd Hr Hp Hne.
  assert (mirrored g) as Hmir by apply (mirrored_foldl ops empty mirrored_empty).
  assert (no_empty_dependents g) as Hnonempty.
  { apply (no_empty_dependents_foldl ops empty). intros k. by simpl. }
  set (g1 := addModule m f ds g).
  assert (dependencies g1 !! m = Some (foldl (λ acc d, JsSet.add d acc) [] ds))
    as Hdeps1.
  { unfold g1, addModule. simpl.
    by rewrite lookup_insert_eq, foldl_addModule_step_fst, Hd. }
  assert (∀ j, j ∈ default [] (dependencies g1 !! m) ↔ j ∈ ds) as Hin1.
  { intros j. rewrite Hdeps1. simpl. rewrite foldl_add_elem_of.
    split; [by intros [?%elem_of_nil | ?] | by right]. }
  assert (∀ j, dependents g1 !! j
               = if decide (j ∈ ds)
                 then Some (JsSet.add m (default [] (dependents g !! j)))
                 else dependents g !! j) as Hdpts1.
  { intros j. unfold g1, addModule. simpl. apply foldl_addModule_step_lookup_exact. }
  assert (∀ j, m ∉ default [] (dependents g !! j)) as Hfresh.
  { intros j Hin. apply elem_of_default_nil in Hin.
    apply Hmir in Hin as (s & Hs & _). congruence. }
  assert (dependents_after_first_loop g1 m = None) as Hsecond.
  { unfold dependents_after_first_loop. rewrite Hdpts1.
    destruct (decide (m ∈ default [] (dependencies g1 !! m))) as [Hm | Hm].
    - rewrite decide_True by (by apply Hin1). simpl.
      rewrite (delete_add_absent m _ (Hfresh m)). by rewrite Hr.
    - rewrite decide_False by (by rewrite <- Hin1). done. }
  assert (dependencies (removeModule m g1) = dependencies g) as HD.
  { apply map_eq. intros j. rewrite removeModule_dependencies_lookup, Hsecond.
    simpl. destruct (decide (j = m)) as [-> |]; [done |].
    unfold g1, addModule. simpl. by rewrite lookup_insert_ne. }
  assert (dependents (removeModule m g1) = dependents g) as HR.
  { apply map_eq. intros j. rewrite removeModule_dependents_lookup.
    destruct (decide (j = m)) as [-> |]; [done |].
    rewrite Hdpts1. destruct (decide (j ∈ ds)) as [Hj | Hj].
    - rewrite decide_True by (by apply Hin1). simpl.
      rewrite (delete_add_absent m _ (Hfresh j)).
      destruct (dependents g !! j) as [[| x s] |] eqn:E; simpl; try done.
      by destruct (Hnonempty j).
    - by rewrite decide_False by (by rewrite Hin1). }
  assert (moduleToFile (removeModule m g1) = moduleToFile g) as HMF.
  { rewrite removeModule_moduleToFile. unfold g1, addModule. simpl.
    by apply delete_insert_id. }
  assert (fileToModule (removeModule m g1) = fileToModule g) as HFM.
  { rewrite removeModule_fileToModule. unfold g1, addModule. simpl.
    rewrite lookup_insert_eq, (proj2 (truthy_true f) Hne).
    by apply delete_insert_id. }
  clearbody g. destruct (removeModule m g1), g. simpl in *. by subst.
Qed.

Lemma addModule_removeModule_round_trip_witness :
  let g := run [AddModule "a" "a.ts" ["b"]; AddModule "b" "b.ts" []] in
  removeModule "c" (addModule "c" "c.ts" ["a"; "b"; "c"] g) = g.
Proof.
  apply (addModule_removeModule_round_trip
           [AddModule "a" "a.ts" ["b"]; AddModule "b" "b.ts" []]
           "c" "c.ts" ["a"; "b"; "c"]); by vm_compute.
Defined.

(** The traversal only appends to the sets that it fills. *)
Lemma visit_all_prefix (visit : string → list string * list string
                                → option (list string * list string)) :
  (∀ id st st', visit id st = Some st' → st.1 `prefix_of` st'.1) →
  ∀ ds st st', visit_all visit ds st = Some st' → st.1 `prefix_of` st'.1.
Proof.
  intros Hv. induction ds as [| d ds IH]; intros st st' Hrun; simpl in Hrun.
  - by injection Hrun as <-.
  - destruct (visit d st) as [st1 |] eqn:E; [| done].
    etrans; [by eapply Hv | by eapply IH].
Qed.

Lemma collectDependents_prefix g (fuel : nat) :
  ∀ id st st', collectDependents g fuel id st = Some st' → st.1 `prefix_of` st'.1.
Proof.
  induction fuel as [| fuel IH]; intros id st st' Hrun; simpl in Hrun; [done |].
  destruct (JsSet.has id st.1) eqn:Hhas; [by injection Hrun as <- |].
  assert (st.1 `prefix_of` JsSet.add id st.1) as Hadd.
  { unfold JsSet.add. rewrite Hhas. by apply prefix_app_r. }
  destruct (dependents g !! id).
  - etrans; [exact Hadd |]. by apply (visit_all_prefix _ IH) in Hrun.
  - by injection Hrun as <-.
Qed.

Lemma collectDependents_head g (fuel : nat) id (l l' : list string) :
  collectDependents g fuel id ([], []) = Some (l, l') → ∃ rest, l = id :: rest.
Proof.
  destruct fuel as [| fuel]; simpl; [done |].
  destruct (dependents g !! id).
  - intros Hrun. apply (visit_all_prefix _ (collectDependents_prefix g fuel)) in Hrun.
    destruct Hrun as [rest Hrest]. simpl in Hrest. by exists rest.
  - intros [= <- _]. by exists [].
Qed.

(** What getAffectedModules returns for a path whose id is a non-empty
    string. *)
Lemma getAffectedModules_registered g f m :
  getModuleId g f = Some m → m ≠ "" →
  ∃ rest, getAffectedModules g f = m :: rest
          ∧ NoDup (m :: rest)
          ∧ ∀ x, x ∈ m :: rest ↔ reach g m x.
Proof.
  intros Hm Hne. unfold getAffectedModules, getAffectedModules_fuel.
  rewrite Hm, (proj2 (truthy_true m) Hne).
  destruct (collectDependents_top g (fuel_bound g) m (le_n _))
    as (l & Hrun & Hnd & Hl).
  destruct (collectDependents_head _ _ _ _ _ Hrun) as [rest ->].
  rewrite Hrun. simpl. by exists rest.
Qed.

(** X4.  For a path that is registered under a non-empty id, the result
    of getAffectedModules starts with that id, holds every direct
    dependent of it, and is that id alone when it has no dependents. *)
Theorem getAffectedModules_changed_module_first g f m :
  getModuleId g f = Some m → m ≠ "" →
  ∃ rest,
    getAffectedModules g f = m :: rest
    ∧ (∀ d, d ∈ getDependents g m → d ∈ m :: rest)
    ∧ (getDependents g m = [] → rest = []).
Proof.
  intros Hm Hne.
  destruct (getAffectedModules_registered g f m Hm Hne) as (rest & Hres & Hnd & Hl).
  exists rest. split_and!; [done | |].
  - intros d Hd. apply Hl. apply rtc_once.
    unfold getDependents in Hd. by apply elem_of_default_nil in Hd.
  - intros Hleaf. apply no_elements_nil. intros x Hx.
    assert (x ∈ m :: rest) as Hx' by (by right).
    apply Hl in Hx'. apply rtc_inv in Hx' as [-> | (y & Hy & _)].
    + by apply NoDup_cons in Hnd as [? _].
    + apply elem_of_default_nil in Hy. fold (getDependents g m) in Hy.
      rewrite Hleaf in Hy. by apply elem_of_nil in Hy.
Qed.

Lemma getAffectedModules_changed_module_first_witness :
  let g := run [AddModule "a" "a.ts" ["b"]; AddModule "b" "b.ts" ["a"; "c"];
                AddModule "c" "c.ts" []] in
  ∃ rest, getAffectedModules g "c.ts" = "c" :: rest ∧ "b" ∈ "c" :: rest.
Proof.
  cbv zeta.
  destruct (getAffectedModules_changed_module_first
              (run [AddModule "a" "a.ts" ["b"]; AddModule "b" "b.ts" ["a"; "c"];
                    AddModule "c" "c.ts" []]) "c.ts" "c")
    as (rest & Hres & Hdep & _); [by vm_compute | done |].
  exists rest. split; [exact Hres |]. apply Hdep. vm_compute. left.
Defined.

(** X5.  In a state that the operations lead to, a module that has been
    removed is not among the modules that a change of the file of any
    other module affects. *)
Theorem removed_module_not_affected (ops : list op) m f m' :
  let g' := removeModule m (run ops) in
  getModuleId g' f = Some m' → m' ≠ m → m ∉ getAffectedModules g' f.
Proof.
  intros g' Hm' Hne Hin.
  assert (mirrored (run ops)) as Hmir by apply (mirrored_foldl ops empty mirrored_empty).
  destruct (decide (m' = "")) as [-> | Hne'].
  { unfold getAffectedModules, getAffectedModules_fuel in Hin.
    rewrite Hm' in Hin. simpl in Hin. by apply elem_of_nil in Hin. }
  destruct (getAffectedModules_registered g' f m' Hm' Hne') as (rest & Hres & _ & Hl).
  rewrite Hres in Hin. apply Hl in Hin.
  apply rtc_inv_r in Hin as [-> | (x & _ & Hx)]; [done |].
  assert (bwd g' m x) as Hb by exact Hx.
  apply bwd_removeModule in Hb; [tauto | done].
Qed.

Lemma removed_module_not_affected_witness :
  let ops := [AddModule "a" "a.ts" ["b"]; AddModule "b" "b.ts" ["c"];
              AddModule "c" "c.ts" []] in
  "b" ∉ getAffectedModules (removeModule "b" (run ops)) "c.ts".
Proof.
  apply (removed_module_not_affected
           [AddModule "a" "a.ts" ["b"]; AddModule "b" "b.ts" ["c"];
            AddModule "c" "c.ts" []] "b" "c.ts" "c"); [by vm_compute | done].
Defined.

End ModuleGraphMore.

(** ** The update recorder: any order of calls, recent samples, statistics *)

Section PerformanceMonitorMore.
Import PerformanceMonitor.

Lemma endUpdate_length (now : float) (ok : bool) (err : option string)
    (mon : HMRPerformanceMonitor) :
  length (metrics mon) ≤ 100 →
  length (metrics (endUpdate now ok err mon)) ≤ 100
  ∧ length (metrics (endUpdate now ok err mon)) + in_flight (endUpdate now ok err mon)
    ≤ length (metrics mon) + in_flight mon.
Proof.
  intros Hlen. unfold endUpdate, in_flight.
  destruct (currentUpdate mon) as [cur |] eqn:E; simpl; [| rewrite E; lia].
  rewrite length_app. simpl. unfold maxMetrics, shift.
  destruct (100 <? length (metrics mon) + 1) eqn:Hcap.
  - apply Nat.ltb_lt in Hcap. rewrite length_drop, length_app. simpl. lia.
  - apply Nat.ltb_ge in Hcap. rewrite length_app. simpl. lia.
Qed.

(** X6.  Whatever the order of startUpdate, endUpdate and clear calls,
    the buffer never holds more than 100 samples, and it never holds more
    samples than there were startUpdate calls: a startUpdate that comes
    before the sample in flight is closed replaces that sample, and an
    endUpdate with no sample in flight records nothing. *)
Theorem recorder_any_order (cs : list call) :
  length (metrics (run_calls cs)) ≤ 100
  ∧ length (metrics (run_calls cs)) + in_flight (run_calls cs)
    ≤ length (List.filter is_start cs).
Proof.
  unfold run_calls. induction cs as [| c cs IH] using rev_ind; [unfold in_flight; simpl; lia |].
  rewrite foldl_app, List.filter_app, length_app. simpl.
  destruct IH as [IH1 IH2]. set (mon := foldl apply_call create cs) in *.
  destruct c as [now paths type | now ok err |]; simpl.
  - unfold in_flight in *. simpl. destruct (currentUpdate mon); lia.
  - destruct (endUpdate_length now ok err mon IH1). lia.
  - unfold in_flight. simpl. lia.
Qed.

(** X7.  getRecentMetrics(count) for a positive count returns the [count]
    newest samples, newest first, or all samples when there are fewer;
    getRecentMetrics(0) returns all samples, not none; right after a
    cycle the first sample returned is the sample of that cycle. *)
Theorem getRecentMetrics_newest_first :
  (∀ (mon : HMRPerformanceMonitor) (count : nat),
     0 < count →
     getRecentMetrics count mon = take count (reverse (metrics mon))
     ∧ length (getRecentMetrics count mon) = count `min` length (metrics mon))
  ∧ (∀ mon : HMRPerformanceMonitor,
       getRecentMetrics 0 mon = reverse (metrics mon))
  ∧ (∀ (mon : HMRPerformanceMonitor) (c : cycle) (count : nat),
       0 < count →
       head (getRecentMetrics count (run_cycle mon c)) = Some (sample_of c)).
Proof.
  assert (∀ mon count, 0 < count →
            getRecentMetrics count mon = take count (reverse (metrics mon))) as Htake.
  { intros mon [| n] Hc; [lia |]. unfold getRecentMetrics. by rewrite take_reverse. }
  split_and!.
  - intros mon count Hc. split; [by apply Htake |].
    rewrite (Htake mon count Hc), length_take, length_reverse. done.
  - intros mon. unfold getRecentMetrics. by rewrite drop_0.
  - intros mon c count Hc. rewrite (Htake _ count Hc), run_cycle_metrics. cbv zeta.
    destruct count as [| n]; [lia |].
    destruct (maxMetrics <? length (metrics mon ++ [sample_of c])) eqn:E.
    + apply Nat.ltb_lt in E. rewrite length_app in E. simpl in E.
      unfold maxMetrics in E.
      destruct (metrics mon) as [| x l]; simpl in *; [lia |].
      by rewrite drop_0, reverse_snoc.
    + by rewrite reverse_snoc.
Qed.

Lemma getRecentMetrics_newest_first_witness :
  let mon := run_cycles [mkCycle 0 5 ["a.ts"] "update" true None;
                         mkCycle 7 9 ["b.ts"] "update" true None] in
  0 < 1 ∧ length (getRecentMetrics 1 mon) = 1 ∧ length (getRecentMetrics 0 mon) = 2.
Proof.
  cbv zeta. split; [lia |]. split.
  - rewrite (proj2 (proj1 getRecentMetrics_newest_first _ 1 ltac:(lia))).
    by vm_compute.
  - by vm_compute.
Defined.

(** X8.  When no sample counts as successful, the average, least,
    greatest and total duration of getStats are 0.  The average is
    computed in floating point, the sum first and the division after, so
    it does not always lie between the least and the greatest duration:
    three successful samples of a tenth of a millisecond each have an
    average above their maximum. *)
Theorem getStats_average_rounds :
  (∀ mon : HMRPerformanceMonitor,
     successfulUpdates (getStats mon) = 0 →
     averageDuration (getStats mon) = 0%float ∧ minDuration (getStats mon) = 0%float
     ∧ maxDuration (getStats mon) = 0%float ∧ totalDuration (getStats mon) = 0%float)
  ∧ (∃ cs : list cycle,
       let stats := getStats (run_cycles cs) in
       successfulUpdates stats = 3
       ∧ failedUpdates stats = 0
       ∧ minDuration stats = maxDuration stats
       ∧ (maxDuration stats <? averageDuration stats)%float = true).
Proof.
  split.
  - intros mon. unfold getStats. simpl.
    destruct (List.filter counts_as_successful (metrics mon)); [done | by simpl].
  - exists (replicate 3 (mkCycle 0 (1 / 10) ["a.ts"] "update" true None)).
    cbv zeta. split_and!; vm_compute; reflexivity.
Qed.

Lemma getStats_average_rounds_witness :
  successfulUpdates (getStats create) = 0 ∧ averageDuration (getStats create) = 0%float.
Proof.
  split; [reflexivity |].
  exact (proj1 (proj1 getStats_average_rounds create eq_refl)).
Defined.

End PerformanceMonitorMore.

(** ** The change orchestrator: message types, overlapping rebuilds *)

Section DevToolsMore.
Import DevTools.

Lemma determineUpdateType_cases (p : string) :
  determineUpdateType p
  ∈ ["config-update"; "css-update"; "layout-update"; "component-update";
     "module-update"; "update"].
Proof.
  unfold determineUpdateType.
  repeat match goal with |- context [if ?b then _ else _] => destruct b end;
    set_solver.
Qed.

Lemma determineUpdateType_config (p : string) :
  isConfigFile p = true ↔ determineUpdateType p = "config-update".
Proof.
  unfold determineUpdateType. destruct (isConfigFile p); [done |].
  split; [done |].
  repeat match goal with |- context [if ?b then _ else _] => destruct b end; done.
Qed.

Lemma inferRouteFromPath_nonempty (p : string) : inferRouteFromPath p ≠ "".
Proof.
  unfold inferRouteFromPath.
  destruct (RouteInference.inferRoute _ p) as [r |] eqn:Hr; [| done].
  apply inferRoute_nonempty in Hr. by rewrite (proj2 (truthy_true r) Hr).
Qed.

Lemma buildUpdateMessage_fields (dt : DevTools) (p u : string)
    (result : BuildResult) :
  type (buildUpdateMessage dt p u result)
  = (if String.eqb u "config-update" then "reload" else u)
  ∧ path (buildUpdateMessage dt p u result) = Some p
  ∧ route (buildUpdateMessage dt p u result) = Some (inferRouteFromPath p).
Proof.
  unfold buildUpdateMessage.
  repeat match goal with |- context [String.eqb u ?x] =>
           destruct (String.eqb u x) end; done.
Qed.

(** X9.  Whatever the path, the builder setting and the way the rebuild
    settles, a debounced change broadcasts exactly one message, and its
    type is one of reload, css-update, layout-update, component-update,
    module-update, update and error: config-update never goes out.  The
    type is error exactly when a builder is configured and the rebuild
    rejects; any other message carries the path and a non-empty route;
    a change of a configuration file that is not answered by error is
    answered by reload.  The path has no timer registered afterwards.
    Without a builder the message is css-update or reload, the recorder
    is left alone and no promise chain is started. *)
Theorem onDebounced_message_types (t0 t1 : float) (p : string)
    (o : rejection + BuildResult) (dt : DevTools) :
  let r := onDebounced t0 t1 p o dt in
  ∃ msg : UpdateMessage,
    broadcasts r.1 = broadcasts dt ++ [msg]
    ∧ type msg ∈ wire_types
    ∧ type msg ≠ "config-update"
    ∧ (type msg = "error" ↔ builder dt = true ∧ succeeded o = false)
    ∧ (type msg ≠ "error" →
       path msg = Some p ∧ ∃ rt, route msg = Some rt ∧ rt ≠ "")
    ∧ (isConfigFile p = true → type msg ≠ "error" → type msg = "reload")
    ∧ p ∉ rebuildTimers r.1
    ∧ (builder dt = false →
       type msg = (if String.eqb (determineUpdateType p) "css-update"
                   then "css-update" else "reload")
       ∧ performanceMonitor r.1 = performanceMonitor dt
       ∧ r.2 = None).
Proof.
  intros r. subst r.
  unfold onDebounced, runRebuildForPath, runRebuildForPath_begin. simpl.
  pose proof (determineUpdateType_cases p) as Hc.
  pose proof (determineUpdateType_config p) as Hcfg.
  pose proof (inferRouteFromPath_nonempty p) as Hne.
  set (u := determineUpdateType p) in *. clearbody u.
  assert (u = "config-update" ∨ u = "css-update" ∨ u = "layout-update"
          ∨ u = "component-update" ∨ u = "module-update" ∨ u = "update")
    as Hu by set_solver.
  clear Hc.
  destruct (builder dt) eqn:Hb; simpl.
  - destruct o as [e | result]; simpl.
    + eexists. split; [reflexivity |]. simpl.
      split_and!; try done; [set_solver | set_solver].
    + eexists. split; [reflexivity |].
      destruct (buildUpdateMessage_fields
                  (with_monitor
                     (PerformanceMonitor.startUpdate t0 [p] u (performanceMonitor dt))
                     (delete_timer p (delete_timer p dt))) p u result)
        as (-> & -> & ->).
      split_and!.
      * destruct Hu as [-> | [-> | [-> | [-> | [-> | ->]]]]]; set_solver.
      * destruct Hu as [-> | [-> | [-> | [-> | [-> | ->]]]]]; done.
      * split; [| by intros [_ ?]].
        destruct Hu as [-> | [-> | [-> | [-> | [-> | ->]]]]]; done.
      * intros _. eauto.
      * intros ->%Hcfg. done.
      * set_solver.
      * done.
  - eexists. split; [reflexivity |]. simpl.
    split_and!.
    + destruct (String.eqb u "css-update"); set_solver.
    + destruct (String.eqb u "css-update"); done.
    + split; [| by intros [? _]]. destruct (String.eqb u "css-update"); done.
    + intros _. eauto.
    + intros ->%Hcfg. done.
    + set_solver.
    + done.
Qed.

Lemma onDebounced_message_types_witness :
  isConfigFile "deno.json" = true
  ∧ ∃ msg : UpdateMessage,
      broadcasts (onDebounced 0%float 8%float "deno.json"
                    (inr (mkBuildResult None None None)) dev_server).1 = [msg]
      ∧ type msg = "reload".
Proof.
  split; [vm_compute; reflexivity |].
  destruct (onDebounced_message_types 0%float 8%float "deno.json"
              (inr (mkBuildResult None None None)) dev_server)
    as (msg & Hb & _ & _ & He & _ & Hr & _).
  exists msg. split; [exact Hb |].
  apply Hr; [vm_compute; reflexivity |].
  intros Herr. apply He in Herr as [_ Hs]. discriminate Hs.
Defined.

(** X10.  The recorder has one slot for the sample in flight.  When the
    rebuild for a second path begins before the rebuild for a first path
    has settled, the two cycles leave one sample, not two.  It has the
    path, type and start time of the rebuild that began second, and the
    end time and outcome of the rebuild that settles first, whichever of
    the two that is; the settling that comes second records nothing.
    Both messages are still broadcast, in the order of settling. *)
Theorem overlapping_rebuilds_one_sample (dt : DevTools) (ta tb t1 t2 : float)
    (pa pb ua ub : string) (oa ob : rejection + BuildResult) :
  builder dt = true →
  let dt1 := (runRebuildForPath_begin ta pa ua dt).1 in
  let dt2 := (runRebuildForPath_begin tb pb ub dt1).1 in
  let a_then_b :=
    (rebuild_settled t2 pb ub ob (rebuild_settled t1 pa ua oa dt2).1).1 in
  let b_then_a :=
    (rebuild_settled t2 pa ua oa (rebuild_settled t1 pb ub ob dt2).1).1 in
  performanceMonitor a_then_b
  = PerformanceMonitor.run_cycle (performanceMonitor dt)
      (PerformanceMonitor.mkCycle tb t1 [pb] ub (succeeded oa) (failure_text oa))
  ∧ broadcasts a_then_b = broadcasts dt ++ [reply dt pa ua oa; reply dt pb ub ob]
  ∧ performanceMonitor b_then_a
    = PerformanceMonitor.run_cycle (performanceMonitor dt)
        (PerformanceMonitor.mkCycle tb t1 [pb] ub (succeeded ob) (failure_text ob))
  ∧ broadcasts b_then_a = broadcasts dt ++ [reply dt pb ub ob; reply dt pa ua oa].
Proof.
  intros Hb. cbv zeta.
  unfold runRebuildForPath_begin. simpl. rewrite Hb. simpl. rewrite Hb. simpl.
  destruct oa as [ea | ra], ob as [eb | rb]; simpl;
    (split_and!; [reflexivity | by rewrite <- app_assoc
                 | reflexivity | by rewrite <- app_assoc]).
Qed.

Lemma overlapping_rebuilds_one_sample_witness :
  builder dev_server = true
  ∧ length (PerformanceMonitor.metrics (performanceMonitor
      (rebuild_settled 9%float "b.css" "css-update" (inr (mkBuildResult None None None))
         (rebuild_settled 8%float "a.css" "css-update" (inl (ErrorObject "boom"))
            (runRebuildForPath_begin 1%float "b.css" "css-update"
               (runRebuildForPath_begin 0%float "a.css" "css-update" dev_server).1).1).1).1))
    = 1.
Proof.
  split; [reflexivity |].
  rewrite (proj1 (overlapping_rebuilds_one_sample dev_server 0%float 1%float 8%float 9%float
                    "a.css" "b.css" "css-update" "css-update"
                    (inl (ErrorObject "boom")) (inr (mkBuildResult None None None))
                    eq_refl)).
  reflexivity.
Defined.

End DevToolsMore.

(** ** The watch loop: debounce timers *)

Section WatchLoopMore.
Import WatchLoop.
Implicit Types (w : watcher) (ignore : option (list string)) (e : FsEvent).

Lemma lookup_foldr_delete {V} (m : gmap nat V) (l : list nat) (i : nat) :
  foldr delete m l !! i = if decide (i ∈ l) then None else m !! i.
Proof.
  induction l as [| x l IH].
  - destruct (decide (i ∈ [])) as [Hin |]; [by apply elem_of_nil in Hin | done].
  - simpl foldr. destruct (decide (x = i)) as [-> | Hne].
    + rewrite lookup_delete_eq. by rewrite decide_True by set_solver.
    + rewrite lookup_delete_ne by done. rewrite IH.
      destruct (decide (i ∈ l)).
      * by rewrite decide_True by set_solver.
      * by rewrite decide_False by set_solver.
Qed.

Lemma timers_agree_init : timers_agree init.
Proof. split; simpl; intros *; rewrite ?lookup_empty; by try intros [? ?]. Qed.

Lemma timers_agree_on_event ignore e w :
  timers_agree w → timers_agree (on_event ignore e w).
Proof.
  intros [Ha Hb Hc]. unfold on_event.
  destruct (_ || _); [| by split]. destruct (isIgnored _ _); [by split |].
  set (p := first_path e). set (u := DevTools.determineUpdateType p).
  assert (∀ id q v, pending w !! id = Some (q, v) → q ≠ p →
            match rebuildTimers w !! p with
            | Some existing => delete existing (pending w)
            | None => pending w
            end !! id = Some (q, v)) as Hkeep.
  { intros id q v Hid Hq. destruct (rebuildTimers w !! p) as [ex |] eqn:Hex; [| done].
    rewrite lookup_delete_ne; [done |]. intros <-.
    destruct (Ha _ _ Hex) as [v' Hv']. congruence. }
  assert (∀ id q v,
            match rebuildTimers w !! p with
            | Some existing => delete existing (pending w)
            | None => pending w
            end !! id = Some (q, v) →
            pending w !! id = Some (q, v) ∧ q ≠ p) as Hkept.
  { intros id q v. destruct (rebuildTimers w !! p) as [ex |] eqn:Hex.
    - intros [Hne Hid]%lookup_delete_Some. split; [done |]. intros ->.
      apply Hb in Hid. congruence.
    - intros Hid. split; [done |]. intros ->. apply Hb in Hid. congruence. }
  split; simpl.
  - intros q id. destruct (decide (q = p)) as [-> | Hq].
    + rewrite lookup_insert_eq. intros [= <-]. exists u. by rewrite lookup_insert_eq.
    + rewrite lookup_insert_ne by done. intros Hid.
      destruct (Ha _ _ Hid) as [v Hv]. exists v.
      rewrite lookup_insert_ne; [by apply Hkeep |].
      intros <-. assert (next_id w < next_id w); [| lia]. apply Hc. by eexists.
  - intros id q v. destruct (decide (id = next_id w)) as [-> | Hid].
    + rewrite lookup_insert_eq. intros [= <- <-]. by rewrite lookup_insert_eq.
    + rewrite lookup_insert_ne by done. intros [Hv Hq]%Hkept.
      rewrite lookup_insert_ne by done. by eapply Hb.
  - intros id. destruct (decide (id = next_id w)) as [-> | Hid]; [lia |].
    rewrite lookup_insert_ne by done. intros [[q v] [Hv _]%Hkept].
    assert (id < next_id w); [| lia]. apply Hc. by eexists.
Qed.

Lemma timers_agree_timer_fires id w :
  timers_agree w → timers_agree (timer_fires id w).
Proof.
  intros [Ha Hb Hc]. unfold timer_fires.
  destruct (pending w !! id) as [[p u] |] eqn:Hid; [| by split].
  split; simpl.
  - intros q i. rewrite !lookup_delete_Some. intros (Hq & _ & Hi).
    destruct (Ha _ _ Hi) as [v Hv]. exists v.
    rewrite lookup_delete_ne; [done |]. intros <-. congruence.
  - intros i q v. rewrite !lookup_delete_Some. intros [Hne Hi].
    pose proof (Hb _ _ _ Hi) as Hq. pose proof (Hb _ _ _ Hid) as Hp.
    assert (p ≠ q) by (intros <-; congruence). done.
  - intros i [v [_ Hv]%lookup_delete_Some]. apply Hc. by eexists.
Qed.

Lemma stop_pending_empty w : timers_agree w → pending (stop w) = ∅.
Proof.
  intros [Ha Hb Hc]. apply map_eq. intros i. rewrite lookup_empty. simpl.
  rewrite lookup_foldr_delete. case_decide as Hin; [done |].
  destruct (pending w !! i) as [[p u] |] eqn:Hi; [| done].
  exfalso. apply Hin. apply Hb in Hi.
  apply list_elem_of_fmap. exists (p, i). split; [done |].
  by apply elem_of_map_to_list.
Qed.

Lemma timers_agree_stop w : timers_agree w → timers_agree (stop w).
Proof.
  intros H. pose proof (stop_pending_empty w H) as He.
  split; intros *; rewrite ?He; simpl; rewrite ?lookup_empty; by try intros [? ?].
Qed.

Lemma timers_agree_steps ignore (steps : list step) w :
  timers_agree w → timers_agree (foldl (apply_step ignore) w steps).
Proof.
  revert w. induction steps as [| s steps IH]; intros w H; [done |].
  apply IH. destruct s; simpl;
    auto using timers_agree_on_event, timers_agree_timer_fires, timers_agree_stop.
Qed.

Lemma timers_agree_run ignore (steps : list step) : timers_agree (run ignore steps).
Proof. apply timers_agree_steps, timers_agree_init. Qed.

Lemma on_event_accepted ignore e w :
  accepted ignore (FileEvent e) = true →
  on_event ignore e w
  = mkWatcher (<[first_path e := next_id w]> (rebuildTimers w))
      (<[next_id w := (first_path e, DevTools.determineUpdateType (first_path e))]>
         match rebuildTimers w !! first_path e with
         | Some existing => delete existing (pending w)
         | None => pending w
         end)
      (S (next_id w)) (rebuilds w).
Proof.
  unfold accepted, on_event. intros [-> Hi%negb_true_iff]%andb_true_iff.
  by rewrite Hi.
Qed.

Lemma on_event_not_accepted ignore e w :
  accepted ignore (FileEvent e) = false → on_event ignore e w = w.
Proof.
  unfold accepted, on_event. destruct (_ || _); [| done]. simpl.
  by intros ->%negb_false_iff.
Qed.

(** Every accepted event accounts for at most one pending timer or one
    rebuild. *)
Lemma rebuilds_bounded_steps ignore (steps : list step) w :
  timers_agree w →
  length (rebuilds (foldl (apply_step ignore) w steps))
  + size (pending (foldl (apply_step ignore) w steps))
  ≤ length (rebuilds w) + size (pending w)
    + length (List.filter (accepted ignore) steps).
Proof.
  revert w. induction steps as [| s steps IH]; intros w H; [simpl; lia |].
  assert (timers_agree (apply_step ignore w s)) as H'.
  { destruct s; simpl;
      auto using timers_agree_on_event, timers_agree_timer_fires, timers_agree_stop. }
  simpl foldl. etrans; [apply (IH _ H') |]. simpl List.filter.
  destruct s as [e | id |].
  - destruct (accepted ignore (FileEvent e)) eqn:Hacc.
    + simpl apply_step. rewrite (on_event_accepted _ _ _ Hacc). simpl.
      rewrite map_size_insert_None.
      * assert (size match rebuildTimers w !! first_path e with
                     | Some existing => delete existing (pending w)
                     | None => pending w
                     end ≤ size (pending w)); [| lia].
        destruct (rebuildTimers w !! first_path e); [| done].
        rewrite map_size_delete. destruct (pending w !! _); simpl; unfold id; lia.
      * destruct H as [_ _ Hc].
        assert (pending w !! next_id w = None) as Hnone.
        { destruct (pending w !! next_id w) eqn:E; [| done].
          assert (next_id w < next_id w); [| lia]. apply Hc. by eexists. }
        destruct (rebuildTimers w !! first_path e); [| done].
        rewrite lookup_delete_None. by right.
    + simpl apply_step. rewrite (on_event_not_accepted _ _ _ Hacc). lia.
  - simpl. unfold timer_fires.
    destruct (pending w !! id) as [[q u] |] eqn:Hid; [| lia]. simpl.
    rewrite length_app, map_size_delete, Hid. simpl.
    assert (size (pending w) ≠ 0); [| lia].
    apply map_size_non_empty_iff. intros He. by rewrite He, lookup_empty in Hid.
  - simpl apply_step. rewrite (stop_pending_empty _ H), map_size_empty. simpl. lia.
Qed.

(** A rebuild is only ever asked for a path that is not ignored, with
    the update type of that path. *)
Lemma rebuilds_provenance_steps ignore (steps : list step) w :
  let ok := λ pu : string * string,
              pu.2 = DevTools.determineUpdateType pu.1
              ∧ isIgnored ignore pu.1 = false in
  (∀ id pu, pending w !! id = Some pu → ok pu) →
  (∀ pu, pu ∈ rebuilds w → ok pu) →
  (∀ id pu, pending (foldl (apply_step ignore) w steps) !! id = Some pu → ok pu)
  ∧ (∀ pu, pu ∈ rebuilds (foldl (apply_step ignore) w steps) → ok pu).
Proof.
  intros ok. revert w. induction steps as [| s steps IH]; intros w Hp Hr; [done |].
  simpl foldl. apply IH; destruct s as [e | id |]; simpl.
  - destruct (accepted ignore (FileEvent e)) eqn:Hacc.
    + rewrite (on_event_accepted _ _ _ Hacc). simpl. intros id pu.
      destruct (decide (id = next_id w)) as [-> | Hne].
      * rewrite lookup_insert_eq. intros [= <-]. split; [done |]. simpl.
        unfold accepted in Hacc. apply andb_true_iff in Hacc as [_ Hi].
        by apply negb_true_iff in Hi.
      * rewrite lookup_insert_ne by done.
        destruct (rebuildTimers w !! first_path e); [| apply Hp].
        intros [_ Hid]%lookup_delete_Some. by eapply Hp.
    + by rewrite (on_event_not_accepted _ _ _ Hacc).
  - unfold timer_fires. destruct (pending w !! id) as [[q u] |] eqn:Hid; [| done].
    simpl. intros i pu [_ Hi]%lookup_delete_Some. by eapply Hp.
  - intros id pu. rewrite lookup_foldr_delete. case_decide; [done | apply Hp].
  - destruct (accepted ignore (FileEvent e)) eqn:Hacc.
    + by rewrite (on_event_accepted _ _ _ Hacc).
    + by rewrite (on_event_not_accepted _ _ _ Hacc).
  - unfold timer_fires. destruct (pending w !! id) as [[q u] |] eqn:Hid; [| done].
    simpl. intros pu [Hin | ->%list_elem_of_singleton]%elem_of_app; [by apply Hr |].
    by eapply Hp.
  - done.
Qed.

(** X11.  In every state that file events, timer callbacks and stop lead
    to, the timer map of the class holds exactly the timers that are
    pending in the runtime: a path has at most one pending timer and no
    entry outlives its timer.  Every accepted event accounts for at most
    one rebuild, a rebuild is only asked for a path that is not ignored
    and with the update type of that path, and after stop no timer is
    pending, so that no callback runs any more. *)
Theorem watch_loop_timers ignore (steps : list step) :
  let w := run ignore steps in
  (∀ p id, rebuildTimers w !! p = Some id ↔ ∃ u, pending w !! id = Some (p, u))
  ∧ length (rebuilds w) + size (pending w)
    ≤ length (List.filter (accepted ignore) steps)
  ∧ (∀ p u, (p, u) ∈ rebuilds w →
       u = DevTools.determineUpdateType p ∧ isIgnored ignore p = false)
  ∧ pending (stop w) = ∅
  ∧ rebuildTimers (stop w) = ∅
  ∧ (∀ id, timer_fires id (stop w) = stop w).
Proof.
  intros w. pose proof (timers_agree_run ignore steps) as H. fold w in H.
  split_and!.
  - intros p id. split; [apply H |]. intros [u Hu]. by eapply pending_registered.
  - pose proof (rebuilds_bounded_steps ignore steps init timers_agree_init) as Hle.
    simpl in Hle. rewrite map_size_empty in Hle. apply Hle.
  - intros p u Hin.
    destruct (rebuilds_provenance_steps ignore steps init) as [_ Hr].
    + intros id pu. simpl. by rewrite lookup_empty.
    + intros pu. simpl. by intros ?%elem_of_nil.
    + apply (Hr (p, u) Hin).
  - by apply stop_pending_empty.
  - done.
  - intros id. unfold timer_fires. by rewrite (stop_pending_empty w H), lookup_empty.
Qed.

Lemma watch_loop_timers_witness :
  let steps := [FileEvent (mkEvent "modify" (Some ["src/app.css"]));
                FileEvent (mkEvent "modify" (Some ["src/app.css"]));
                TimerFires 0; TimerFires 1] in
  ("src/app.css", "css-update") ∈ rebuilds (run None steps)
  ∧ "css-update" = DevTools.determineUpdateType "src/app.css".
Proof.
  cbv zeta.
  assert (("src/app.css", "css-update")
          ∈ rebuilds (run None
              [FileEvent (mkEvent "modify" (Some ["src/app.css"]));
               FileEvent (mkEvent "modify" (Some ["src/app.css"]));
               TimerFires 0; TimerFires 1])) as Hin.
  { vm_compute. apply list_elem_of_singleton. reflexivity. }
  split; [exact Hin |].
  exact (proj1 (proj1 (proj2 (proj2 (watch_loop_timers None _))) _ _ Hin)).
Defined.

Lemma burst_state ignore e (n : nat) w :
  timers_agree w →
  accepted ignore (FileEvent e) = true →
  let w' := foldl (apply_step ignore) w (replicate (S n) (FileEvent e)) in
  rebuildTimers w' !! first_path e = Some (next_id w + n)
  ∧ next_id w' = next_id w + S n
  ∧ rebuilds w' = rebuilds w
  ∧ pending w' !! (next_id w + n)
    = Some (first_path e, DevTools.determineUpdateType (first_path e)).
Proof.
  intros _ Hacc. induction n as [| n IH].
  - simpl. rewrite (on_event_accepted _ _ _ Hacc). simpl.
    rewrite Nat.add_0_r, !lookup_insert_eq. split_and!; [done | lia | done | done].
  - cbv zeta in *. destruct IH as (_ & Hn & Hr & _).
    set (w1 := foldl (apply_step ignore) w (replicate (S n) (FileEvent e))) in *.
    assert (foldl (apply_step ignore) w (replicate (S (S n)) (FileEvent e))
            = on_event ignore e w1) as ->.
    { unfold w1. by rewrite (replicate_S_end (S n)), foldl_app. }
    clearbody w1. rewrite (on_event_accepted _ _ _ Hacc). simpl.
    rewrite Hn, Hr, !lookup_insert_eq. split_and!; [done | lia | done | done].
Qed.

(** X12.  Debounce.  When a path changes several times in a row before
    any timer of the burst fires, the changes leave one pending timer for
    the path, the one of the last change; the earlier timers of the
    burst, and a timer that was pending for the path before, are
    cleared.  When the timer fires, runRebuildForPath is called once, and
    the path has no timer and no entry in the map afterwards. *)
Theorem burst_gives_one_rebuild ignore (steps : list step) e (n : nat) :
  accepted ignore (FileEvent e) = true →
  let w := run ignore steps in
  let p := first_path e in
  let w' := foldl (apply_step ignore) w (replicate (S n) (FileEvent e)) in
  let last := next_id w + n in
  rebuilds w' = rebuilds w
  ∧ rebuildTimers w' !! p = Some last
  ∧ (∀ id u, pending w' !! id = Some (p, u) → id = last)
  ∧ rebuilds (timer_fires last w') = rebuilds w ++ [(p, DevTools.determineUpdateType p)]
  ∧ rebuildTimers (timer_fires last w') !! p = None
  ∧ (∀ id u, pending (timer_fires last w') !! id ≠ Some (p, u)).
Proof.
  intros Hacc w p w' last.
  pose proof (timers_agree_run ignore steps) as H. fold w in H.
  destruct (burst_state ignore e n w H Hacc) as (Hreg & _ & Hr & Hpend).
  fold w' p last in Hreg, Hr, Hpend.
  pose proof (timers_agree_steps ignore (replicate (S n) (FileEvent e)) w H) as H'.
  fold w' in H'.
  assert (∀ id u, pending w' !! id = Some (p, u) → id = last) as Huniq.
  { intros id u Hid. apply (pending_registered _ H') in Hid. congruence. }
  split_and!; try done.
  - unfold timer_fires. rewrite Hpend. simpl. by rewrite Hr.
  - unfold timer_fires. rewrite Hpend. simpl. apply lookup_delete_eq.
  - intros id u. unfold timer_fires. rewrite Hpend. simpl.
    intros [Hne Hid]%lookup_delete_Some. apply Huniq in Hid. congruence.
Qed.

Lemma burst_gives_one_rebuild_witness :
  let e := mkEvent "modify" (Some ["src/app.css"]) in
  accepted (Some ["node_modules"]) (FileEvent e) = true
  ∧ rebuilds (timer_fires (next_id (run (Some ["node_modules"]) []) + 2)
                (foldl (apply_step (Some ["node_modules"]))
                   (run (Some ["node_modules"]) [])
                   (replicate 3 (FileEvent e))))
    = [("src/app.css", "css-update")].
Proof.
  cbv zeta. split; [vm_compute; reflexivity |].
  rewrite (proj1 (proj2 (proj2 (proj2
    (burst_gives_one_rebuild (Some ["node_modules"]) []
       (mkEvent "modify" (Some ["src/app.css"])) 2 ltac:(vm_compute; reflexivity)))))).
  vm_compute. reflexivity.
Defined.

End WatchLoopMore.

(** ** The replacement of one character by another *)

Section ReplaceCharacter.
Import JsRegex.
Implicit Types (c d x : ascii) (s l : str).

Lemma of_string_to_string l : of_string (to_string l) = l.
Proof. apply String.list_ascii_of_string_of_list_ascii. Qed.

Lemma to_string_of_string (t : string) : to_string (of_string t) = t.
Proof. apply String.string_of_list_ascii_of_string. Qed.

Lemma of_string_app (a b : string) : of_string (a +:+ b) = of_string a ++ of_string b.
Proof. induction a as [| x a IH]; simpl; [done |]. by rewrite <- IH. Qed.

Lemma to_string_app l1 l2 : to_string (l1 ++ l2) = to_string l1 +:+ to_string l2.
Proof. induction l1 as [| x l1 IH]; simpl; [done |]. by rewrite IH. Qed.

Lemma match_at_Chr c s (i : nat) :
  match_at (Chr c) false s i
  = match drop i s with
    | x :: _ => if Ascii.eqb c x then Some (mkMatch i (S i) []) else None
    | [] => None
    end.
Proof. unfold match_at. simpl. by destruct (drop i s). Qed.

(** The scan for the first [c] at or after position [i]. *)
Lemma exec_from_Chr c s (fuel i : nat) :
  fuel = length s - i → i ≤ length s →
  exec_from (Chr c) false s fuel i
  = match list_find (λ x, x = c) (drop i s) with
    | Some (k, _) => Some (mkMatch (i + k) (S (i + k)) [])
    | None => None
    end.
Proof.
  revert i. induction fuel as [| fuel IH]; intros i Hf Hi.
  - assert (drop i s = []) as Hd by (apply drop_ge; lia).
    simpl. rewrite match_at_Chr, Hd. done.
  - simpl. rewrite match_at_Chr.
    destruct (drop i s) as [| x rest] eqn:Hd.
    { apply (f_equal length) in Hd. rewrite length_drop in Hd. simpl in Hd. lia. }
    assert (drop (S i) s = rest) as Hrest.
    { replace (S i) with (i + 1) by lia. by rewrite <- drop_drop, Hd. }
    simpl list_find. destruct (Ascii.eqb c x) eqn:E.
    + apply Ascii.eqb_eq in E as ->. rewrite decide_True by done.
      by rewrite Nat.add_0_r.
    + apply Ascii.eqb_neq in E. rewrite decide_False by done.
      rewrite IH, Hrest by lia.
      destruct (list_find _ rest) as [[k y] |]; simpl; [| done].
      by replace (i + S k) with (S (i + k)) by lia.
Qed.

Lemma map_fixed {A} (f : A → A) (xs : list A) :
  (∀ a, a ∈ xs → f a = a) → map f xs = xs.
Proof.
  induction xs as [| a xs IH]; intros H; simpl; [done |].
  rewrite H by left. rewrite IH; [done |]. intros y Hy. apply H. by right.
Qed.

Lemma replace_loop_Chr c d s (fuel i : nat) :
  Ascii.eqb d "$" = false →
  i ≤ length s → length s - i < fuel →
  replace_loop (Chr c) false 0 [d] s fuel i i
  = map (λ x, if Ascii.eqb x c then d else x) (drop i s).
Proof.
  intros Hd. revert i. induction fuel as [| fuel IH]; intros i Hi Hf; [lia |].
  simpl replace_loop.
  replace (length s <? i) with false by (symmetry; apply Nat.ltb_ge; lia).
  rewrite (exec_from_Chr c s (length s - i) i eq_refl Hi).
  destruct (list_find (λ x, x = c) (drop i s)) as [[k y] |] eqn:Hfind.
  - apply list_find_Some in Hfind as (Hk & -> & Hbefore).
    cbn [m_start m_end]. simpl get_substitution. rewrite Hd.
    replace (S (i + k) =? i + k) with false
      by (symmetry; apply Nat.eqb_neq; lia).
    assert (i + k < length s) as Hlt.
    { apply lookup_lt_Some in Hk. rewrite length_drop in Hk. lia. }
    rewrite IH by lia. replace (S (i + k)) with (i + S k) by lia.
    replace (i + k - i) with k by lia.
    rewrite <- (drop_drop s (S k) i).
    generalize dependent (drop i s). intros l Hk Hbefore.
    rewrite <- (take_drop_middle l k c Hk) at 3.
    rewrite map_app. simpl. rewrite Ascii.eqb_refl.
    f_equal. symmetry. apply map_fixed. intros x Hx.
    apply list_elem_of_lookup in Hx as [j Hj].
    apply lookup_take_Some in Hj as [Hj Hjk].
    assert (x ≠ c) as Hne by (by apply (Hbefore j)).
    apply Ascii.eqb_neq in Hne. by rewrite Hne.
  - symmetry. apply map_fixed. intros x Hx.
    destruct (Ascii.eqb x c) eqn:E; [| done]. apply Ascii.eqb_eq in E as ->.
    apply list_elem_of_lookup in Hx as [j Hj].
    eapply list_find_None in Hfind. rewrite Forall_forall in Hfind.
    exfalso. eapply Hfind; [| done]. by eapply list_elem_of_lookup_2.
Qed.

Lemma slashes_to_slashes (p : string) : WatchLoop.slashes p = to_slashes p.
Proof.
  unfold WatchLoop.slashes, replace_all, to_slashes.
  change (of_string "/") with ["/"%char].
  rewrite replace_loop_Chr; [| done | lia | lia]. by rewrite drop_0.
Qed.

Lemma to_slashes_idemp (p : string) : to_slashes (to_slashes p) = to_slashes p.
Proof.
  unfold to_slashes. rewrite of_string_to_string, map_map. f_equal.
  apply map_ext. intros x. destruct (Ascii.eqb x "\") eqn:E; [done |]. by rewrite E.
Qed.

Lemma to_slashes_app (a b : string) :
  to_slashes (a +:+ b) = to_slashes a +:+ to_slashes b.
Proof.
  unfold to_slashes. by rewrite of_string_app, map_app, to_string_app.
Qed.

End ReplaceCharacter.

(** ** The ignore rules of the watch loop *)

Section IgnoreRules.
Import JsRegex WatchLoop.

Lemma prefix_b_spec (p s : JsRegex.str) :
  JsRegex.prefix_b p s = true ↔ ∃ l2, s = p ++ l2.
Proof.
  revert s. induction p as [| a p IH]; intros s; simpl.
  - split; [by exists s | done].
  - destruct s as [| b s]; [split; [done | by intros [? ?]] |].
    rewrite andb_true_iff, Ascii.eqb_eq, IH. split.
    + intros [-> [l2 ->]]. by exists l2.
    + intros [l2 [= -> ->]]. split; [done | by exists l2].
Qed.

Lemma includes_chars_spec (p s : JsRegex.str) :
  includes_chars p s = true ↔ ∃ l1 l2, s = l1 ++ p ++ l2.
Proof.
  induction s as [| b s IH]; simpl.
  - rewrite orb_false_r, prefix_b_spec. split.
    + intros [l2 H]. by exists [], l2.
    + intros (l1 & l2 & H). destruct l1; [by exists l2 |]. done.
  - rewrite orb_true_iff, prefix_b_spec, IH. split.
    + intros [[l2 H] | (l1 & l2 & ->)]; [by exists [], l2 |].
      by exists (b :: l1), l2.
    + intros (l1 & l2 & H). destruct l1 as [| x l1]; [left; by exists l2 |].
      injection H as -> ->. right. by exists l1, l2.
Qed.

Lemma includes_app (s p a b : string) :
  includes s p = true → includes (a +:+ s +:+ b) p = true.
Proof.
  unfold includes. rewrite !includes_chars_spec, !of_string_app.
  intros (l1 & l2 & ->).
  exists (JsRegex.of_string a ++ l1), (l2 ++ JsRegex.of_string b).
  by rewrite <- !app_assoc.
Qed.

Lemma isIgnored_true ignore (p : string) :
  isIgnored ignore p = true
  ↔ ∃ pats pat, ignore = Some pats ∧ pat ∈ pats
                ∧ includes (to_slashes p) (to_slashes pat) = true.
Proof.
  unfold isIgnored. destruct ignore as [[| pat0 pats] |].
  - split; [done |]. by intros (? & ? & [= <-] & ?%elem_of_nil & _).
  - rewrite existsb_exists. split.
    + intros (pat & Hin & Hinc). rewrite !slashes_to_slashes in Hinc.
      exists (pat0 :: pats), pat. by rewrite list_elem_of_In.
    + intros (? & pat & [= <-] & Hin & Hinc). exists pat.
      rewrite !slashes_to_slashes. by rewrite <- list_elem_of_In.
  - split; [done |]. by intros (? & ? & ? & _).
Qed.

(** X13.  The ignore rules of the watch loop are substring rules.  A path
    is ignored when some rule occurs anywhere in it, with back-slashes
    read as slashes on both sides; so the answer is the same for a path
    and for the path written with slashes, a path that has an ignored
    path inside it is ignored, and a rule that is the empty string makes
    the loop ignore every path.  Without rules nothing is ignored. *)
Theorem isIgnored_substring_rules ignore (p : string) :
  (isIgnored ignore p = true
   ↔ ∃ pats pat, ignore = Some pats ∧ pat ∈ pats
                 ∧ includes (to_slashes p) (to_slashes pat) = true)
  ∧ isIgnored ignore (to_slashes p) = isIgnored ignore p
  ∧ (∀ a b, isIgnored ignore p = true → isIgnored ignore (a +:+ p +:+ b) = true)
  ∧ (∀ pats, "" ∈ pats → isIgnored (Some pats) p = true)
  ∧ isIgnored None p = false
  ∧ isIgnored (Some []) p = false.
Proof.
  split_and!; try done.
  - apply isIgnored_true.
  - apply eq_true_iff_eq. rewrite !isIgnored_true. by rewrite to_slashes_idemp.
  - intros a b. rewrite !isIgnored_true. intros (pats & pat & -> & Hin & Hinc).
    exists pats, pat. split_and!; [done.. |].
    rewrite !to_slashes_app. by apply includes_app.
  - intros pats Hin. apply isIgnored_true. exists pats, "". split_and!; [done.. |].
    unfold includes. apply includes_chars_spec.
    by exists [], (JsRegex.of_string (to_slashes p)).
Qed.

Lemma isIgnored_substring_rules_witness :
  isIgnored (Some ["dist"]) "dist" = true
  ∧ isIgnored (Some ["dist"]) ("src\" +:+ "dist" +:+ "ance.ts") = true
  ∧ isIgnored (Some ["node_modules"; ""]) "src/app.css" = true.
Proof.
  assert (isIgnored (Some ["dist"]) "dist" = true) as H by (vm_compute; reflexivity).
  split_and!.
  - exact H.
  - exact (proj1 (proj2 (proj2 (isIgnored_substring_rules (Some ["dist"]) "dist")))
             "src\" "ance.ts" H).
  - apply (proj1 (proj2 (proj2 (proj2
             (isIgnored_substring_rules None "src/app.css"))))).
    vm_compute. set_solver.
Defined.

End IgnoreRules.

(** ** Route inference: separators, the leading slash *)

Section RouteInferenceMore.
Import RouteInference.

Lemma normalizePath_no_base (mapping : RouteMapping) (p : string) :
  basePath mapping = "" →
  normalizePath mapping p
  = JsRegex.replace_first (JsRegex.Seq JsRegex.Bos (JsRegex.Chr "/")) false 0 ""
      (to_slashes p).
Proof.
  intros Hb. unfold normalizePath. rewrite Hb. simpl truthy. cbv iota.
  by rewrite <- slashes_to_slashes.
Qed.

(** X14.  With no base path configured, route inference reads a
    back-slash in a file path as a slash: the normalized path, the
    inferred route and the three file tests are the same for a path and
    for the path with every back-slash replaced by a slash. *)
Theorem inference_reads_backslash_as_slash (mapping : RouteMapping) (p : string) :
  basePath mapping = "" →
  normalizePath mapping (to_slashes p) = normalizePath mapping p
  ∧ inferRoute mapping (to_slashes p) = inferRoute mapping p
  ∧ isLayoutFile mapping (to_slashes p) = isLayoutFile mapping p
  ∧ isPageFile mapping (to_slashes p) = isPageFile mapping p
  ∧ isComponentFile mapping (to_slashes p) = isComponentFile mapping p.
Proof.
  intros Hb.
  assert (normalizePath mapping (to_slashes p) = normalizePath mapping p) as Hn.
  { by rewrite !normalizePath_no_base, to_slashes_idemp. }
  assert (isLayoutFile mapping (to_slashes p) = isLayoutFile mapping p) as Hl.
  { unfold isLayoutFile. by rewrite Hn. }
  assert (isPageFile mapping (to_slashes p) = isPageFile mapping p) as Hp.
  { unfold isPageFile. by rewrite Hn, Hl. }
  split_and!; try done.
  - unfold inferRoute. by rewrite Hn.
  - unfold isComponentFile. by rewrite Hn, Hl, Hp.
Qed.

Lemma inference_reads_backslash_as_slash_witness :
  basePath default_mapping = ""
  ∧ inferRoute default_mapping "pages\user\[id].tsx" = Some "/user/:id".
Proof.
  split; [reflexivity |].
  rewrite <- (proj1 (proj2 (inference_reads_backslash_as_slash default_mapping
                              "pages\user\[id].tsx" eq_refl))).
  vm_compute. reflexivity.
Defined.

(** What a match hands to its continuation is what the whole match
    returns. *)
Lemma star_loop_cont {R : Type}
    (step : nat → JsRegex.str → JsRegex.captures
            → (nat → JsRegex.str → JsRegex.captures → option R) → option R)
    (k : nat → JsRegex.str → JsRegex.captures → option R) (x : R) :
  (∀ pos s caps k', step pos s caps k' = Some x →
                    ∃ pos' s' caps', k' pos' s' caps' = Some x) →
  ∀ fuel pos s caps,
    JsRegex.star_loop step k fuel pos s caps = Some x →
    ∃ pos' s' caps', k pos' s' caps' = Some x.
Proof.
  intros Hstep. induction fuel as [| fuel IH]; intros pos s caps; simpl.
  - intros H. by exists pos, s, caps.
  - destruct (step pos s caps _) as [y |] eqn:E.
    + intros [= ->]. apply Hstep in E as (pos' & s' & caps' & E).
      destruct (pos <? pos'); [| done]. by apply IH in E.
    + intros H. by exists pos, s, caps.
Qed.

Lemma rmatch_cont {R : Type} (r : JsRegex.regex) (i : bool) (x : R) :
  ∀ pos s caps (k : nat → JsRegex.str → JsRegex.captures → option R),
    JsRegex.rmatch r i pos s caps k = Some x →
    ∃ pos' s' caps', k pos' s' caps' = Some x.
Proof.
  induction r as [| c | f | r1 IH1 r2 IH2 | r1 IH1 r2 IH2 | r1 IH1 | n r1 IH1 | |];
    intros pos s caps k; simpl.
  - intros H. by exists pos, s, caps.
  - destruct s as [| y s]; [done |]. destruct (JsRegex.char_eqb i c y); [| done].
    intros H. by exists (S pos), s, caps.
  - destruct s as [| y s]; [done |]. destruct (f y); [| done].
    intros H. by exists (S pos), s, caps.
  - intros H. apply IH1 in H as (pos1 & s1 & caps1 & H). by apply IH2 in H.
  - destruct (JsRegex.rmatch r1 i pos s caps k) as [y |] eqn:E.
    + intros [= ->]. by apply IH1 in E.
    + apply IH2.
  - apply star_loop_cont. intros pos1 s1 caps1 k'. apply IH1.
  - intros H. apply IH1 in H as (pos1 & s1 & caps1 & H). by eexists _, _, _.
  - destruct (pos =? 0); [| done]. intros H. by exists pos, s, caps.
  - destruct s; [| done]. intros H. by exists pos, [], caps.
Qed.

Lemma match_at_start (r : JsRegex.regex) (i : bool) (s : JsRegex.str) (start : nat)
    (m : JsRegex.match_result) :
  JsRegex.match_at r i s start = Some m → JsRegex.m_start m = start.
Proof.
  unfold JsRegex.match_at. intros H.
  apply rmatch_cont in H as (pos' & s' & caps' & [= <-]). done.
Qed.

Lemma collapse_slashes_leading (l : JsRegex.str) :
  ∃ rest,
    JsRegex.replace_all (JsRegex.Plus (JsRegex.Chr "/")) false 0 "/"
      (JsRegex.to_string ("/"%char :: l))
    = JsRegex.to_string ("/"%char :: rest).
Proof.
  unfold JsRegex.replace_all. rewrite of_string_to_string.
  assert (is_Some (JsRegex.match_at (JsRegex.Plus (JsRegex.Chr "/")) false
                     ("/"%char :: l) 0)) as [m Hm].
  { unfold JsRegex.match_at. simpl. by apply star_loop_is_Some. }
  destruct (replace_loop_hit _ false 0 (JsRegex.of_string "/") _
              (length ("/"%char :: l)) m Hm) as [rest ->].
  rewrite (match_at_start _ _ _ _ _ Hm). simpl. by exists rest.
Qed.

Lemma normalizeRoute_leading_slash (route : string) :
  JsRegex.startsWith (normalizeRoute route) "/" = true.
Proof.
  assert (∀ l, JsRegex.startsWith
                 (JsRegex.replace_all (JsRegex.Plus (JsRegex.Chr "/")) false 0 "/"
                    (JsRegex.to_string ("/"%char :: l))) "/" = true) as Hlead.
  { intros l. destruct (collapse_slashes_leading l) as [rest ->].
    unfold JsRegex.startsWith. by rewrite of_string_to_string. }
  unfold normalizeRoute.
  set (r1 := JsRegex.replace_first _ _ _ _ route).
  assert (∃ l, (if JsRegex.startsWith r1 "/" then r1 else "/" +:+ r1)
               = JsRegex.to_string ("/"%char :: l)) as [l ->].
  { destruct (JsRegex.startsWith r1 "/") eqn:E; [by apply starts_with_slash |].
    exists (JsRegex.of_string r1). simpl. by rewrite to_string_of_string. }
  destruct (negb _ && _) eqn:E; [| apply Hlead].
  rewrite of_string_to_string.
  destruct l as [| c l].
  - apply andb_true_iff in E as [E _]. by vm_compute in E.
  - apply (Hlead (removelast (c :: l))).
Qed.

(** X15.  Whatever the patterns and templates of the mapping, a route
    that inferRoute returns starts with a slash, and so does the route
    that the change orchestrator puts into its messages. *)
Theorem inferred_route_starts_with_slash :
  (∀ (mapping : RouteMapping) (p route : string),
     inferRoute mapping p = Some route → JsRegex.startsWith route "/" = true)
  ∧ (∀ p : string, JsRegex.startsWith (DevTools.inferRouteFromPath p) "/" = true).
Proof.
  assert (∀ (mapping : RouteMapping) (p route : string),
            inferRoute mapping p = Some route → JsRegex.startsWith route "/" = true)
    as H.
  { intros mapping p route. unfold inferRoute.
    generalize (normalizePath mapping p) as np.
    induction (patterns mapping) as [| pt ps IH]; intros np; simpl; [done |].
    destruct (JsRegex.exec _ _ _); [| apply IH].
    intros [= <-]. apply normalizeRoute_leading_slash. }
  split; [exact H |].
  intros p. unfold DevTools.inferRouteFromPath.
  destruct (inferRoute _ p) as [r |] eqn:Hr; [| done].
  destruct (truthy r); [by eapply H | done].
Qed.

Lemma inferred_route_starts_with_slash_witness :
  inferRoute default_mapping "pages/docs/[...slug].tsx" = Some "/docs/*"
  ∧ JsRegex.startsWith "/docs/*" "/" = true.
Proof.
  assert (inferRoute default_mapping "pages/docs/[...slug].tsx" = Some "/docs/*")
    as H by (vm_compute; reflexivity).
  split; [exact H |].
  exact (proj1 inferred_route_starts_with_slash _ _ _ H).
Defined.

End RouteInferenceMore.

(** ** The browser client: the queue, the heartbeat, query strings *)

Section HmrBrowserMore.
Import HmrBrowser.

Lemma receive_queue (ms : list HMRMessage) (c : HMRClient) :
  updateQueue (receive ms c) = updateQueue c ++ List.filter queued ms.
Proof.
  unfold receive. revert c. induction ms as [| m ms IH]; intros c; simpl.
  - by rewrite app_nil_r.
  - rewrite IH. unfold handleMessage, queued.
    destruct (String.eqb (type m) "reload"); simpl; [done |].
    destruct (String.eqb (type m) "error"); simpl; [done |].
    by rewrite <- app_assoc.
Qed.

(** The shortcut of mergeUpdates for a batch of one message returns what
    the general merge returns. *)
Lemma mergeUpdates_merge_sorted
    (engineSort : list HMRMessage → list HMRMessage) (msgs : list HMRMessage) :
  msgs ≠ [] → Forall numbered msgs →
  mergeUpdates engineSort msgs = merge_sorted engineSort msgs.
Proof.
  intros Hne Hnum. destruct msgs as [| m1 [| m2 msgs]]; [done | | done].
  unfold merge_sorted. rewrite sort_by_priority_numbered by done.
  unfold collect_paths, collect_files, collect_routes. simpl.
  destruct m1 as [t p fs msg mid cp lp rt]. simpl. f_equal. f_equal.
  - destruct p as [q |]; [by destruct (truthy q) | done].
  - destruct fs as [[| f fs] |]; done.
  - destruct rt as [q |]; [by destruct (truthy q) | done].
Qed.

Lemma mergeUpdates_type
    (engineSort : list HMRMessage → list HMRMessage) (msgs : list HMRMessage) :
  msgs ≠ [] → Forall numbered msgs →
  ∃ merged primary,
    mergeUpdates engineSort msgs = Some merged ∧ primary ∈ msgs
    ∧ type merged = type primary.
Proof.
  intros Hne Hnum. rewrite (mergeUpdates_merge_sorted _ _ Hne Hnum).
  unfold merge_sorted. rewrite sort_by_priority_numbered by done.
  destruct (stable_sort msgs) as [| primary rest] eqn:Hs.
  { by apply stable_sort_nonempty in Hs. }
  destruct (stable_sort_head _ _ _ Hnum Hs) as [Hin _].
  by eexists _, primary.
Qed.

Lemma handleUpdate_known (e : env) (m : HMRMessage) : handleUpdate e m ≠ UnknownType.
Proof.
  unfold handleUpdate.
  repeat match goal with
         | |- context [if ?b then _ else _] => destruct b
         | |- context [match files m with _ => _ end] =>
             destruct (files m) as [[| ? ?] |]
         end; done.
Qed.

Lemma handleMergedUpdate_known (e : env) (m : HMRMessage) :
  type m ∈ update_types → handleMergedUpdate e m ≠ UnknownType.
Proof.
  unfold update_types, handleMergedUpdate. intros Hin.
  assert (type m = "css-update" ∨ type m = "component-update"
          ∨ type m = "layout-update" ∨ type m = "module-update"
          ∨ type m = "update") as Ht by set_solver.
  destruct Ht as [-> | [-> | [-> | [-> | ->]]]]; simpl; try done.
  - unfold handleCSSUpdate. destruct (path m) as [q |]; [by destruct (truthy q) | done].
  - apply handleUpdate_known.
Qed.

Lemma wire_type_numbered (m : HMRMessage) : type m ∈ wire_types → numbered m.
Proof.
  unfold wire_types, numbered. intros Hin.
  assert (type m = "reload" ∨ type m = "css-update" ∨ type m = "layout-update"
          ∨ type m = "component-update" ∨ type m = "module-update"
          ∨ type m = "update" ∨ type m = "error") as Ht by set_solver.
  destruct Ht as [-> | [-> | [-> | [-> | [-> | [-> | ->]]]]]]; reflexivity.
Qed.

(** X16.  The client acts on reload and error at once and queues every
    other message, in the order of arrival.  When the server sends only
    the types that the watch loop broadcasts, the type of the merged
    message of a non-empty queue is one that handleMergedUpdate has a
    case for: reload and error, for which it has none, never reach it.
    The batching timer leaves the queue empty.  The sort of the engine
    has no part in this. *)
Theorem queue_holds_updates_only
    (engineSort : list HMRMessage → list HMRMessage)
    (ms : list HMRMessage) (e : env) :
  let c := receive ms create in
  updateQueue c = List.filter queued ms
  ∧ (Forall (λ m, type m ∈ wire_types) ms → updateQueue c ≠ [] →
     ∃ merged,
       mergeUpdates engineSort (updateQueue c) = Some merged
       ∧ type merged ∈ update_types
       ∧ (processQueue engineSort e c).2 = Some (handleMergedUpdate e merged)
       ∧ handleMergedUpdate e merged ≠ UnknownType)
  ∧ updateQueue (processQueue engineSort e c).1 = [].
Proof.
  intros c. assert (updateQueue c = List.filter queued ms) as Hq.
  { unfold c. by rewrite receive_queue. }
  split_and!; [done | |].
  - intros Hall Hne.
    assert (Forall numbered (updateQueue c)) as Hnum.
    { rewrite Hq. apply Forall_forall. intros m Hm.
      apply list_elem_of_In, filter_In in Hm as [Hm _]. apply list_elem_of_In in Hm.
      rewrite Forall_forall in Hall. by apply wire_type_numbered, Hall. }
    destruct (mergeUpdates_type engineSort _ Hne Hnum)
      as (merged & primary & Hm & Hin & Ht).
    assert (type merged ∈ update_types) as Hty.
    { rewrite Ht. rewrite Hq in Hin.
      apply list_elem_of_In, filter_In in Hin as [Hin Hqd].
      apply list_elem_of_In in Hin.
      rewrite Forall_forall in Hall. specialize (Hall _ Hin).
      unfold queued in Hqd. apply andb_true_iff in Hqd as [H1 H2].
      apply negb_true_iff, String.eqb_neq in H1, H2.
      unfold wire_types in Hall. unfold update_types. set_solver. }
    exists merged. split_and!; [done | done | | by apply handleMergedUpdate_known].
    unfold processQueue. destruct (updateQueue c); [done |]. by rewrite Hm.
  - clearbody c. unfold processQueue. by destruct (updateQueue c) eqn:E.
Qed.

Lemma queue_holds_updates_only_witness :
  let ms := [mkMsg "reload" None None None None None None None;
             module_message; css_message] in
  Forall (λ m, type m ∈ wire_types) ms
  ∧ updateQueue (receive ms create) ≠ []
  ∧ ∃ merged,
      mergeUpdates stable_sort (updateQueue (receive ms create)) = Some merged
      ∧ type merged ∈ update_types.
Proof.
  cbv zeta.
  assert (Forall (λ m, type m ∈ wire_types)
            [mkMsg "reload" None None None None None None None;
             module_message; css_message]) as Hall.
  { repeat constructor; vm_compute; set_solver. }
  assert (updateQueue (receive [mkMsg "reload" None None None None None None None;
                                module_message; css_message] create) ≠ []) as Hne.
  { by vm_compute. }
  split_and!; [exact Hall | exact Hne |].
  destruct (proj1 (proj2 (queue_holds_updates_only stable_sort _ user_page)) Hall Hne)
    as (merged & Hm & Hty & _).
  by exists merged.
Defined.

Lemma insert_by_priority_cons (m x : HMRMessage) (l : list HMRMessage) :
  insert_by_priority m (x :: l)
  = if sorts_before m x then m :: x :: l else x :: insert_by_priority m l.
Proof. done. Qed.

Lemma priority_ping : priority (type ping) = Some 999.
Proof. done. Qed.

Lemma numbered_ping : numbered ping.
Proof. done. Qed.

Lemma rank_ping : rank ping = 999.
Proof. done. Qed.

(** A message whose priority is a number below 999. *)
Lemma below_999_numbered (m : HMRMessage) :
  (∃ n, priority (type m) = Some n ∧ n < 999) → numbered m ∧ rank m < 999.
Proof.
  intros (n & Hn & Hlt).
  assert (numbered m) as Hnum.
  { apply numbered_priority. unfold rank. by rewrite Hn. }
  split; [done |]. unfold rank. by rewrite Hn.
Qed.

Lemma insert_by_priority_before_ping (m : HMRMessage) (l : list HMRMessage) :
  numbered m → rank m < 999 → Forall numbered l →
  insert_by_priority m (l ++ [ping]) = insert_by_priority m l ++ [ping].
Proof.
  intros Hnm Hm Hall. induction Hall as [| x l Hx Hl IH].
  - change ([] ++ [ping]) with [ping].
    rewrite insert_by_priority_cons, sorts_before_rank, rank_ping
      by (done || apply numbered_ping).
    replace (rank m <=? 999) with true; [done |].
    symmetry. apply Nat.leb_le. lia.
  - change ((x :: l) ++ [ping]) with (x :: (l ++ [ping])).
    rewrite !insert_by_priority_cons.
    destruct (sorts_before m x); [done |]. by rewrite IH.
Qed.

Lemma insert_ping_last (l : list HMRMessage) :
  Forall (λ m, numbered m ∧ rank m < 999) l → insert_by_priority ping l = l ++ [ping].
Proof.
  induction 1 as [| x l [Hnx Hx] Hl IH]; [done |].
  rewrite insert_by_priority_cons, sorts_before_rank, rank_ping
    by (done || apply numbered_ping).
  replace (999 <=? rank x) with false; [by rewrite IH |].
  symmetry. apply Nat.leb_gt. lia.
Qed.

Lemma stable_sort_ping (l1 l2 : list HMRMessage) :
  Forall (λ m, numbered m ∧ rank m < 999) (l1 ++ l2) →
  stable_sort (l1 ++ ping :: l2) = stable_sort (l1 ++ l2) ++ [ping].
Proof.
  induction l1 as [| x l1 IH]; simpl; intros Hall.
  - apply insert_ping_last. by rewrite stable_sort_perm.
  - apply Forall_cons in Hall as [[Hnx Hx] Hall].
    rewrite IH by done. apply insert_by_priority_before_ping; [done | done |].
    rewrite stable_sort_perm. eapply Forall_impl; [exact Hall |]. by intros y [? _].
Qed.

Lemma stable_sort_pings (n : nat) :
  stable_sort (replicate n ping) = replicate n ping.
Proof.
  induction n as [| n IH]; simpl; [done |]. rewrite IH. by destruct n.
Qed.

(** X17.  The heartbeat of the server goes into the update queue like an
    update.  A batch of heartbeats only merges into a heartbeat, which
    handleMergedUpdate has no case for.  A heartbeat in a batch with
    messages of known types sorts behind them and carries no path, file
    or route: the merged message is the same as without it.  The sort of
    the engine has no part in this. *)
Theorem heartbeat_in_the_queue
    (engineSort : list HMRMessage → list HMRMessage) :
  (∀ c : HMRClient, handleMessage ping c = (addToQueue ping c, None))
  ∧ (∀ (e : env) (n : nat),
       mergeUpdates engineSort (replicate (S n) ping) = Some ping
       ∧ handleMergedUpdate e ping = UnknownType)
  ∧ (∀ l1 l2 : list HMRMessage,
       l1 ++ l2 ≠ [] →
       Forall (λ m, ∃ n, priority (type m) = Some n ∧ n < 999) (l1 ++ l2) →
       mergeUpdates engineSort (l1 ++ ping :: l2)
       = mergeUpdates engineSort (l1 ++ l2)).
Proof.
  split_and!.
  - done.
  - intros e n. split; [| done].
    assert (Forall numbered (replicate (S n) ping)) as Hnum.
    { apply Forall_replicate, numbered_ping. }
    rewrite mergeUpdates_merge_sorted by done. unfold merge_sorted.
    rewrite sort_by_priority_numbered by done.
    rewrite (stable_sort_pings (S n)). simpl replicate. cbv iota.
    assert (∀ k, collect_paths (replicate k ping) = []) as Hp.
    { intros k. unfold collect_paths. induction k as [| k IH]; [done | exact IH]. }
    assert (∀ k, collect_files (replicate k ping) = []) as Hf.
    { intros k. unfold collect_files. induction k as [| k IH]; [done | exact IH]. }
    assert (∀ k, collect_routes (replicate k ping) = []) as Hr.
    { intros k. unfold collect_routes. induction k as [| k IH]; [done | exact IH]. }
    change (ping :: replicate n ping) with (replicate (S n) ping).
    by rewrite Hp, Hf, Hr.
  - intros l1 l2 Hne Hall.
    assert (Forall (λ m, numbered m ∧ rank m < 999) (l1 ++ l2)) as Hall'.
    { eapply Forall_impl; [exact Hall |]. apply below_999_numbered. }
    assert (Forall numbered (l1 ++ l2)) as Hnum.
    { eapply Forall_impl; [exact Hall' |]. by intros y [? _]. }
    assert (Forall numbered (l1 ++ ping :: l2)) as Hnum'.
    { apply Forall_app in Hnum as [H1 H2]. apply Forall_app. split; [done |].
      constructor; [apply numbered_ping | done]. }
    rewrite !mergeUpdates_merge_sorted; [| done | done | by destruct l1 | done].
    unfold merge_sorted. rewrite !sort_by_priority_numbered by done.
    rewrite (stable_sort_ping _ _ Hall').
    destruct (stable_sort (l1 ++ l2)) as [| primary rest] eqn:Hs.
    { by apply stable_sort_nonempty in Hs. }
    simpl app. cbv iota.
    change (primary :: rest ++ [ping]) with ((primary :: rest) ++ [ping]).
    unfold collect_paths, collect_files, collect_routes.
    rewrite !foldl_app. simpl. done.
Qed.

Lemma heartbeat_in_the_queue_witness :
  [css_message] ++ [module_message] ≠ []
  ∧ mergeUpdates stable_sort ([css_message] ++ ping :: [module_message])
    = mergeUpdates stable_sort ([css_message] ++ [module_message]).
Proof.
  split; [done |].
  apply (proj2 (proj2 (heartbeat_in_the_queue stable_sort))); [done |].
  repeat constructor; eexists; (split; [reflexivity | lia]).
Defined.

Lemma strip_after_question (l q : JsRegex.str) :
  JsRegex.before_char "#" (JsRegex.before_char "?" (l ++ "?"%char :: q))
  = JsRegex.before_char "#" (JsRegex.before_char "?" l).
Proof.
  induction l as [| c l IH]; [done |]. simpl.
  destruct (Ascii.eqb c "?"); [done |]. simpl.
  destruct (Ascii.eqb c "#"); [done |]. by rewrite IH.
Qed.

Lemma strip_after_hash (l q : JsRegex.str) :
  JsRegex.before_char "#" (JsRegex.before_char "?" (l ++ "#"%char :: q))
  = JsRegex.before_char "#" (JsRegex.before_char "?" l).
Proof.
  induction l as [| c l IH]; [done |]. simpl.
  destruct (Ascii.eqb c "?"); [done |]. simpl.
  destruct (Ascii.eqb c "#"); [done |]. by rewrite IH.
Qed.

Lemma normalizeRoute_of_stripped (r : string) :
  normalizeRoute r
  = let path := strip_query_and_hash r in
    let normalized := if JsRegex.startsWith path "/" then path else "/" +:+ path in
    if String.eqb normalized "/" then "/"
    else JsRegex.replace_first (JsRegex.Seq (JsRegex.Chr "/") JsRegex.Eos) false 0 ""
           normalized.
Proof. unfold normalizeRoute. by destruct r. Qed.

Lemma strip_suffix (r q : string) :
  strip_query_and_hash (r +:+ "?" +:+ q) = strip_query_and_hash r
  ∧ strip_query_and_hash (r +:+ "#" +:+ q) = strip_query_and_hash r.
Proof.
  unfold strip_query_and_hash. rewrite !of_string_app. simpl.
  by rewrite strip_after_question, strip_after_hash.
Qed.

(** X18.  The client compares routes without their query string and
    fragment: whatever follows a question mark or a hash sign in the route
    of a message, or in the path of the page, changes neither the
    normalized route nor the answer of isCurrentRoute. *)
Theorem query_and_fragment_ignored (e : env) (r q : string) :
  normalizeRoute (r +:+ "?" +:+ q) = normalizeRoute r
  ∧ normalizeRoute (r +:+ "#" +:+ q) = normalizeRoute r
  ∧ isCurrentRoute e (r +:+ "?" +:+ q) = isCurrentRoute e r
  ∧ isCurrentRoute e (r +:+ "#" +:+ q) = isCurrentRoute e r
  ∧ (∀ loc, matchesLocation (loc +:+ "?" +:+ q) r = matchesLocation loc r
            ∧ matchesLocation (loc +:+ "#" +:+ q) r = matchesLocation loc r).
Proof.
  assert (∀ x, normalizeRoute (x +:+ "?" +:+ q) = normalizeRoute x
               ∧ normalizeRoute (x +:+ "#" +:+ q) = normalizeRoute x) as Hn.
  { intros x. rewrite !normalizeRoute_of_stripped.
    destruct (strip_suffix x q) as [-> ->]. done. }
  destruct (Hn r) as [H1 H2].
  split_and!; [done | done | | |].
  - unfold isCurrentRoute, matchesLocation. by rewrite H1.
  - unfold isCurrentRoute, matchesLocation. by rewrite H2.
  - intros loc. destruct (Hn loc) as [H3 H4]. unfold matchesLocation.
    by rewrite H3, H4.
Qed.

End HmrBrowserMore.

(** ** The injection of the client script *)

Section HmrClientScriptMore.
Import JsRegex HmrClientScript.

Lemma last_index_from_Some (p s : str) (n i : nat) :
  last_index_from p s n = Some i →
  i ≤ n ∧ prefix_b p (drop i s) = true
  ∧ ∀ j, i < j → j ≤ n → prefix_b p (drop j s) = false.
Proof.
  induction n as [| n IH]; simpl.
  - destruct (prefix_b p (drop 0 s)) eqn:E; [| done]. intros [= <-].
    split_and!; [lia | done | intros; lia].
  - destruct (prefix_b p (drop (S n) s)) eqn:E.
    + intros [= <-]. split_and!; [lia | done | intros; lia].
    + intros (Hle & Hp & Hlast)%IH. split_and!; [lia | done |].
      intros j Hij Hj. destruct (decide (j = S n)) as [-> | Hne]; [done |].
      apply Hlast; lia.
Qed.

Lemma last_index_from_None (p s : str) (n : nat) :
  last_index_from p s n = None → ∀ j, j ≤ n → prefix_b p (drop j s) = false.
Proof.
  induction n as [| n IH]; simpl.
  - destruct (prefix_b p (drop 0 s)) eqn:E; [done |]. intros _ j Hj.
    by replace j with 0 by lia.
  - destruct (prefix_b p (drop (S n) s)) eqn:E; [done |]. intros H j Hj.
    destruct (decide (j = S n)) as [-> | Hne]; [done |]. apply IH; [done | lia].
Qed.

Lemma includes_chars_position (p s : str) :
  includes_chars p s = true ↔ ∃ j, j ≤ length s ∧ prefix_b p (drop j s) = true.
Proof.
  rewrite includes_chars_spec. split.
  - intros (l1 & l2 & ->). exists (length l1). split.
    + rewrite length_app. lia.
    + rewrite drop_app_length. apply prefix_b_spec. by exists l2.
  - intros (j & Hj & (l2 & Hl2)%prefix_b_spec). exists (take j s), l2.
    by rewrite <- Hl2, take_drop.
Qed.

Lemma includes_lastIndexOf (s p : string) :
  p ≠ "" →
  match lastIndexOf s p with
  | Some i =>
      includes s p = true ∧ i ≤ length (of_string s)
      ∧ startsWith (slice_from i s) p = true
      ∧ includes (slice_from (S i) s) p = false
  | None => includes s p = false
  end.
Proof.
  intros Hne. assert (of_string p ≠ []) as Hne'.
  { intros H. apply Hne. by rewrite <- (to_string_of_string p), H. }
  unfold lastIndexOf, includes, startsWith, slice_from.
  destruct (last_index_from _ _ _) as [i |] eqn:E.
  - rewrite !of_string_to_string.
    apply last_index_from_Some in E as (Hle & Hp & Hlast). split_and!.
    + apply includes_chars_position. by exists i.
    + done.
    + done.
    + apply not_true_is_false. intros (j & Hj & Hpj)%includes_chars_position.
      rewrite length_drop in Hj. rewrite drop_drop in Hpj.
      destruct (decide (S i ≤ length (of_string s))) as [Hin | Hout].
      * rewrite Hlast in Hpj by lia. done.
      * assert (drop i (of_string s) = []) as Hnil by (apply drop_ge; lia).
        rewrite Hnil in Hp. by destruct (of_string p).
  - apply not_true_is_false. intros (j & Hj & Hpj)%includes_chars_position.
    by rewrite (last_index_from_None _ _ _ E j Hj) in Hpj.
Qed.

Lemma slice_to_from (i : nat) (s : string) : slice_to i s +:+ slice_from i s = s.
Proof.
  unfold slice_to, slice_from.
  by rewrite <- to_string_app, take_drop, to_string_of_string.
Qed.

(** X19.  injectHMRClient puts the script element into the page and
    changes nothing else of it: the result is the page cut in two at one
    position, with the element in between.  When the page has a closing
    body tag, the cut is right before the last one, also when a closing
    html tag comes earlier; when it has none but has a closing html tag,
    the cut is right before the last of those; a line feed follows the
    element in both cases.  Otherwise the element goes to the end. *)
Theorem injectHMRClient_placement (html script : string) :
  let scriptTag := "<script>" +:+ script +:+ "</script>" in
  ∃ (i : nat) (sep : string),
    injectHMRClient html script
    = slice_to i html +:+ scriptTag +:+ sep +:+ slice_from i html
    ∧ slice_to i html +:+ slice_from i html = html
    ∧ i ≤ length (of_string html)
    ∧ (includes html "</body>" = true →
       sep = newline
       ∧ startsWith (slice_from i html) "</body>" = true
       ∧ includes (slice_from (S i) html) "</body>" = false)
    ∧ (includes html "</body>" = false → includes html "</html>" = true →
       sep = newline
       ∧ startsWith (slice_from i html) "</html>" = true
       ∧ includes (slice_from (S i) html) "</html>" = false)
    ∧ (includes html "</body>" = false → includes html "</html>" = false →
       sep = "" ∧ i = length (of_string html)).
Proof.
  intros scriptTag. unfold injectHMRClient. fold scriptTag.
  pose proof (includes_lastIndexOf html "</body>" ltac:(done)) as Hb.
  pose proof (includes_lastIndexOf html "</html>" ltac:(done)) as Hh.
  destruct (lastIndexOf html "</body>") as [i |].
  - destruct Hb as (Hinc & Hle & Hstart & Hlast).
    exists i, newline. split_and!; [done | apply slice_to_from | done | done | |].
    + intros H. by rewrite H in Hinc.
    + intros H. by rewrite H in Hinc.
  - destruct (lastIndexOf html "</html>") as [i |].
    + destruct Hh as (Hinc & Hle & Hstart & Hlast).
      exists i, newline. split_and!; [done | apply slice_to_from | done | | done |].
      * intros H. by rewrite H in Hb.
      * intros _ H. by rewrite H in Hinc.
    + exists (length (of_string html)), "".
      split_and!; [| apply slice_to_from | done | | |].
      * unfold slice_to, slice_from. rewrite firstn_all, drop_all. simpl.
        rewrite to_string_of_string.
        assert (∀ t : string, t +:+ "" = t) as Hr.
        { intros t. induction t as [| c t IH]; [done |].
          change (String c t +:+ "") with (String c (t +:+ "")). by rewrite IH. }
        change ("" +:+ "") with "". by rewrite Hr.
      * intros H. by rewrite H in Hb.
      * intros _ H. by rewrite H in Hh.
      * done.
Qed.

Lemma injectHMRClient_placement_witness :
  let html := "<body><p>hi</p></body></html>" in
  includes html "</body>" = true
  ∧ ∃ i : nat,
      injectHMRClient html "go()"
      = slice_to i html +:+ ("<script>" +:+ "go()" +:+ "</script>") +:+ newline
          +:+ slice_from i html
      ∧ startsWith (slice_from i html) "</body>" = true.
Proof.
  cbv zeta.
  assert (includes "<body><p>hi</p></body></html>" "</body>" = true) as Hinc
    by (vm_compute; reflexivity).
  split; [exact Hinc |].
  destruct (injectHMRClient_placement "<body><p>hi</p></body></html>" "go()")
    as (i & sep & Heq & _ & _ & Hb & _).
  destruct (Hb Hinc) as (-> & Hstart & _).
  exists i. split; [exact Heq | exact Hstart].
Defined.

End HmrClientScriptMore.
